(** * CopyOnWrite: a shallow embedding of [copy_on_write.hpp]

    The container keeps one reference-counted [Internal] object and a packed
    64-bit word [addressAndCopyCounter] holding the object's address in its low
    48 bits and, in its high 16 bits, the number of readers that loaded the
    address but have not yet raised the object's own [refcount].

    The free store is a finite map from addresses to [Internal] objects.
    Pointers are the 64-bit integers [reinterpret_cast] makes of them, [0]
    being [nullptr].  Unsigned 64-bit arithmetic wraps modulo [2^64], the
    [std::atomic_int] drain counter wraps as a 32-bit two's complement value.
    Operations are computations in a state monad over the free store and the
    container's fields whose outcome is a normal return, a C++ exception, a
    computation that never returns, or undefined behaviour.  Threads running
    concurrently are modelled by the interleavings of their atomic accesses,
    one access a step. *)

From stdpp Require Import gmap list.
From Stdlib Require Import ZArith Lia.

Local Open Scope Z_scope.

(** ** Machine integers and the packed word *)

Definition u64 (x : Z) : Z := x mod 2 ^ 64.

(** [std::atomic_int]: 32-bit two's complement. *)
Definition i32 (x : Z) : Z := (x + 2 ^ 31) mod 2 ^ 32 - 2 ^ 31.

Definition increment : Z := 0x0001000000000000.
Definition prefix : Z := 0xffff000000000000.
Definition suffix : Z := 0x0000ffffffffffff.

Definition getPointer (value : Z) : Z :=
  if negb (Z.land value 0x0000800000000000 =? 0)
  then Z.lor value prefix
  else Z.land value suffix.

(** What the allocator hands out: a non-null user-space address, that is one
    in the lower canonical half, whose 17 high bits are clear. *)
Definition user_pointer (p : Z) : Prop := 0 < p < 2 ^ 47.

(** A canonical 64-bit address: bits 47 to 63 are all clear (the lower half)
    or all set (the upper half). *)
Definition canonical (p : Z) : Prop :=
  0 ≤ p < 2 ^ 47 ∨ 2 ^ 64 - 2 ^ 47 ≤ p < 2 ^ 64.

(** C++ exceptions. *)
Inductive exn : Type :=
  | bad_alloc
  | thrown (code : Z).

(** What the template asks of the payload type [T]: it is constructible from
    the arguments [Args] and copy constructible; both constructors may
    throw. *)
Class Payload (T Args : Type) : Type := {
  T_ctor : Args → exn + T;
  T_copy : T → exn + T
}.

(** ** The payload of the test program

    [TestClass] of [copy_on_write_test.cpp]: two [int] fields, a constructor
    from the first one, and the implicit copy constructor. *)
Record TestClass : Type := mkTestClass {
  a : Z;
  b : Z
}.

#[global] Instance TestClass_payload : Payload TestClass Z := {
  T_ctor x := inr (mkTestClass x 0);
  T_copy t := inr t
}.

Section Embedding.

Context {T Args : Type} `{!Payload T Args}.

Record Internal : Type := mkInternal {
  refcount : Z;
  instance : T
}.

(** The free store together with the three fields of the container. *)
Record World : Type := mkWorld {
  heap : gmap Z Internal;
  addressAndCopyCounter : Z;
  previousCopyCounter : Z;
  editMutex : bool
}.

Definition set_heap (h : gmap Z Internal) (w : World) : World :=
  mkWorld h (addressAndCopyCounter w) (previousCopyCounter w) (editMutex w).
Definition set_slot (v : Z) (w : World) : World :=
  mkWorld (heap w) v (previousCopyCounter w) (editMutex w).
Definition set_previous (v : Z) (w : World) : World :=
  mkWorld (heap w) (addressAndCopyCounter w) v (editMutex w).
Definition set_mutex (b : bool) (w : World) : World :=
  mkWorld (heap w) (addressAndCopyCounter w) (previousCopyCounter w) b.

(** ** The monad of operations *)

Inductive outcome (A : Type) : Type :=
  | Ret (a : A) (w : World)      (* returned [a] *)
  | Throw (e : exn) (w : World)  (* an exception left the call *)
  | Hang                         (* the call never returns *)
  | Undef.                       (* undefined behaviour *)
Arguments Ret {A} a w.
Arguments Throw {A} e w.
Arguments Hang {A}.
Arguments Undef {A}.

Definition M (A : Type) : Type := World → outcome A.

Definition ret {A} (a : A) : M A := fun w => Ret a w.

Definition bind {A B} (m : M A) (k : A → M B) : M B := fun w =>
  match m w with
  | Ret a w' => k a w'
  | Throw e w' => Throw e w'
  | Hang => Hang
  | Undef => Undef
  end.

Definition throw {A} (e : exn) : M A := fun w => Throw e w.

(** Runs [cleanup] when an exception unwinds through [body] (a destructor of
    a local object). *)
Definition unwinding {A} (body : M A) (cleanup : M unit) : M A := fun w =>
  match body w with
  | Throw e w' =>
      match cleanup w' with
      | Ret _ w'' => Throw e w''
      | Throw e' w'' => Throw e' w''
      | Hang => Hang
      | Undef => Undef
      end
  | o => o
  end.

#[global] Instance M_ret : MRet M := @ret.
#[global] Instance M_bind : MBind M := λ A B k m, bind m k.

(** ** Atomic accesses and the free store *)

Definition load : M Z := fun w => Ret (addressAndCopyCounter w) w.
Definition store (v : Z) : M unit := fun w => Ret tt (set_slot v w).
Definition exchange (v : Z) : M Z := fun w =>
  Ret (addressAndCopyCounter w) (set_slot v w).

(** [p->...]: a null or dangling pointer must not be dereferenced. *)
Definition deref (p : Z) : M Internal := fun w =>
  if decide (p = 0) then Undef
  else match heap w !! p with
       | Some cell => Ret cell w
       | None => Undef
       end.

Definition update (f : World → World) : M unit := fun w => Ret tt (f w).

Definition put (p : Z) (cell : Internal) : M unit :=
  update (fun w => set_heap (<[p := cell]> (heap w)) w).

(** [p->refcount++] on the [std::atomic_size_t]. *)
Definition refcount_incr (p : Z) : M unit :=
  cell ← deref p;
  put p (mkInternal (u64 (refcount cell + 1)) (instance cell)).

(** [--p->refcount], yielding the new count. *)
Definition refcount_decr (p : Z) : M Z :=
  cell ← deref p;
  let left := u64 (refcount cell - 1) in
  put p (mkInternal left (instance cell));;
  mret left.

(** [delete p]. *)
Definition delete_ (p : Z) : M unit :=
  deref p;;
  update (fun w => set_heap (delete p (heap w)) w).

(** [new Internal(...)]: [place] is the address the allocator returns, if it
    has one left; [built] is what the payload's constructor yields.  When the
    constructor throws, the new-expression gives the storage back. *)
Definition new_Internal (place : option Z) (built : exn + T) : M Z :=
  match place with
  | None => throw bad_alloc
  | Some p =>
      match built with
      | inl e => throw e
      | inr t => put p (mkInternal 1 t);; mret p
      end
  end.

(** ** The private members *)

Definition getRidOfPointer (pointer : Z) : M unit :=
  refcountLeft ← refcount_decr pointer;
  if refcountLeft =? 0 then delete_ pointer else mret tt.

(** [safeInstance], run by a thread that is alone: each
    [compare_exchange_weak] loop then leaves on its first successful round. *)
Definition safeInstance : M Z :=
  value ← load;
  let newValue := u64 (value + increment) in
  store newValue;;
  let obtained := getPointer value in
  refcount_incr obtained;;
  decrementee ← load;
  (if negb (Z.land decrementee suffix =? Z.land value suffix)
   then update (fun w => set_previous (i32 (previousCopyCounter w - 1)) w)
   else store (u64 (decrementee - increment)));;
  mret obtained.

(** The busy wait of [replace]: nobody else can bring the counter to zero. *)
Definition drain : M unit := fun w =>
  if previousCopyCounter w =? 0 then Ret tt w else Hang.

(** [replace].  A creator either wants the old payload or takes nothing:
    the two branches of the [if constexpr]. *)
Definition replace (creator : (T → M Z) + M Z) (verifier : T → M bool) : M bool :=
  slot ← load;
  let original := getPointer slot in
  cell ← deref original;
  verified ← verifier (instance cell);
  if negb verified then mret false
  else
    replacement ←
      match creator with
      | inl wants_old => cell ← deref original; wants_old (instance cell)
      | inr wants_nothing => wants_nothing
      end;
    if replacement =? 0 then mret false
    else
      oldValue ← exchange replacement;
      let abandoned := Z.shiftr oldValue 48 in
      update (fun w => set_previous (i32 (previousCopyCounter w + abandoned)) w);;
      drain;;
      getRidOfPointer original;;
      mret true.

(** What both creators do once the [DuplicateHolder] owns the new object:
    run the modifier on it and [take] it, the holder's destructor deleting it
    when the modifier throws. *)
Definition modify_duplicate (modifier : T → M T) (duplicate : Z) : M Z :=
  unwinding
    (cell ← deref duplicate;
     modified ← modifier (instance cell);
     cell ← deref duplicate;
     put duplicate (mkInternal (refcount cell) modified);;
     mret duplicate)
    (delete_ duplicate).

Definition replaceWithModifiedCopy (place : option Z)
    (modifier : T → M T) (verifier : T → M bool) : M bool :=
  replace (inl (fun old =>
                  duplicate ← new_Internal place (T_copy old);
                  modify_duplicate modifier duplicate))
          verifier.

Definition replaceWithNew (place : option Z)
    (modifier : T → M T) (verifier : T → M bool) (constructorArgs : Args) : M bool :=
  replace (inr (duplicate ← new_Internal place (T_ctor constructorArgs);
                modify_duplicate modifier duplicate))
          verifier.

(** ** The mutex *)

Definition unlocking {A} (o : outcome A) : outcome A :=
  match o with
  | Ret a w => Ret a (set_mutex false w)
  | Throw e w => Throw e (set_mutex false w)
  | Hang => Hang
  | Undef => Undef
  end.

(** [std::lock_guard lock(editMutex)]: the calling thread is the only one,
    so a mutex that is already held is never released. *)
Definition lock_guard {A} (body : M A) : M A := fun w =>
  if editMutex w then Hang else unlocking (body (set_mutex true w)).

(** [std::unique_lock lock(editMutex, std::try_to_lock)] followed by
    [if (!lock.owns_lock()) return false]. *)
Definition try_to_lock (body : M bool) : M bool := fun w =>
  if editMutex w then Ret false w else unlocking (body (set_mutex true w)).

(** ** The public members *)

Definition AlwaysPassingVerifier : T → M bool := fun _ => mret true.

(** The constructor, building the container in the free store [h]. *)
Definition construct (place : option Z) (args : Args) (h : gmap Z Internal)
    : outcome unit :=
  (p ← new_Internal place (T_ctor args); store p)
    (mkWorld h 0 0 false).

(** The destructor. *)
Definition destroy : M unit :=
  lastReferenced ← safeInstance;
  getRidOfPointer lastReferenced;;
  getRidOfPointer lastReferenced.

Definition get : M Z := safeInstance.

Definition emplace (place : option Z) (constructorArgs : Args) : M bool :=
  lock_guard
    (replace (inr (new_Internal place (T_ctor constructorArgs)))
             AlwaysPassingVerifier).

Definition reset (place : option Z) (modifier : T → M T) (verifier : T → M bool)
    (constructorArgs : Args) : M bool :=
  lock_guard (replaceWithNew place modifier verifier constructorArgs).

Definition tryReset (place : option Z) (modifier : T → M T) (verifier : T → M bool)
    (constructorArgs : Args) : M bool :=
  try_to_lock (replaceWithNew place modifier verifier constructorArgs).

Definition edit (place : option Z) (modifier : T → M T) (verifier : T → M bool)
    : M bool :=
  lock_guard (replaceWithModifiedCopy place modifier verifier).

Definition tryEdit (place : option Z) (modifier : T → M T) (verifier : T → M bool)
    : M bool :=
  try_to_lock (replaceWithModifiedCopy place modifier verifier).

(** ** CopyOnWriteStateReference

    A handle is its one field, the [instance] pointer. *)

(** [CopyOnWriteStateReference(const CopyOnWriteStateReference& other)] *)
Definition Reference_copy (other : Z) : M Z :=
  refcount_incr other;;
  mret other.

(** [CopyOnWriteStateReference(CopyOnWriteStateReference&& other)]: the new
    handle and what is left in [other]. *)
Definition Reference_move (other : Z) : M (Z * Z) :=
  if negb (other =? 0) then mret (other, 0) else mret (0, other).

(** [~CopyOnWriteStateReference()] *)
Definition Reference_destroy (instance_ : Z) : M unit :=
  if negb (instance_ =? 0) then getRidOfPointer instance_ else mret tt.

(** [operator=(const CopyOnWriteStateReference& other)]: the new value of
    [*this]. *)
Definition Reference_copy_assign (instance_ other : Z) : M Z :=
  (if negb (instance_ =? 0) then getRidOfPointer instance_ else mret tt);;
  if negb (other =? 0) then refcount_incr other;; mret other else mret other.

(** [operator=(CopyOnWriteStateReference&& other)]: the new values of
    [*this] and of [other]. *)
Definition Reference_move_assign (instance_ other : Z) : M (Z * Z) :=
  (if negb (instance_ =? 0) then getRidOfPointer instance_ else mret tt);;
  mret (other, 0).

(** [operator->() const] *)
Definition Reference_arrow (instance_ : Z) : M T :=
  cell ← deref instance_;
  mret (instance cell).

(** ** Callbacks that do not call back into the container *)

Definition pure {A B} (f : A → B) : A → M B := fun a => mret (f a).

Definition lift {A B} (f : A → exn + B) : A → M B := fun a =>
  match f a with
  | inl e => throw e
  | inr b => mret b
  end.

(** ** Sequences of calls made by one thread

    A client holds the container and a set of named handles.  The mutating
    calls come with the address the allocator will return to them. *)

Inductive mutation : Type :=
  | Emplace (place : option Z) (args : Args)
  | Reset (place : option Z) (modifier : T → exn + T) (verifier : T → exn + bool)
      (args : Args)
  | TryReset (place : option Z) (modifier : T → exn + T) (verifier : T → exn + bool)
      (args : Args)
  | Edit (place : option Z) (modifier : T → exn + T) (verifier : T → exn + bool)
  | TryEdit (place : option Z) (modifier : T → exn + T) (verifier : T → exn + bool).

Definition run (c : mutation) : M bool :=
  match c with
  | Emplace place args => emplace place args
  | Reset place m v args => reset place (lift m) (lift v) args
  | TryReset place m v args => tryReset place (lift m) (lift v) args
  | Edit place m v => edit place (lift m) (lift v)
  | TryEdit place m v => tryEdit place (lift m) (lift v)
  end.

Definition place_of (c : mutation) : option Z :=
  match c with
  | Emplace place _ | Reset place _ _ _ | TryReset place _ _ _
  | Edit place _ _ | TryEdit place _ _ => place
  end.

(** The allocator returns the address of storage that is not in use. *)
Definition valid_place (h : gmap Z Internal) (place : option Z) : Prop :=
  ∀ p, place = Some p → user_pointer p ∧ h !! p = None.

Inductive call : Type :=
  | Get (r : nat)                  (* [auto r = tested.get()] *)
  | Mutate (c : mutation)
  | Copy (r src : nat)             (* [Reference r = src] *)
  | Move (r src : nat)             (* [Reference r = std::move(src)] *)
  | Destroy (r : nat)              (* [r] leaves its scope *)
  | CopyAssign (dst src : nat)     (* [dst = src] *)
  | MoveAssign (dst src : nat).    (* [dst = std::move(src)] *)

Record state : Type := mkState {
  world : World;
  handles : gmap nat Z
}.

(** A handle is an object of eight bytes: a 64-bit address space has room
    for fewer than [2^61] of them. *)
Definition max_handles : Z := 2 ^ 61.
Definition room (s : state) : Prop := Z.of_nat (size (handles s)) < max_handles.

(** A call that returns or throws leads to the next state; one that hangs or
    whose behaviour is undefined leads nowhere. *)
Inductive step : state → call → state → Prop :=
  | step_get s r p w' :
      handles s !! r = None → room s →
      get (world s) = Ret p w' →
      step s (Get r) (mkState w' (<[r := p]> (handles s)))
  | step_mutate s c b w' :
      valid_place (heap (world s)) (place_of c) →
      run c (world s) = Ret b w' →
      step s (Mutate c) (mkState w' (handles s))
  | step_mutate_throw s c e w' :
      valid_place (heap (world s)) (place_of c) →
      run c (world s) = Throw e w' →
      step s (Mutate c) (mkState w' (handles s))
  | step_copy s r src p p' w' :
      handles s !! r = None → room s →
      handles s !! src = Some p →
      Reference_copy p (world s) = Ret p' w' →
      step s (Copy r src) (mkState w' (<[r := p']> (handles s)))
  | step_move s r src p p' left w' :
      handles s !! r = None → room s →
      handles s !! src = Some p →
      Reference_move p (world s) = Ret (p', left) w' →
      step s (Move r src) (mkState w' (<[r := p']> (<[src := left]> (handles s))))
  | step_destroy s r p w' :
      handles s !! r = Some p →
      Reference_destroy p (world s) = Ret tt w' →
      step s (Destroy r) (mkState w' (delete r (handles s)))
  | step_copy_assign s dst src p q p' w' :
      handles s !! dst = Some p →
      handles s !! src = Some q →
      Reference_copy_assign p q (world s) = Ret p' w' →
      step s (CopyAssign dst src) (mkState w' (<[dst := p']> (handles s)))
  | step_move_assign s dst src p q p' left w' :
      handles s !! dst = Some p →
      handles s !! src = Some q →
      Reference_move_assign p q (world s) = Ret (p', left) w' →
      step s (MoveAssign dst src)
        (mkState w' (<[src := left]> (<[dst := p']> (handles s)))).

Inductive steps : state → list call → state → Prop :=
  | steps_nil s : steps s [] s
  | steps_cons s c s' cs s'' : step s c s' → steps s' cs s'' → steps s (c :: cs) s''.

(** The states a client can bring about, starting with the constructor. *)
Definition initial (s : state) : Prop :=
  ∃ place args w,
    valid_place ∅ place ∧
    construct place args ∅ = Ret tt w ∧
    s = mkState w ∅.

Definition reachable (s : state) : Prop :=
  ∃ s0 cs, initial s0 ∧ steps s0 cs s.

(** The Snapshot the container currently publishes. *)
Definition current (w : World) : Z := getPointer (addressAndCopyCounter w).

Definition payload (w : World) : option T :=
  instance <$> heap w !! current w.

(** The number of handles bound to [p]. *)
Definition bound_to (hs : gmap nat Z) (p : Z) : Z :=
  Z.of_nat (size (filter (λ kv, kv.2 = p) hs)).

(** The references a Snapshot should be counting: the handles bound to it and
    the one of the container. *)
Definition owners (s : state) (p : Z) : Z :=
  bound_to (handles s) p + (if decide (p = current (world s)) then 1 else 0).

(** Does [c] end, empty or rebind the handle [r]? *)
Definition disturbs (r : nat) (c : call) : Prop :=
  match c with
  | Destroy r' => r' = r
  | Move _ src => src = r
  | CopyAssign dst _ => dst = r
  | MoveAssign dst src => dst = r ∨ src = r
  | Get _ | Mutate _ | Copy _ _ => False
  end.

(** ** Threads running concurrently

    Every access to an atomic object, to the mutex or to the free store is
    one step of the thread that makes it; the accesses of different threads
    interleave in any order (all atomics of the source are sequentially
    consistent).  A thread is at a point of [safeInstance], of a mutating
    call or of [getRidOfPointer], and owns the handles it has obtained. *)

Inductive pc : Type :=
  | Idle
  (* safeInstance *)
  | R_cas (value : Z)                         (* at the first compare_exchange_weak *)
  | R_incr (value : Z)                        (* at [obtained->refcount++] *)
  | R_load (value obtained : Z)               (* at the second [load] *)
  | R_dec (value obtained decrementee : Z)    (* in the second loop *)
  (* a handle's destructor, after [--refcount] gave zero *)
  | H_delete (pointer : Z)
  (* a mutating call owning the mutex *)
  | W_locked (c : mutation)                   (* at [getPointer(addressAndCopyCounter)] *)
  | W_verify (c : mutation) (original : Z)
  | W_create (c : mutation) (original : Z)    (* at [new Internal(...)] *)
  | W_modify (c : mutation) (original duplicate : Z)
  | W_unwind (duplicate : Z)                  (* [~DuplicateHolder] after a throw *)
  | W_exchange (c : mutation) (original replacement : Z)
  | W_transfer (original oldValue : Z)        (* at [previousCopyCounter += abandoned] *)
  | W_spin (original : Z)                     (* in the busy wait *)
  | W_release (original : Z)                  (* at [--refcount] of [getRidOfPointer] *)
  | W_delete (original : Z)
  | W_unlock.                                 (* the lock's destructor *)

Record thread : Type := mkThread {
  at_pc : pc;
  held : list Z
}.

Record system : Type := mkSystem {
  shared : World;
  threads : list thread;
  (* ghost: the payloads published so far, the latest first *)
  published : list T
}.

(** What the scheduler lets a thread do next. *)
Inductive action : Type :=
  | StartGet                    (* an idle thread calls [get] *)
  | StartMutation (c : mutation) (* an idle thread calls [c] *)
  | Release (k : nat)           (* an idle thread destroys its [k]-th handle *)
  | Proceed                     (* a thread inside a call takes its next step *)
  | Spurious.                   (* a [compare_exchange_weak] fails for no reason *)

Inductive moved : Type :=
  | Moved (w : World) (pub : list T) (t : thread)
  | Waits      (* the action is not possible now *)
  | Faults.    (* a dead object is accessed, or freed twice *)

Definition is_try (c : mutation) : bool :=
  match c with
  | TryReset _ _ _ _ | TryEdit _ _ _ => true
  | _ => false
  end.

Definition verdict (c : mutation) (old : T) : exn + bool :=
  match c with
  | Emplace _ _ => inr true
  | Reset _ _ v _ | TryReset _ _ v _ | Edit _ _ v | TryEdit _ _ v => v old
  end.

(** The arguments of a creator that builds the payload anew; the other
    creators copy the old payload. *)
Definition builds_from (c : mutation) : option Args :=
  match c with
  | Emplace _ args | Reset _ _ _ args | TryReset _ _ _ args => Some args
  | Edit _ _ _ | TryEdit _ _ _ => None
  end.

Definition modifies (c : mutation) : bool :=
  match c with
  | Emplace _ _ => false
  | _ => true
  end.

Definition modified (c : mutation) (draft : T) : exn + T :=
  match c with
  | Emplace _ _ => inr draft
  | Reset _ m _ _ | TryReset _ m _ _ | Edit _ m _ | TryEdit _ m _ => m draft
  end.

Definition placeable (h : gmap Z Internal) (place : option Z) : bool :=
  match place with
  | None => true
  | Some p =>
      (0 <? p) && (p <? 2 ^ 47) &&
      match h !! p with None => true | Some _ => false end
  end.

Definition live (w : World) (p : Z) : option Internal :=
  if decide (p = 0) then None else heap w !! p.

Definition with_cell (w : World) (p : Z) (k : Internal → moved) : moved :=
  match live w p with
  | Some cell => k cell
  | None => Faults
  end.

Definition put_cell (p : Z) (cell : Internal) (w : World) : World :=
  set_heap (<[p := cell]> (heap w)) w.

Definition free_cell (p : Z) (w : World) : World :=
  set_heap (delete p (heap w)) w.

Definition thread_step (a : action) (w : World) (pub : list T) (t : thread) : moved :=
  let goto pc' := Moved w pub (mkThread pc' (held t)) in
  match at_pc t, a with
  | Idle, StartGet => goto (R_cas (addressAndCopyCounter w))
  | Idle, StartMutation c =>
      if editMutex w then (if is_try c then Moved w pub t else Waits)
      else Moved (set_mutex true w) pub (mkThread (W_locked c) (held t))
  | Idle, Release k =>
      match held t !! k with
      | None => Waits
      | Some p =>
          if p =? 0 then Moved w pub (mkThread Idle (delete k (held t)))
          else with_cell w p (fun cell =>
            let left := u64 (refcount cell - 1) in
            Moved (put_cell p (mkInternal left (instance cell)) w) pub
              (mkThread (if left =? 0 then H_delete p else Idle) (delete k (held t))))
      end
  | R_cas value, Proceed =>
      if addressAndCopyCounter w =? value
      then Moved (set_slot (u64 (value + increment)) w) pub
             (mkThread (R_incr value) (held t))
      else goto (R_cas (addressAndCopyCounter w))
  | R_cas value, Spurious =>
      if addressAndCopyCounter w =? value then Moved w pub t else Waits
  | R_incr value, Proceed =>
      let obtained := getPointer value in
      with_cell w obtained (fun cell =>
        Moved (put_cell obtained (mkInternal (u64 (refcount cell + 1)) (instance cell)) w)
          pub (mkThread (R_load value obtained) (held t)))
  | R_load value obtained, Proceed =>
      goto (R_dec value obtained (addressAndCopyCounter w))
  | R_dec value obtained decrementee, Proceed =>
      if negb (Z.land decrementee suffix =? Z.land value suffix)
      then Moved (set_previous (i32 (previousCopyCounter w - 1)) w) pub
             (mkThread Idle (obtained :: held t))
      else if addressAndCopyCounter w =? decrementee
      then Moved (set_slot (u64 (decrementee - increment)) w) pub
             (mkThread Idle (obtained :: held t))
      else goto (R_dec value obtained (addressAndCopyCounter w))
  | R_dec value obtained decrementee, Spurious =>
      if (Z.land decrementee suffix =? Z.land value suffix)
         && (addressAndCopyCounter w =? decrementee)
      then Moved w pub t else Waits
  | H_delete p, Proceed =>
      with_cell w p (fun _ => Moved (free_cell p w) pub (mkThread Idle (held t)))
  | W_locked c, Proceed =>
      goto (W_verify c (getPointer (addressAndCopyCounter w)))
  | W_verify c original, Proceed =>
      with_cell w original (fun cell =>
        match verdict c (instance cell) with
        | inr true => goto (W_create c original)
        | _ => goto W_unlock
        end)
  | W_create c original, Proceed =>
      let create (built : exn + T) :=
        match place_of c with
        | None => goto W_unlock
        | Some p =>
            if placeable (heap w) (Some p) then
              match built with
              | inl _ => goto W_unlock
              | inr fresh =>
                  Moved (put_cell p (mkInternal 1 fresh) w) pub
                    (mkThread (if modifies c then W_modify c original p
                               else W_exchange c original p) (held t))
              end
            else Waits
        end in
      match builds_from c with
      | Some args => create (T_ctor args)
      | None => with_cell w original (fun cell => create (T_copy (instance cell)))
      end
  | W_modify c original duplicate, Proceed =>
      with_cell w duplicate (fun cell =>
        match modified c (instance cell) with
        | inl _ => goto (W_unwind duplicate)
        | inr changed =>
            Moved (put_cell duplicate (mkInternal (refcount cell) changed) w) pub
              (mkThread (W_exchange c original duplicate) (held t))
        end)
  | W_unwind duplicate, Proceed =>
      with_cell w duplicate (fun _ =>
        Moved (free_cell duplicate w) pub (mkThread W_unlock (held t)))
  | W_exchange c original replacement, Proceed =>
      if replacement =? 0 then goto W_unlock
      else Moved (set_slot replacement w)
             (match heap w !! replacement with
              | Some cell => instance cell :: pub
              | None => pub
              end)
             (mkThread (W_transfer original (addressAndCopyCounter w)) (held t))
  | W_transfer original oldValue, Proceed =>
      let abandoned := Z.shiftr oldValue 48 in
      Moved (set_previous (i32 (previousCopyCounter w + abandoned)) w) pub
        (mkThread (W_spin original) (held t))
  | W_spin original, Proceed =>
      if previousCopyCounter w =? 0 then goto (W_release original) else Moved w pub t
  | W_release original, Proceed =>
      with_cell w original (fun cell =>
        let left := u64 (refcount cell - 1) in
        Moved (put_cell original (mkInternal left (instance cell)) w) pub
          (mkThread (if left =? 0 then W_delete original else W_unlock) (held t)))
  | W_delete original, Proceed =>
      with_cell w original (fun _ =>
        Moved (free_cell original w) pub (mkThread W_unlock (held t)))
  | W_unlock, Proceed => Moved (set_mutex false w) pub (mkThread Idle (held t))
  | _, _ => Waits
  end.

Definition total {A} (f : A → Z) (l : list A) : Z :=
  foldr (fun x acc => f x + acc) 0 l.

(** The handles a thread owns or is about to own. *)
Definition holding (t : thread) : Z :=
  Z.of_nat (length (held t)) +
  match at_pc t with
  | R_cas _ | R_incr _ | R_load _ _ | R_dec _ _ _ => 1
  | _ => 0
  end.

Inductive outcome_of_step : Type :=
  | Next (s : system)
  | Stays
  | Crash.

(** Thread [i] does [a].  A new handle needs room, as in [room]. *)
Definition system_step (i : nat) (a : action) (s : system) : outcome_of_step :=
  match threads s !! i with
  | None => Stays
  | Some t =>
      if match a with
         | StartGet => negb (total holding (threads s) <? max_handles)
         | _ => false
         end
      then Stays
      else
        match thread_step a (shared s) (published s) t with
        | Moved w pub t' => Next (mkSystem w (<[i := t']> (threads s)) pub)
        | Waits => Stays
        | Faults => Crash
        end
  end.

Inductive runs : system → system → Prop :=
  | runs_refl s : runs s s
  | runs_step s i a s' s'' :
      system_step i a s = Next s' → runs s' s'' → runs s s''.

(** [n] idle threads around a freshly constructed container. *)
Definition boot (n : nat) (s : system) : Prop :=
  ∃ place args w cell,
    valid_place ∅ place ∧
    construct place args ∅ = Ret tt w ∧
    heap w !! current w = Some cell ∧
    s = mkSystem w (replicate n (mkThread Idle [])) [instance cell].

(** ** Closed forms used in the statements *)

(** The free store after one reference to [p] was given up. *)
Definition released (p : Z) (cell : Internal) (h : gmap Z Internal) : gmap Z Internal :=
  if u64 (refcount cell - 1) =? 0 then delete p h
  else <[p := mkInternal (u64 (refcount cell - 1)) (instance cell)]> h.

(** The last statements of [replace], from the exchange on. *)
Definition publish (original replacement : Z) : M bool :=
  oldValue ← exchange replacement;
  let abandoned := Z.shiftr oldValue 48 in
  update (fun w => set_previous (i32 (previousCopyCounter w + abandoned)) w);;
  drain;;
  getRidOfPointer original;;
  mret true.

(** The world after the payload [t], built at [d], replaced the current one. *)
Definition after_publish (d : Z) (t : T) (w : World) : World :=
  let original := addressAndCopyCounter w in
  mkWorld
    (match heap w !! original with
     | Some cell => released original cell (<[d := mkInternal 1 t]> (heap w))
     | None => heap w
     end)
    d (previousCopyCounter w) (editMutex w).

(** No reader is inside [safeInstance] and no writer inside [replace]: the
    packed word is the bare address of a live Snapshot and the drain counter
    is zero. *)
Definition settled (w : World) : Prop :=
  user_pointer (addressAndCopyCounter w) ∧
  is_Some (heap w !! addressAndCopyCounter w) ∧
  previousCopyCounter w = 0.

(** What a mutating call does in a settled world whose mutex is free. *)
Definition effect (c : mutation) (w : World) : outcome bool :=
  match heap w !! addressAndCopyCounter w with
  | None => Undef
  | Some cell =>
      match verdict c (instance cell) with
      | inl e => Throw e w
      | inr false => Ret false w
      | inr true =>
          match place_of c with
          | None => Throw bad_alloc w
          | Some d =>
              match match builds_from c with
                    | Some args => T_ctor args
                    | None => T_copy (instance cell)
                    end with
              | inl e => Throw e w
              | inr t =>
                  match modified c t with
                  | inl e => Throw e w
                  | inr t' => Ret true (after_publish d t' w)
                  end
              end
          end
      end
  end.

(** A callback that leaves the mutex alone, as every callback must: the
    mutex is a private member. *)
Definition keeps_mutex {A B} (f : A → M B) : Prop :=
  ∀ a w,
    match f a w with
    | Ret _ w' | Throw _ w' => editMutex w' = editMutex w
    | Hang | Undef => True
    end.

(** The invariant of a client's states: between two calls the world is
    settled and the mutex free, every live Snapshot counts its owners, and
    the Snapshots without owner are the deallocated ones. *)
Definition consistent (s : state) : Prop :=
  settled (world s) ∧
  editMutex (world s) = false ∧
  Z.of_nat (size (handles s)) ≤ max_handles ∧
  (∀ p cell, heap (world s) !! p = Some cell →
     user_pointer p ∧ refcount cell = owners s p) ∧
  (∀ p, p ≠ 0 → (heap (world s) !! p = None ↔ owners s p = 0)).

(** The state after the steps of a schedule, if all of them can be taken. *)
Fixpoint execute (schedule : list (nat * action)) (s : system) : option system :=
  match schedule with
  | [] => Some s
  | (i, a) :: rest =>
      match system_step i a s with
      | Next s' => execute rest s'
      | _ => None
      end
  end.

(** ** The invariant of the concurrent runs

    The quantities below are sums over the threads: how many readers are
    counted in the packed word under the address [a], how many references
    the threads own to the Snapshot [p], and so on. *)

Definition address (v : Z) : Z := Z.land v suffix.

(** The packed word a reader has counted itself in and not yet out of. *)
Definition flying (t : thread) : option Z :=
  match at_pc t with
  | R_incr v | R_load v _ | R_dec v _ _ => Some v
  | _ => None
  end.

Definition in_flight (t : thread) : Z :=
  match flying t with Some _ => 1 | None => 0 end.

Definition fly (a : Z) (t : thread) : Z :=
  match flying t with
  | Some v => if decide (address v = a) then 1 else 0
  | None => 0
  end.

Definition same (p q : Z) : Z := if decide (p = q) then 1 else 0.

(** The references thread [t] owns to [p]: its handles, the one a reader
    has just taken, the one a writer holds to its new object before the
    exchange and to the old one after it. *)
Definition refs (p : Z) (t : thread) : Z :=
  total (same p) (held t) +
  match at_pc t with
  | R_load _ o | R_dec _ o _ => same p o
  | W_modify _ _ d | W_exchange _ _ d | W_unwind d => same p d
  | W_transfer o _ | W_spin o | W_release o => same p o
  | _ => 0
  end.

Definition dying (p : Z) (t : thread) : Z :=
  match at_pc t with
  | H_delete q | W_delete q => same p q
  | _ => 0
  end.

Definition critical (t : thread) : Z :=
  match at_pc t with
  | Idle | R_cas _ | R_incr _ | R_load _ _ | R_dec _ _ _ | H_delete _ => 0
  | _ => 1
  end.

(** The readers a writer has still to add to the drain counter. *)
Definition debt (t : thread) : Z :=
  match at_pc t with
  | W_transfer _ oldValue => Z.shiftr oldValue 48
  | _ => 0
  end.

(** [a] is the Snapshot a writer has replaced and is waiting to release. *)
Definition superseded (a : Z) (t : thread) : Z :=
  match at_pc t with
  | W_transfer o _ | W_spin o => same a o
  | _ => 0
  end.

(** [p] is a new object that is not published yet. *)
Definition drafting (p : Z) (t : thread) : Z :=
  match at_pc t with
  | W_modify _ _ d | W_exchange _ _ d | W_unwind d => same p d
  | _ => 0
  end.

(** What holds of each thread, given the current address and the others. *)
Definition thread_ok (cur : Z) (ts : list thread) (t : thread) : Prop :=
  (∀ v, flying t = Some v →
     address v = cur ∨ total (superseded (address v)) ts = 1) ∧
  match at_pc t with
  | R_load v o => o = address v
  | R_dec v o d => o = address v ∧ (address d ≠ address v → address v ≠ cur)
  | W_verify _ o | W_create _ o => o = cur
  | W_modify _ o d | W_exchange _ o d =>
      o = cur ∧ d ≠ cur ∧ total (refs d) ts = 1
  | W_unwind d => d ≠ cur ∧ total (refs d) ts = 1
  | W_transfer _ oldValue => 0 ≤ Z.shiftr oldValue 48 < 2 ^ 16
  | _ => True
  end.

Record invariant (s : system) : Prop := {
  inv_threads : Z.of_nat (length (threads s)) < 2 ^ 16;
  inv_holding : total holding (threads s) ≤ max_handles;
  inv_heap : ∀ p cell, heap (shared s) !! p = Some cell → user_pointer p;
  inv_current : user_pointer (address (addressAndCopyCounter (shared s)));
  inv_slot :
    addressAndCopyCounter (shared s) =
    address (addressAndCopyCounter (shared s)) +
    total (fly (address (addressAndCopyCounter (shared s)))) (threads s) * 2 ^ 48;
  inv_counts : ∀ p,
    match heap (shared s) !! p with
    | Some cell =>
        refcount cell =
          same p (address (addressAndCopyCounter (shared s))) +
          total (refs p) (threads s) ∧
        total (dying p) (threads s) = (if refcount cell =? 0 then 1 else 0)
    | None =>
        p ≠ address (addressAndCopyCounter (shared s)) ∧
        total (refs p) (threads s) = 0 ∧
        total (dying p) (threads s) = 0
    end;
  inv_mutex :
    total critical (threads s) = (if editMutex (shared s) then 1 else 0);
  inv_drain :
    previousCopyCounter (shared s) + total debt (threads s) =
    total in_flight (threads s) -
    total (fly (address (addressAndCopyCounter (shared s)))) (threads s);
  inv_each : ∀ i t,
    threads s !! i = Some t →
    thread_ok (address (addressAndCopyCounter (shared s))) (threads s) t;
  inv_published : ∀ p cell,
    heap (shared s) !! p = Some cell →
    total (drafting p) (threads s) = 0 →
    instance cell ∈ published s
}.

(** A state is safe when no step of any thread touches a dead object, and
    every handle is bound to a live Snapshot whose payload was published as a
    whole. *)
Definition safe (s : system) : Prop :=
  (∀ i a, system_step i a s ≠ Crash) ∧
  (∀ i t h, threads s !! i = Some t → h ∈ held t →
     ∃ cell, heap (shared s) !! h = Some cell ∧ instance cell ∈ published s).

(** No step of any thread changes the payload a handle reads. *)
Definition frozen (s : system) : Prop :=
  ∀ i a s' j t h cell,
    system_step i a s = Next s' →
    threads s !! j = Some t → h ∈ held t →
    heap (shared s) !! h = Some cell →
    ∃ cell', heap (shared s') !! h = Some cell' ∧ instance cell' = instance cell.

(** ** The other members and what the statements below need *)

(** [CopyOnWrite::operator->() const]. *)
Definition operator_arrow : M Z := safeInstance.

(** An expression [tested->field]: the temporary handle [operator->]
    returns is read through and destroyed at the end of the expression. *)
Definition member_access {A} (field : T → A) : M A :=
  temporary ← operator_arrow;
  t ← Reference_arrow temporary;
  Reference_destroy temporary;;
  mret (field t).

(** The creator each mutating call hands to [replace]. *)
Definition creator_of (c : mutation) : (T → M Z) + M Z :=
  match c with
  | Emplace place args => inr (new_Internal place (T_ctor args))
  | Reset place m _ args | TryReset place m _ args =>
      inr (duplicate ← new_Internal place (T_ctor args);
           modify_duplicate (lift m) duplicate)
  | Edit place m _ | TryEdit place m _ =>
      inl (fun old => duplicate ← new_Internal place (T_copy old);
                      modify_duplicate (lift m) duplicate)
  end.

(** A call a client can write down in the state [s]: new handles get fresh
    names, the others exist, the allocator's answer is storage not in use. *)
Definition applicable (s : state) (c : call) : Prop :=
  match c with
  | Get r => handles s !! r = None ∧ room s
  | Mutate m => valid_place (heap (world s)) (place_of m)
  | Copy r src | Move r src =>
      handles s !! r = None ∧ room s ∧ is_Some (handles s !! src)
  | Destroy r => is_Some (handles s !! r)
  | CopyAssign dst src | MoveAssign dst src =>
      is_Some (handles s !! dst) ∧ is_Some (handles s !! src)
  end.

(** The two calls that go wrong: copy construction from an empty handle, and
    copy assignment of a handle to itself when it is the last owner of its
    Snapshot. *)
Definition hazard (s : state) (c : call) : Prop :=
  match c with
  | Copy _ src => handles s !! src = Some 0
  | CopyAssign dst src =>
      dst = src ∧ ∃ p, handles s !! dst = Some p ∧ p ≠ 0 ∧ owners s p = 1
  | _ => False
  end.

(** The member function the call runs has undefined behaviour. *)
Definition undefined_call (s : state) (c : call) : Prop :=
  match c with
  | Copy _ src =>
      ∃ p, handles s !! src = Some p ∧ Reference_copy p (world s) = Undef
  | CopyAssign dst src =>
      ∃ p q, handles s !! dst = Some p ∧ handles s !! src = Some q ∧
             Reference_copy_assign p q (world s) = Undef
  | _ => False
  end.

(** ** Runs whose mutating calls keep a property of the payload *)

(** What a creator builds before its modifier runs: the payload of the
    arguments, or a copy of the old payload. *)
Definition built (c : mutation) (old : T) : exn + T :=
  match builds_from c with
  | Some args => T_ctor args
  | None => T_copy old
  end.

(** The mutating call [c] keeps [P]: when its predicate accepts an old
    payload with [P], what it publishes has [P] again. *)
Definition keeps (P : T → Prop) (c : mutation) : Prop :=
  ∀ old fresh changed,
    P old → verdict c old = inr true →
    built c old = inr fresh → modified c fresh = inr changed → P changed.

Definition permitted (P : T → Prop) (a : action) : Prop :=
  match a with
  | StartMutation c => keeps P c
  | _ => True
  end.

(** The runs in which every mutating call that is started keeps [P]. *)
Inductive runs_keeping (P : T → Prop) : system → system → Prop :=
  | keeping_refl s : runs_keeping P s s
  | keeping_step s i a s' s'' :
      permitted P a → system_step i a s = Next s' →
      runs_keeping P s' s'' → runs_keeping P s s''.

(** What is known of a writer's objects on the way to the exchange. *)
Definition writer_ok (P : T → Prop) (w : World) (t : thread) : Prop :=
  match at_pc t with
  | W_locked c | W_verify c _ => keeps P c
  | W_create c o =>
      keeps P c ∧
      ∃ cell, heap w !! o = Some cell ∧ P (instance cell) ∧
              verdict c (instance cell) = inr true
  | W_modify c _ d =>
      keeps P c ∧
      ∃ old cell, P old ∧ verdict c old = inr true ∧
                  heap w !! d = Some cell ∧ built c old = inr (instance cell)
  | W_exchange _ _ d => ∃ cell, heap w !! d = Some cell ∧ P (instance cell)
  | _ => True
  end.

Definition tracked (P : T → Prop) (s : system) : Prop :=
  (∀ t, t ∈ published s → P t) ∧
  ∀ i t, threads s !! i = Some t → writer_ok P (shared s) t.

(** ** The Snapshot a writer retires *)

(** The Snapshot a writer has replaced and not yet let go of. *)
Definition retiring (t : thread) : option Z :=
  match at_pc t with
  | W_transfer o _ | W_spin o | W_release o | W_delete o => Some o
  | _ => None
  end.

Definition retired (s : system) : Prop :=
  ∀ i t o, threads s !! i = Some t → retiring t = Some o → o ≠ current (shared s).

(** A thread inside [safeInstance]. *)
Definition inside_get (t : thread) : Prop :=
  match at_pc t with
  | R_cas _ | R_incr _ | R_load _ _ | R_dec _ _ _ => True
  | _ => False
  end.

End Embedding.

Arguments Ret {T A} a w.
Arguments Throw {T A} e w.
Arguments Hang {T A}.
Arguments Undef {T A}.

(** ** The containers of the test program *)

(** [CopyOnWrite<TestClass> tested(x)], its Snapshot allocated at [0x1000]. *)
Definition tested (x : Z) : @World TestClass :=
  mkWorld {[ 0x1000 := mkInternal 1 (mkTestClass x 0) ]} 0x1000 0 false.

Definition tested_state (x : Z) : @state TestClass := mkState (tested x) ∅.

(** *** More readers than the packed word can count

    One writer, thread 0, and [2^16] readers ([readers] and one more)
    around [tested(0)].  In [crowded k m] the first [k] readers have counted
    themselves in, each remembering the word it saw, and [m] readers are
    idle. *)
Definition idle : @thread TestClass Z := mkThread Idle [].

Definition counted_in (j : nat) : @thread TestClass Z :=
  mkThread (R_incr (0x1000 + Z.of_nat j * 2 ^ 48)) [].

Definition crowd (k m : nat) : list (@thread TestClass Z) :=
  idle :: map counted_in (seq 0 k) ++ replicate m idle.

Definition crowded (k m : nat) : @system TestClass Z :=
  mkSystem
    (mkWorld {[ 0x1000 := mkInternal 1 (mkTestClass 0 0) ]}
       (u64 (0x1000 + Z.of_nat k * 2 ^ 48)) 0 false)
    (crowd k m)
    [mkTestClass 0 0].

Definition readers : nat := Z.to_nat 65535.

(** The writer emplaces [1] at [0x2000], which frees [0x1000], then starts
    [reset(b = 4, always, 7)], whose new object is allocated at [0x1000]
    again; then the first reader goes on. *)
Definition overtaking : list (nat * @action TestClass Z) :=
  [ (0%nat, StartMutation (Emplace (Some 0x2000) 1));
    (0%nat, Proceed); (0%nat, Proceed); (0%nat, Proceed); (0%nat, Proceed);
    (0%nat, Proceed); (0%nat, Proceed); (0%nat, Proceed); (0%nat, Proceed);
    (0%nat, Proceed);
    (0%nat, StartMutation (Reset (Some 0x1000) (fun t => inr (mkTestClass (a t) 4))
                             (fun _ => inr true) 7));
    (0%nat, Proceed); (0%nat, Proceed); (0%nat, Proceed);
    (1%nat, Proceed); (1%nat, Proceed); (1%nat, Proceed) ].

(** Where that leads: the first reader holds a handle to the writer's
    unfinished object. *)
Definition overtaken (rest : list (@thread TestClass Z)) : @system TestClass Z :=
  mkSystem
    (mkWorld {[ 0x1000 := mkInternal 2 (mkTestClass 7 0);
                0x2000 := mkInternal 1 (mkTestClass 1 0) ]}
       0x2000 (-1) true)
    (mkThread (W_modify (Reset (Some 0x1000) (fun t => inr (mkTestClass (a t) 4))
                           (fun _ => inr true) 7) 0x2000 0x1000) []
     :: mkThread Idle [0x1000] :: rest)
    [mkTestClass 1 0; mkTestClass 0 0].

(** *** A reader overtaken by a writer

    Thread 1 starts [get] and counts itself in; thread 0 runs
    [edit(b = 4)] up to its busy wait; thread 1 finishes [get]; thread 0
    finishes [edit]. *)
Definition racing : list (nat * @action TestClass Z) :=
  [ (1%nat, StartGet); (1%nat, Proceed);
    (0%nat, StartMutation (Edit (Some 0x2000) (fun t => inr (mkTestClass (a t) 4))
                             (fun _ => inr true)));
    (0%nat, Proceed); (0%nat, Proceed); (0%nat, Proceed); (0%nat, Proceed);
    (0%nat, Proceed); (0%nat, Proceed); (0%nat, Proceed);
    (1%nat, Proceed); (1%nat, Proceed); (1%nat, Proceed);
    (0%nat, Proceed); (0%nat, Proceed); (0%nat, Proceed) ].

Definition raced : @system TestClass Z :=
  mkSystem
    (mkWorld {[ 0x1000 := mkInternal 1 (mkTestClass 0 0);
                0x2000 := mkInternal 1 (mkTestClass 0 4) ]}
       0x2000 0 false)
    [idle; mkThread Idle [0x1000]]
    [mkTestClass 0 4; mkTestClass 0 0].

(** The modifiers [edited.a = x] and [edited.b = x]. *)
Definition set_a (x : Z) (t : TestClass) : TestClass := mkTestClass x (b t).
Definition set_b (x : Z) (t : TestClass) : TestClass := mkTestClass (a t) x.


(** *** Two Snapshots and their handles

    [tested(4)], [reference = tested.get()] and [tryReset(b = 4, always, 3)]
    as in the test program: the handle is the last owner of the first
    Snapshot.  In [both_bound] a second handle is bound to the new one. *)
Definition two_versions : @state TestClass :=
  mkState
    (mkWorld {[ 0x1000 := mkInternal 1 (mkTestClass 4 0);
                0x2000 := mkInternal 1 (mkTestClass 3 4) ]}
       0x2000 0 false)
    {[ 0%nat := 0x1000 ]}.

Definition both_bound : @state TestClass :=
  mkState
    (mkWorld {[ 0x1000 := mkInternal 1 (mkTestClass 4 0);
                0x2000 := mkInternal 2 (mkTestClass 3 4) ]}
       0x2000 0 false)
    {[ 0%nat := 0x1000; 1%nat := 0x2000 ]}.

(** *** The racing schedule, stopped before the writer lets go

    After fourteen steps of [racing] the writer is past its busy wait and
    the reader holds its handle. *)
Definition draining : @system TestClass Z :=
  mkSystem
    (mkWorld {[ 0x1000 := mkInternal 2 (mkTestClass 0 0);
                0x2000 := mkInternal 1 (mkTestClass 0 4) ]}
       0x2000 0 true)
    [mkThread (W_release 0x1000) []; mkThread Idle [0x1000]]
    [mkTestClass 0 4; mkTestClass 0 0].

(** The property the stress tests of the test program check of [a]. *)
Definition in_range (t : TestClass) : Prop := 0 ≤ a t ≤ 10000.

(** *** The counting loop of the first stress test *)

(** [edited.a++] on an [int]. *)
Definition increment_a (edited : TestClass) : TestClass :=
  mkTestClass (i32 (a edited + 1)) (b edited).

(** The loop of the first stress test,
    [while (true) if (!tested.edit(a++, before.a < maxValue)) break;],
    the allocator being a function of the free store.  [None]: the fuel ran
    out. *)
Fixpoint count_up (allocator : gmap Z (@Internal TestClass) → option Z)
    (maxValue : Z) (fuel : nat) (w : @World TestClass) : option (outcome unit) :=
  match fuel with
  | O => None
  | S fuel =>
      match edit (allocator (heap w)) (pure increment_a)
              (pure (fun before => a before <? maxValue)) w with
      | Ret true w' => count_up allocator maxValue fuel w'
      | Ret false w' => Some (Ret tt w')
      | Throw e w' => Some (Throw e w')
      | Hang => Some Hang
      | Undef => Some Undef
      end
  end.

(** An allocator that always has fresh storage in the lower half. *)
Definition generous (allocator : gmap Z (@Internal TestClass) → option Z) : Prop :=
  ∀ h, size h = 1%nat → ∃ p, allocator h = Some p ∧ user_pointer p ∧ h !! p = None.

(** Such an allocator: it hands out [0x1000] or else [0x2000]. *)
Definition two_places (h : gmap Z (@Internal TestClass)) : option Z :=
  match h !! 0x1000 with
  | None => Some 0x1000
  | Some _ => Some 0x2000
  end.

(** * Properties *)

Section Properties.

Context {T Args : Type} `{!Payload T Args}.

Local Abbreviation Internal := (@Internal T).
Local Abbreviation World := (@World T).
Local Abbreviation M := (@M T).
Local Abbreviation mutation := (@mutation T Args).
Local Abbreviation call := (@call T Args).
Local Abbreviation state := (@state T).
Local Abbreviation pc := (@pc T Args).
Local Abbreviation thread := (@thread T Args).
Local Abbreviation system := (@system T Args).


(** ** The packed word *)

Lemma land_suffix (v : Z) : Z.land v suffix = v mod 2 ^ 48.
Proof. change suffix with (Z.ones 48). by rewrite Z.land_ones. Qed.

Lemma land_bit47 (v : Z) :
  Z.land v 0x0000800000000000 = 0 ↔ Z.testbit v 47 = false.
Proof.
  change 0x0000800000000000 with (2 ^ 47). split.
  - intros H. destruct (Z.testbit v 47) eqn:E; [|done].
    assert (Z.testbit (Z.land v (2 ^ 47)) 47 = true) as Hb.
    { rewrite Z.land_spec, E, Z.pow2_bits_true; [done | lia]. }
    rewrite H in Hb. by rewrite Z.bits_0 in Hb.
  - intros H. apply Z.bits_inj'. intros n Hn.
    rewrite Z.land_spec, Z.bits_0.
    destruct (decide (n = 47)) as [->|Hne].
    + by rewrite H.
    + rewrite (Z.pow2_bits_false 47 n) by lia. apply andb_false_r.
Qed.

(** A packed word: a user-space address under a count of readers. *)
Lemma testbit47_packed (a k : Z) :
  0 ≤ a < 2 ^ 47 → Z.testbit (a + k * 2 ^ 48) 47 = false.
Proof.
  intros Ha.
  rewrite <- (Z.mod_pow2_bits_low (a + k * 2 ^ 48) 48 47) by lia.
  rewrite Z.mod_add by lia. rewrite Z.mod_small by lia.
  rewrite <- (Z.mod_small a (2 ^ 47)) by lia.
  apply Z.mod_pow2_bits_high. lia.
Qed.

Lemma getPointer_packed (a k : Z) :
  0 ≤ a < 2 ^ 47 → getPointer (a + k * 2 ^ 48) = a.
Proof.
  intros Ha. unfold getPointer.
  pose proof (testbit47_packed a k Ha) as Hb. apply land_bit47 in Hb.
  rewrite Hb. simpl. rewrite land_suffix, Z.mod_add by lia.
  apply Z.mod_small. lia.
Qed.

Lemma getPointer_user (p : Z) : user_pointer p → getPointer p = p.
Proof.
  intros Hp. rewrite <- (getPointer_packed p 0) at 2 by (unfold user_pointer in Hp; lia).
  f_equal. lia.
Qed.

Lemma shiftr_packed (a k : Z) :
  0 ≤ a < 2 ^ 48 → Z.shiftr (a + k * 2 ^ 48) 48 = k.
Proof.
  intros Ha. rewrite Z.shiftr_div_pow2 by lia.
  rewrite Z.div_add by lia. rewrite Z.div_small by lia. lia.
Qed.

(** ** One thread alone: what each call computes *)

Lemma set_mutex_restore (w : World) :
  editMutex w = false → set_mutex false w = w.
Proof. destruct w; simpl; by intros ->. Qed.

Lemma deref_live (p : Z) (w : World) (cell : Internal) :
  p ≠ 0 → heap w !! p = Some cell → deref p w = Ret cell w.
Proof. intros Hp Hc. unfold deref. rewrite decide_False by done. by rewrite Hc. Qed.

Lemma getRidOfPointer_live (p : Z) (w : World) (cell : Internal) :
  p ≠ 0 → heap w !! p = Some cell →
  getRidOfPointer p w = Ret tt (set_heap (released p cell (heap w)) w).
Proof.
  intros Hp Hc. unfold getRidOfPointer, refcount_decr, released.
  unfold mbind, M_bind, bind. rewrite (deref_live p w cell) by done.
  simpl. destruct (u64 (refcount cell - 1) =? 0) eqn:E.
  - unfold delete_, mbind, M_bind, bind, deref. rewrite decide_False by done.
    simpl. rewrite lookup_insert_eq. unfold update, set_heap; simpl.
    by rewrite delete_insert_eq.
  - done.
Qed.

Lemma new_Internal_built (d : Z) (t : T) (w : World) :
  new_Internal (Some d) (inr t) w = Ret d (put_cell d (mkInternal 1 t) w).
Proof. done. Qed.

Lemma put_cell_twice (d : Z) (c1 c2 : Internal) (w : World) :
  put_cell d c2 (put_cell d c1 w) = put_cell d c2 w.
Proof. unfold put_cell, set_heap; simpl. by rewrite insert_insert_eq. Qed.

Lemma free_put_cell (d : Z) (c : Internal) (w : World) :
  heap w !! d = None → free_cell d (put_cell d c w) = w.
Proof.
  intros Hd. unfold free_cell, put_cell, set_heap; simpl.
  rewrite delete_insert_eq, delete_id by done. by destruct w.
Qed.

Lemma modify_duplicate_lift (m : T → exn + T) (d : Z) (t : T) (w : World) :
  d ≠ 0 → heap w !! d = None →
  modify_duplicate (lift m) d (put_cell d (mkInternal 1 t) w) =
  match m t with
  | inl e => Throw e w
  | inr t' => Ret d (put_cell d (mkInternal 1 t') w)
  end.
Proof.
  intros Hd Hfree. unfold modify_duplicate, unwinding, mbind, M_bind, bind.
  rewrite (deref_live d _ (mkInternal 1 t)); [|done|by simpl; rewrite lookup_insert_eq].
  unfold lift; simpl. destruct (m t) as [e|t']; simpl.
  - unfold delete_, mbind, M_bind, bind.
    rewrite (deref_live d _ (mkInternal 1 t)); [|done|by simpl; rewrite lookup_insert_eq].
    unfold update. f_equal. by apply free_put_cell.
  - rewrite (deref_live d _ (mkInternal 1 t)); [|done|by simpl; rewrite lookup_insert_eq].
    simpl. unfold put, update. f_equal. apply put_cell_twice.
Qed.

(** [replace] once the verifier passed and the creator left its object. *)
Lemma replace_settled (creator : (T → M Z) + M Z) (vf : T → exn + bool)
    (w : World) (cell : Internal) :
  settled w →
  heap w !! addressAndCopyCounter w = Some cell →
  replace creator (lift vf) w =
  match vf (instance cell) with
  | inl e => Throw e w
  | inr false => Ret false w
  | inr true =>
      match match creator with
            | inl wants_old => wants_old (instance cell) w
            | inr wants_nothing => wants_nothing w
            end with
      | Ret d w1 =>
          if d =? 0 then Ret false w1
          else publish (addressAndCopyCounter w) d w1
      | Throw e w1 => Throw e w1
      | Hang => Hang
      | Undef => Undef
      end
  end.
Proof.
  intros (Hu & _ & _) Hc. pose proof (getPointer_user _ Hu) as Hg.
  assert (addressAndCopyCounter w ≠ 0) as Hnz by (unfold user_pointer in Hu; lia).
  unfold replace, mbind, M_bind, bind, load. rewrite Hg.
  rewrite (deref_live _ w cell) by done.
  unfold lift at 1. destruct (vf (instance cell)) as [e|[|]]; simpl; try done.
  destruct creator as [f|m].
  - rewrite (deref_live _ w cell) by done.
    destruct (f (instance cell) w) as [d w1| | |]; try done. by destruct (d =? 0).
  - destruct (m w) as [d w1| | |]; try done. by destruct (d =? 0).
Qed.

Lemma publish_settled (d : Z) (t : T) (w : World) (cell : Internal) :
  settled w →
  heap w !! addressAndCopyCounter w = Some cell →
  user_pointer d → heap w !! d = None →
  publish (addressAndCopyCounter w) d (put_cell d (mkInternal 1 t) w)
  = Ret true (after_publish d t w).
Proof.
  intros (Hu & _ & Hp) Hc Hd Hfree.
  assert (addressAndCopyCounter w ≠ 0) as Hnz by (unfold user_pointer in Hu; lia).
  assert (addressAndCopyCounter w ≠ d) as Hne by (intros E; rewrite E in Hc; congruence).
  unfold publish, mbind, M_bind, bind, exchange, update, drain. simpl.
  rewrite Hp.
  replace (Z.shiftr (addressAndCopyCounter w) 48) with 0.
  2:{ symmetry. apply Z.shiftr_eq_0; [unfold user_pointer in Hu; lia|].
      apply Z.log2_lt_pow2; unfold user_pointer in Hu; lia. }
  change (i32 (0 + 0)) with 0. simpl.
  rewrite (getRidOfPointer_live _ _ cell); [|done|].
  2:{ simpl. by rewrite lookup_insert_ne. }
  unfold mret, M_ret, ret, after_publish. rewrite Hc, Hp. done.
Qed.

Lemma unlock_lock (w : World) :
  editMutex w = false → set_mutex false (set_mutex true w) = w.
Proof. destruct w; simpl; by intros ->. Qed.

Lemma settled_set_mutex (b : bool) (w : World) : settled w → settled (set_mutex b w).
Proof. done. Qed.

Lemma after_publish_unlock (d : Z) (t : T) (w : World) :
  editMutex w = false →
  set_mutex false (after_publish d t (set_mutex true w)) = after_publish d t w.
Proof. intros Hm. unfold after_publish, set_mutex; simpl. by rewrite Hm. Qed.

Lemma replace_effect (c : mutation) (creator : (T → M Z) + M Z) (w : World) :
  settled w → editMutex w = false →
  valid_place (heap w) (place_of c) →
  (∀ old w1,
     match creator with
     | inl wants_old => wants_old old w1
     | inr wants_nothing => wants_nothing w1
     end =
     (duplicate ← new_Internal (place_of c)
                    (match builds_from c with
                     | Some args => T_ctor args
                     | None => T_copy old
                     end);
      if modifies c then modify_duplicate (lift (modified c)) duplicate
      else mret duplicate) w1) →
  unlocking (replace creator (lift (verdict c)) (set_mutex true w)) = effect c w.
Proof.
  intros Hs Hm Hplace Hcreator.
  destruct Hs as (Hu & [cell Hc] & Hp).
  rewrite (replace_settled _ _ _ cell); [|done..].
  unfold effect. rewrite Hc.
  destruct (verdict c (instance cell)) as [e|[|]]; simpl;
    [by rewrite unlock_lock| |by rewrite unlock_lock].
  rewrite Hcreator. unfold mbind, M_bind, bind.
  destruct (place_of c) as [d|] eqn:Hd; simpl; [|by rewrite unlock_lock].
  destruct (Hplace d eq_refl) as [Hdu Hfree].
  assert (d ≠ 0) as Hdz by (unfold user_pointer in Hdu; lia).
  assert ((d =? 0) = false) as Hdz' by lia.
  set (b := match builds_from c with Some args => T_ctor args | None => T_copy (instance cell) end).
  destruct b as [e|t]; simpl; [by rewrite unlock_lock|].
  change (set_heap (<[d:=mkInternal 1 t]> (heap w)) (set_mutex true w))
    with (put_cell d (mkInternal 1 t) (set_mutex true w)).
  destruct (modifies c) eqn:Hmod.
  - rewrite modify_duplicate_lift by done.
    destruct (modified c t) as [e|t']; simpl; [by rewrite unlock_lock|].
    rewrite Hdz'.
    change (addressAndCopyCounter w) with (addressAndCopyCounter (set_mutex true w)).
    rewrite (publish_settled d t' _ cell); [|done..]. simpl.
    by rewrite after_publish_unlock.
  - assert (modified c t = inr t) as -> by (by destruct c).
    unfold mret, M_ret, ret. rewrite Hdz'.
    change (addressAndCopyCounter w) with (addressAndCopyCounter (set_mutex true w)).
    rewrite (publish_settled d t _ cell); [|done..]. simpl.
    by rewrite after_publish_unlock.
Qed.

(** In a settled world whose mutex is free every mutating call computes
    [effect]. *)
Lemma run_settled (c : mutation) (w : World) :
  settled w → editMutex w = false →
  valid_place (heap w) (place_of c) →
  run c w = effect c w.
Proof.
  intros Hs Hm Hplace.
  destruct c; simpl;
    unfold emplace, reset, tryReset, edit, tryEdit, lock_guard, try_to_lock,
      replaceWithNew, replaceWithModifiedCopy;
    rewrite Hm;
    (match goal with |- _ = effect ?c _ => apply (replace_effect c) end; [done..|]);
    intros old w1; simpl; try done.
  unfold mbind, M_bind, bind, mret, M_ret, ret.
  by destruct (new_Internal place (T_ctor args) w1).
Qed.

(** While the mutex is held the non-blocking calls give up at once and the
    blocking ones wait for ever. *)
Lemma run_locked (c : mutation) (w : World) :
  editMutex w = true →
  run c w = if is_try c then Ret false w else Hang.
Proof.
  intros Hm.
  destruct c; simpl;
    unfold emplace, reset, tryReset, edit, tryEdit, lock_guard, try_to_lock;
    by rewrite Hm.
Qed.

Lemma current_settled (w : World) :
  settled w → current w = addressAndCopyCounter w.
Proof. intros (Hu & _). by apply getPointer_user. Qed.

Lemma lookup_released_ne (p d : Z) (cell : Internal) (h : gmap Z Internal) :
  p ≠ d → released p cell h !! d = h !! d.
Proof.
  intros Hne. unfold released.
  destruct (u64 (refcount cell - 1) =? 0);
    [by rewrite lookup_delete_ne|by rewrite lookup_insert_ne].
Qed.

Lemma after_publish_current (d : Z) (t : T) (w : World) :
  user_pointer d → current (after_publish d t w) = d.
Proof. intros Hd. unfold current; simpl. by apply getPointer_user. Qed.

Lemma after_publish_payload (d : Z) (t : T) (w : World) :
  settled w → user_pointer d → heap w !! d = None →
  payload (after_publish d t w) = Some t.
Proof.
  intros (_ & [cell Hc] & _) Hd Hfree.
  unfold payload. rewrite after_publish_current by done. simpl. rewrite Hc.
  rewrite lookup_released_ne by (intros E; rewrite E in Hc; congruence).
  by rewrite lookup_insert_eq.
Qed.

(** C1.  With a rejecting predicate [edit] and [reset] return false and leave
    the world, hence the published payload, as it was; with an accepting
    predicate they return true and the payload then published is the modifier
    applied once to the fresh copy (for [edit]) or to the freshly constructed
    payload (for [reset]). *)
Theorem edit_reset_predicate_semantics
    (w : World) (old : T) (place : option Z)
    (modifier : T → T) (verifier : T → bool) (args : Args) :
  settled w → editMutex w = false → payload w = Some old →
  (verifier old = false →
     edit place (pure modifier) (pure verifier) w = Ret false w ∧
     reset place (pure modifier) (pure verifier) args w = Ret false w) ∧
  (verifier old = true →
     ∀ d, place = Some d → user_pointer d → heap w !! d = None →
       (∀ copy, T_copy old = inr copy →
          ∃ w', edit place (pure modifier) (pure verifier) w = Ret true w' ∧
                payload w' = Some (modifier copy)) ∧
       (∀ made, T_ctor args = inr made →
          ∃ w', reset place (pure modifier) (pure verifier) args w = Ret true w' ∧
                payload w' = Some (modifier made))).
Proof.
  intros Hs Hm Hold.
  unfold payload in Hold. rewrite current_settled in Hold by done.
  destruct (heap w !! addressAndCopyCounter w) as [cell|] eqn:Hc; [|done].
  injection Hold as <-.
  pose (m := fun t => @inr exn T (modifier t)).
  pose (v := fun t => @inr exn bool (verifier t)).
  split.
  - intros Hrej. split.
    + change (edit place (lift m) (lift v) w = Ret false w).
      unfold edit, lock_guard, replaceWithModifiedCopy. rewrite Hm.
      rewrite (replace_settled _ v _ cell) by done.
      unfold v. rewrite Hrej. simpl. by rewrite unlock_lock.
    + change (reset place (lift m) (lift v) args w = Ret false w).
      unfold reset, lock_guard, replaceWithNew. rewrite Hm.
      rewrite (replace_settled _ v _ cell) by done.
      unfold v. rewrite Hrej. simpl. by rewrite unlock_lock.
  - intros Hacc d -> Hd Hfree.
    assert (valid_place (heap w) (Some d)) as Hplace by (by intros ? [= <-]).
    split.
    + intros copy Hcopy. exists (after_publish d (modifier copy) w). split.
      * change (run (Edit (Some d) m v) w = Ret true (after_publish d (modifier copy) w)).
        rewrite run_settled by done. unfold effect. rewrite Hc. simpl.
        unfold v, m. by rewrite Hacc, Hcopy.
      * by apply after_publish_payload.
    + intros made Hmade. exists (after_publish d (modifier made) w). split.
      * change (run (Reset (Some d) m v args) w = Ret true (after_publish d (modifier made) w)).
        rewrite run_settled by done. unfold effect. rewrite Hc. simpl.
        unfold v, m. by rewrite Hacc, Hmade.
      * by apply after_publish_payload.
Qed.

Lemma effect_cases (c : mutation) (w : World) (cell : Internal) :
  heap w !! addressAndCopyCounter w = Some cell →
  (∃ e, effect c w = Throw e w) ∨
  (effect c w = Ret false w ∧ verdict c (instance cell) = inr false) ∨
  (∃ d t, effect c w = Ret true (after_publish d t w) ∧ place_of c = Some d ∧
          verdict c (instance cell) = inr true).
Proof.
  intros Hc. unfold effect. rewrite Hc.
  destruct (verdict c (instance cell)) as [e|[|]]; [by left; exists e| |by right; left].
  destruct (place_of c) as [d|]; [|by left; exists bad_alloc].
  destruct (match builds_from c with Some args => T_ctor args | None => T_copy (instance cell) end)
    as [e|t]; [by left; exists e|].
  destruct (modified c t) as [e|t']; [by left; exists e|].
  right; right. by exists d, t'.
Qed.

Lemma run_cases (c : mutation) (w : World) (cell : Internal) :
  settled w → valid_place (heap w) (place_of c) →
  heap w !! addressAndCopyCounter w = Some cell →
  (∃ e, run c w = Throw e w ∧ editMutex w = false) ∨
  (run c w = Ret false w ∧
   (verdict c (instance cell) = inr false ∨ (is_try c = true ∧ editMutex w = true))) ∨
  (∃ d t, run c w = Ret true (after_publish d t w) ∧ place_of c = Some d ∧
          editMutex w = false) ∨
  (run c w = Hang ∧ is_try c = false ∧ editMutex w = true).
Proof.
  intros Hs Hplace Hc. destruct (editMutex w) eqn:Hm.
  - rewrite run_locked by done. destruct (is_try c); eauto 10.
  - rewrite run_settled by done.
    destruct (effect_cases c w cell Hc) as [[e He]|[[He Hv]|(d & t & He & Hd & _)]];
      rewrite He; eauto 10.
Qed.

(** C2.  A mutating call that returns true has published a new Snapshot, one
    that returns false has changed nothing, and it returns false only if the
    predicate rejected the old payload or, for the try-variants, if the mutex
    was held.  With a free mutex every call returns or throws, with a held
    mutex the try-variants return; [emplace] publishes and returns true. *)
Theorem mutation_result_tells_publication (c : mutation) (w : World) :
  settled w → valid_place (heap w) (place_of c) →
  (∀ b w', run c w = Ret b w' →
     (b = true ↔ current w' ≠ current w) ∧
     (b = true →
        ∃ d, place_of c = Some d ∧ heap w !! d = None ∧ current w' = d ∧
             is_Some (payload w')) ∧
     (b = false →
        w' = w ∧
        ((∃ old, payload w = Some old ∧ verdict c old = inr false) ∨
         (is_try c = true ∧ editMutex w = true)))) ∧
  (editMutex w = false →
     (∃ b w', run c w = Ret b w') ∨ (∃ e, run c w = Throw e w)) ∧
  (editMutex w = true → is_try c = true → run c w = Ret false w) ∧
  (∀ place args d made,
     c = Emplace place args → editMutex w = false →
     place = Some d → T_ctor args = inr made →
     ∃ w', run c w = Ret true w' ∧ current w' = d ∧ payload w' = Some made).
Proof.
  intros Hs Hplace. pose proof Hs as (Hu & [cell Hc] & Hp).
  assert (payload w = Some (instance cell)) as Hpay.
  { unfold payload. by rewrite current_settled, Hc. }
  pose proof (run_cases c w cell Hs Hplace Hc) as Hcases.
  split; [|split; [|split]].
  - intros b w' Hrun.
    destruct Hcases as [(e & He & _)|[[He Hwhy]|[(d & t & He & Hd & Hm)|(He & _)]]];
      rewrite He in Hrun; try done; injection Hrun as <- <-.
    + split; [split; [done|by intros []]|]. split; [done|]. intros _.
      split; [done|]. destruct Hwhy as [Hv|Hl]; [left|by right].
      by exists (instance cell).
    + destruct (Hplace d Hd) as [Hdu Hfree].
      assert (current (after_publish d t w) ≠ current w) as Hnew.
      { rewrite after_publish_current, current_settled by done.
        intros ->. congruence. }
      split; [done|]. split; [|done]. intros _. exists d.
      split; [done|]. split; [done|]. split; [by apply after_publish_current|].
      by rewrite after_publish_payload.
  - intros Hm.
    destruct Hcases as [(e & He & _)|[[He _]|[(d & t & He & _)|(_ & _ & Hl)]]];
      [right|left|left|congruence]; eauto.
  - intros Hm Htry. rewrite run_locked by done. by rewrite Htry.
  - intros place args d made -> Hm -> Hmade.
    destruct (Hplace d eq_refl) as [Hdu Hfree].
    exists (after_publish d made w). split; [|split].
    + rewrite run_settled by done. unfold effect. rewrite Hc. simpl. by rewrite Hmade.
    + by apply after_publish_current.
    + by apply after_publish_payload.
Qed.

(** C7.  When the allocation, the payload's constructor or copy constructor,
    or the modifier throws, the exception leaves the call and the world is
    exactly the one before the call: the old Snapshot is still the current
    one, nothing was published, the storage of the replacement was given
    back and the mutex is free again. *)
Theorem failed_build_changes_nothing (c : mutation) (w : World) (old : T) (e : exn) :
  settled w → editMutex w = false → valid_place (heap w) (place_of c) →
  payload w = Some old → verdict c old = inr true →
  let constructed :=
    match builds_from c with
    | Some args => T_ctor args
    | None => T_copy old
    end in
  (place_of c = None ∧ e = bad_alloc) ∨
  (is_Some (place_of c) ∧ constructed = inl e) ∨
  (is_Some (place_of c) ∧ ∃ t, constructed = inr t ∧ modified c t = inl e) →
  run c w = Throw e w ∧ payload w = Some old.
Proof.
  intros Hs Hm Hplace Hold Hv constructed Hfail. split; [|done].
  unfold payload in Hold. rewrite current_settled in Hold by done.
  destruct (heap w !! addressAndCopyCounter w) as [cell|] eqn:Hc; [|done].
  injection Hold as <-.
  rewrite run_settled by done. unfold effect. rewrite Hc, Hv.
  fold constructed.
  destruct Hfail as [[-> ->]|[[[d ->] ->]|[[d ->] (t & -> & ->)]]]; done.
Qed.

(** ** Handles *)

Lemma refcount_incr_live (p : Z) (w : World) (cell : Internal) :
  p ≠ 0 → heap w !! p = Some cell →
  refcount_incr p w =
  Ret tt (put_cell p (mkInternal (u64 (refcount cell + 1)) (instance cell)) w).
Proof.
  intros Hp Hc. unfold refcount_incr, mbind, M_bind, bind.
  by rewrite (deref_live p w cell).
Qed.

Lemma u64_small (x : Z) : 0 ≤ x < 2 ^ 64 → u64 x = x.
Proof. intros Hx. unfold u64. by apply Z.mod_small. Qed.

(** C5.  Copying a handle bound to a live Snapshot raises that Snapshot's
    count by exactly one and yields a handle to the same Snapshot; destroying
    the copy takes the one reference back and leaves the original as it was,
    destroying the original afterwards gives up its own reference.  Moving a
    handle changes no count, binds the new handle to the Snapshot and leaves
    the source empty; destroying the empty source does nothing. *)
Theorem handle_copy_and_move (w : World) (h : Z) (cell : Internal) :
  h ≠ 0 → heap w !! h = Some cell → 1 ≤ refcount cell < 2 ^ 64 - 1 →
  (∃ w',
     Reference_copy h w = Ret h w' ∧
     heap w' !! h = Some (mkInternal (refcount cell + 1) (instance cell)) ∧
     (∀ p, p ≠ h → heap w' !! p = heap w !! p) ∧
     Reference_destroy h w' = Ret tt w ∧
     Reference_destroy h w = Ret tt (set_heap (released h cell (heap w)) w)) ∧
  Reference_move h w = Ret (h, 0) w ∧
  Reference_destroy 0 w = Ret tt w.
Proof.
  intros Hh Hc Hrc.
  assert ((h =? 0) = false) as Hh' by lia.
  split; [|split].
  - exists (put_cell h (mkInternal (refcount cell + 1) (instance cell)) w).
    split; [|split; [|split; [|split]]].
    + unfold Reference_copy, mbind, M_bind, bind.
      rewrite (refcount_incr_live h w cell) by done.
      by rewrite u64_small by lia.
    + simpl. by rewrite lookup_insert_eq.
    + intros p Hp. simpl. by rewrite lookup_insert_ne.
    + unfold Reference_destroy. rewrite Hh'. simpl.
      rewrite (getRidOfPointer_live h _ (mkInternal (refcount cell + 1) (instance cell)));
        [|done|by simpl; rewrite lookup_insert_eq].
      f_equal. unfold released; simpl.
      replace (refcount cell + 1 - 1) with (refcount cell) by lia.
      rewrite u64_small by lia.
      assert ((refcount cell =? 0) = false) as -> by lia.
      unfold set_heap; simpl. rewrite insert_insert_eq.
      rewrite insert_id by (by destruct cell). by destruct w.
    + unfold Reference_destroy. rewrite Hh'. simpl.
      by rewrite (getRidOfPointer_live h w cell).
  - unfold Reference_move. by rewrite Hh'.
  - done.
Qed.

(** C10.  Copy-constructing from an empty handle, such as a moved-from one,
    evaluates [instance->refcount++] on a null pointer, whereas the copy
    assignment tests the pointer first. *)
Theorem copy_of_empty_handle_is_undefined (w : World) (h : Z) :
  (∀ new left w', Reference_move h w = Ret (new, left) w' →
     left = 0 ∧ Reference_copy left w' = Undef) ∧
  Reference_copy 0 w = Undef ∧
  Reference_copy_assign 0 0 w = Ret 0 w.
Proof.
  split; [|done].
  intros new left w' Hmove. unfold Reference_move in Hmove.
  destruct (h =? 0) eqn:E; simpl in Hmove; injection Hmove as <- <- <-.
  - apply Z.eqb_eq in E as ->. done.
  - done.
Qed.

(** ** Calls made from within a callback *)

Lemma replace_agree (c1 c2 : (T → M Z) + M Z) (v1 v2 : T → M bool) (w : World) :
  editMutex w = true →
  (∀ t w, editMutex w = true → v1 t w = v2 t w) →
  keeps_mutex v2 →
  (∀ o w, editMutex w = true →
     match c1 with
     | inl f => (cell ← deref o; f (instance cell)) w
     | inr m => m w
     end =
     match c2 with
     | inl f => (cell ← deref o; f (instance cell)) w
     | inr m => m w
     end) →
  replace c1 v1 w = replace c2 v2 w.
Proof.
  intros Hm Hv Hkeep Hc. unfold replace, mbind, M_bind, bind, load.
  set (o := getPointer (addressAndCopyCounter w)).
  destruct (deref o w) as [cell w0| | |] eqn:Hd; try done.
  assert (w0 = w) as ->.
  { unfold deref in Hd. destruct (decide (o = 0)); [done|].
    destruct (heap w !! o); [|done]. by injection Hd. }
  rewrite Hv by done. pose proof (Hkeep (instance cell) w) as Hk.
  destruct (v2 (instance cell) w) as [b w1| | |]; try done.
  destruct b; simpl; [|done].
  specialize (Hc o w1 ltac:(congruence)). unfold mbind, M_bind, bind in Hc.
  destruct c1 as [f1|m1], c2 as [f2|m2]; by rewrite Hc.
Qed.

Lemma modify_duplicate_agree (m1 m2 : T → M T) (d : Z) (w : World) :
  editMutex w = true →
  (∀ t w, editMutex w = true → m1 t w = m2 t w) →
  modify_duplicate m1 d w = modify_duplicate m2 d w.
Proof.
  intros Hm Hagree. unfold modify_duplicate, unwinding, mbind, M_bind, bind.
  destruct (deref d w) as [cell w0| | |] eqn:Hd; try done.
  assert (w0 = w) as ->.
  { unfold deref in Hd. destruct (decide (d = 0)); [done|].
    destruct (heap w !! d); [|done]. by injection Hd. }
  by rewrite Hagree.
Qed.

Lemma replaceWithModifiedCopy_agree place (m1 m2 : T → M T) (v1 v2 : T → M bool) w :
  editMutex w = true →
  (∀ t w, editMutex w = true → m1 t w = m2 t w) →
  (∀ t w, editMutex w = true → v1 t w = v2 t w) →
  keeps_mutex v2 →
  replaceWithModifiedCopy place m1 v1 w = replaceWithModifiedCopy place m2 v2 w.
Proof.
  intros Hm Hma Hva Hkeep. unfold replaceWithModifiedCopy.
  apply replace_agree; [done..|].
  intros o w1 Hm1. unfold mbind, M_bind, bind.
  destruct (deref o w1) as [cell w2| | |] eqn:Hd; try done.
  assert (w2 = w1) as ->.
  { unfold deref in Hd. destruct (decide (o = 0)); [done|].
    destruct (heap w1 !! o); [|done]. by injection Hd. }
  destruct place as [p|]; [|done]. simpl.
  destruct (T_copy (instance cell)); [done|]. simpl.
  by apply modify_duplicate_agree.
Qed.

Lemma replaceWithNew_agree place (m1 m2 : T → M T) (v1 v2 : T → M bool) args w :
  editMutex w = true →
  (∀ t w, editMutex w = true → m1 t w = m2 t w) →
  (∀ t w, editMutex w = true → v1 t w = v2 t w) →
  keeps_mutex v2 →
  replaceWithNew place m1 v1 args w = replaceWithNew place m2 v2 args w.
Proof.
  intros Hm Hma Hva Hkeep. unfold replaceWithNew.
  apply replace_agree; [done..|].
  intros o w1 Hm1. unfold mbind, M_bind, bind.
  destruct place as [p|]; [|done]. simpl.
  destruct (T_ctor args); [done|]. simpl.
  by apply modify_duplicate_agree.
Qed.

(** The four calls that take callbacks only look at what the callbacks do
    while the mutex is held. *)
Lemma callbacks_run_locked place (m1 m2 : T → M T) (v1 v2 : T → M bool) args w :
  (∀ t w, editMutex w = true → m1 t w = m2 t w) →
  (∀ t w, editMutex w = true → v1 t w = v2 t w) →
  keeps_mutex v2 →
  edit place m1 v1 w = edit place m2 v2 w ∧
  tryEdit place m1 v1 w = tryEdit place m2 v2 w ∧
  reset place m1 v1 args w = reset place m2 v2 args w ∧
  tryReset place m1 v1 args w = tryReset place m2 v2 args w.
Proof.
  intros Hma Hva Hkeep.
  unfold edit, tryEdit, reset, tryReset, lock_guard, try_to_lock.
  destruct (editMutex w) eqn:Hm; [done|].
  rewrite (replaceWithModifiedCopy_agree place m1 m2 v1 v2) by done.
  by rewrite (replaceWithNew_agree place m1 m2 v1 v2) by done.
Qed.

(** C6.  While the mutex is held, [tryEdit] and [tryReset] return false at
    once and change nothing.  Callbacks run with the mutex held: a call that
    makes such an attempt from within its predicate or its modifier goes on
    exactly as if the callback had been handed [false] in the same world. *)
Theorem reentrant_try_call_fails
    (inner : M bool) (place' : option Z) (m' : T → M T) (v' : T → M bool)
    (args' : Args) :
  inner = tryEdit place' m' v' ∨ inner = tryReset place' m' v' args' →
  (∀ w, editMutex w = true → inner w = Ret false w) ∧
  (∀ place args (m : T → M T) (kv : bool → T → M bool) w,
     keeps_mutex (kv false) →
     let v := fun t => b ← inner; kv b t in
     edit place m v w = edit place m (kv false) w ∧
     tryEdit place m v w = tryEdit place m (kv false) w ∧
     reset place m v args w = reset place m (kv false) args w ∧
     tryReset place m v args w = tryReset place m (kv false) args w) ∧
  (∀ place args (k : bool → T → M T) (v : T → M bool) w,
     keeps_mutex v →
     let m := fun t => b ← inner; k b t in
     edit place m v w = edit place (k false) v w ∧
     tryEdit place m v w = tryEdit place (k false) v w ∧
     reset place m v args w = reset place (k false) v args w ∧
     tryReset place m v args w = tryReset place (k false) v args w).
Proof.
  intros Hinner.
  assert (∀ w, editMutex w = true → inner w = Ret false w) as Hfail.
  { intros w Hm. destruct Hinner as [-> | ->];
      unfold tryEdit, tryReset, try_to_lock; by rewrite Hm. }
  split; [done|]. split.
  - intros place args m kv w Hkeep v. apply callbacks_run_locked; [done| |done].
    intros t w1 Hm. unfold v, mbind, M_bind, bind. by rewrite Hfail.
  - intros place args k v w Hkeep m. apply callbacks_run_locked; [|done..].
    intros t w1 Hm. unfold m, mbind, M_bind, bind. by rewrite Hfail.
Qed.

(** ** The reference counts along a client's calls *)

Lemma bound_to_delete (hs : gmap nat Z) (r : nat) (q p : Z) :
  hs !! r = Some q →
  bound_to hs p = bound_to (delete r hs) p + (if decide (q = p) then 1 else 0).
Proof.
  intros Hr. unfold bound_to. rewrite map_filter_delete, map_size_delete.
  destruct (decide (q = p)) as [->|Hne].
  - assert (filter (λ kv : nat * Z, kv.2 = p) hs !! r = Some p) as Hf
      by (by apply map_lookup_filter_Some).
    rewrite Hf.
    assert (size (filter (λ kv : nat * Z, kv.2 = p) hs) ≠ 0%nat) as Hs.
    { intros E. apply map_size_empty_inv in E. by rewrite E in Hf. }
    lia.
  - assert (filter (λ kv : nat * Z, kv.2 = p) hs !! r = None) as Hf.
    { apply map_lookup_filter_None. right. intros x Hx. simpl. congruence. }
    rewrite Hf. simpl. lia.
Qed.

Lemma bound_to_insert (hs : gmap nat Z) (r : nat) (q p : Z) :
  bound_to (<[r := q]> hs) p =
  bound_to (delete r hs) p + (if decide (q = p) then 1 else 0).
Proof.
  rewrite (bound_to_delete (<[r := q]> hs) r q p) by apply lookup_insert_eq.
  by rewrite delete_insert_eq.
Qed.

Lemma bound_to_fresh (hs : gmap nat Z) (r : nat) (p : Z) :
  hs !! r = None → bound_to (delete r hs) p = bound_to hs p.
Proof. intros Hr. by rewrite delete_id. Qed.

Lemma bound_to_range (hs : gmap nat Z) (p : Z) :
  0 ≤ bound_to hs p ≤ Z.of_nat (size hs).
Proof.
  unfold bound_to. split; [lia|].
  apply inj_le, map_subseteq_size, map_filter_subseteq.
Qed.

Lemma bound_to_lookup (hs : gmap nat Z) (r : nat) (p : Z) :
  hs !! r = Some p → 1 ≤ bound_to hs p.
Proof.
  intros Hr. rewrite (bound_to_delete hs r p p Hr).
  rewrite decide_True by done. pose proof (bound_to_range (delete r hs) p). lia.
Qed.

Lemma refcount_incr_returns (p : Z) (w w' : World) (u : unit) :
  refcount_incr p w = Ret u w' →
  p ≠ 0 ∧ ∃ cell, heap w !! p = Some cell ∧
    w' = put_cell p (mkInternal (u64 (refcount cell + 1)) (instance cell)) w.
Proof.
  unfold refcount_incr, mbind, M_bind, bind, deref.
  destruct (decide (p = 0)); [done|]. destruct (heap w !! p) as [cell|]; [|done].
  intros [= <-]. eauto.
Qed.

Lemma getRidOfPointer_returns (p : Z) (w w' : World) (u : unit) :
  getRidOfPointer p w = Ret u w' →
  p ≠ 0 ∧ ∃ cell, heap w !! p = Some cell ∧
    w' = set_heap (released p cell (heap w)) w.
Proof.
  intros Hrun.
  assert (p ≠ 0 ∧ ∃ cell, heap w !! p = Some cell) as (Hp & cell & Hc).
  { unfold getRidOfPointer, refcount_decr, mbind, M_bind, bind, deref in Hrun.
    destruct (decide (p = 0)); [done|]. destruct (heap w !! p); [eauto|done]. }
  rewrite (getRidOfPointer_live p w cell) in Hrun by done.
  injection Hrun as <-. eauto.
Qed.

Lemma mod64_mod48 (x : Z) : (x mod 2 ^ 64) mod 2 ^ 48 = x mod 2 ^ 48.
Proof.
  apply Z.mod_mod_divide. exists (2 ^ 16). lia.
Qed.

(** Counting a reader in or out leaves the address bits alone. *)
Lemma land_suffix_incr (v : Z) : Z.land (u64 (v + increment)) suffix = Z.land v suffix.
Proof.
  rewrite !land_suffix. unfold u64, increment. rewrite mod64_mod48.
  change 0x0001000000000000 with (1 * 2 ^ 48). by rewrite Z.mod_add by lia.
Qed.

Lemma land_suffix_decr (v : Z) : Z.land (u64 (v - increment)) suffix = Z.land v suffix.
Proof.
  rewrite !land_suffix. unfold u64, increment. rewrite mod64_mod48.
  change (v - 0x0001000000000000) with (v + (-1) * 2 ^ 48). by rewrite Z.mod_add by lia.
Qed.

Lemma safeInstance_settled (w : World) (cell : Internal) :
  settled w → heap w !! addressAndCopyCounter w = Some cell →
  safeInstance w =
  Ret (addressAndCopyCounter w)
    (put_cell (addressAndCopyCounter w)
       (mkInternal (u64 (refcount cell + 1)) (instance cell)) w).
Proof.
  intros (Hu & _ & _) Hc. pose proof (getPointer_user _ Hu) as Hg.
  assert (addressAndCopyCounter w ≠ 0) as Hnz by (unfold user_pointer in Hu; lia).
  destruct w as [h s prev mu]; simpl in *.
  unfold safeInstance, mbind, M_bind, bind, load, store, update, set_slot; simpl.
  rewrite Hg.
  rewrite (refcount_incr_live s _ cell) by done. simpl.
  rewrite land_suffix_incr, Z.eqb_refl. simpl.
  unfold mret, M_ret, ret, put_cell, set_heap, set_slot; simpl.
  do 2 f_equal. unfold user_pointer in Hu. unfold u64, increment.
  rewrite (Z.mod_small (s + _)) by lia.
  replace (s + 0x0001000000000000 - 0x0001000000000000) with s by lia.
  apply Z.mod_small. lia.
Qed.

Section Bookkeeping.

Variables (w : World) (hs : gmap nat Z).
Hypothesis Hcons : consistent (mkState w hs).

Lemma consistent_current : current w = addressAndCopyCounter w.
Proof. destruct Hcons as (Hs & _). by apply current_settled. Qed.

Lemma consistent_count_bound (p : Z) (cell : Internal) :
  heap w !! p = Some cell → 0 ≤ refcount cell ≤ max_handles + 1.
Proof.
  destruct Hcons as (_ & _ & Hsize & Hlive & _). intros Hc.
  destruct (Hlive p cell Hc) as [_ ->]. unfold owners; simpl in *.
  pose proof (bound_to_range hs p). case_decide; lia.
Qed.

(** Rebinding handles without changing how many are bound to each Snapshot. *)
Lemma consistent_rebind (hs' : gmap nat Z) :
  Z.of_nat (size hs') ≤ max_handles →
  (∀ p, p ≠ 0 → bound_to hs' p = bound_to hs p) →
  consistent (mkState w hs').
Proof.
  intros Hsize Hsame.
  destruct Hcons as (Hs & Hm & _ & Hlive & Hdead).
  split; [done|]. split; [done|]. split; [done|]. split.
  - intros p cell Hc. destruct (Hlive p cell Hc) as [Hu Hrc]. split; [done|].
    rewrite Hrc. unfold owners; simpl. rewrite Hsame; [done|].
    unfold user_pointer in Hu; lia.
  - intros p Hp. rewrite (Hdead p Hp). unfold owners; simpl. by rewrite Hsame.
Qed.

(** A handle gives up its reference. *)
Lemma consistent_release (r : nat) (p : Z) :
  hs !! r = Some p → p ≠ 0 →
  ∃ cell, heap w !! p = Some cell ∧
    consistent (mkState (set_heap (released p cell (heap w)) w) (<[r := 0]> hs)).
Proof.
  intros Hr Hp. pose proof consistent_current as Hcur.
  destruct Hcons as (Hs & Hm & Hsize & Hlive & Hdead). simpl in *.
  pose proof (bound_to_lookup hs r p Hr) as Hbound.
  destruct (heap w !! p) as [cell|] eqn:Hc.
  2:{ apply (Hdead p Hp) in Hc. unfold owners in Hc; simpl in Hc. case_decide; lia. }
  exists cell. split; [done|].
  destruct (Hlive p cell Hc) as [Hpu Hrc].
  pose proof (consistent_count_bound p cell Hc) as Hrange.
  unfold owners in Hrc; simpl in Hrc. rewrite Hcur in Hrc.
  assert (u64 (refcount cell - 1) = refcount cell - 1) as Hdec.
  { apply u64_small. unfold max_handles in Hrange. case_decide; lia. }
  assert (∀ q, q ≠ 0 →
            bound_to (<[r:=0]> hs) q =
            bound_to hs q - (if decide (p = q) then 1 else 0)) as Hb.
  { intros q Hq. rewrite bound_to_insert, (bound_to_delete hs r p q Hr).
    rewrite (decide_False (P := 0 = q)) by done. lia. }
  split; [|split; [done|split; [|split]]].
  - (* still settled *)
    destruct Hs as (Hu & [cur Hcurrent] & Hprev).
    split; [done|]. split; [|done]. simpl.
    unfold released. rewrite Hdec.
    destruct (decide (p = addressAndCopyCounter w)) as [E|Hne].
    + assert ((refcount cell - 1 =? 0) = false) as -> by lia.
      rewrite <- E, lookup_insert_eq. eauto.
    + destruct (refcount cell - 1 =? 0);
        [rewrite lookup_delete_ne by done|rewrite lookup_insert_ne by done]; eauto.
  - simpl. rewrite map_size_insert_Some by eauto. done.
  - intros q cell' Hq. simpl in Hq. unfold owners; simpl.
    unfold current; simpl. fold (current w). rewrite Hcur.
    destruct (decide (q = p)) as [->|Hne].
    + unfold released in Hq. rewrite Hdec in Hq.
      destruct (refcount cell - 1 =? 0) eqn:E;
        [by rewrite lookup_delete_eq in Hq|].
      rewrite lookup_insert_eq in Hq. injection Hq as <-. simpl.
      split; [done|]. rewrite Hb by done. rewrite decide_True by done. lia.
    + rewrite lookup_released_ne in Hq by done.
      destruct (Hlive q cell' Hq) as [Hqu Hqrc]. split; [done|].
      rewrite Hqrc. unfold owners; simpl. rewrite Hcur.
      rewrite Hb by (unfold user_pointer in Hqu; lia).
      rewrite (decide_False (P := p = q)) by done. lia.
  - intros q Hq. simpl. unfold owners; simpl. unfold current; simpl. fold (current w).
    rewrite Hcur.
    rewrite Hb by done.
    destruct (decide (q = p)) as [->|Hne].
    + rewrite decide_True by done. unfold released. rewrite Hdec.
      destruct (refcount cell - 1 =? 0) eqn:E.
      * rewrite lookup_delete_eq. split; [intros _; lia|done].
      * rewrite lookup_insert_eq. split; [done|intros; lia].
    + rewrite lookup_released_ne by done. rewrite (Hdead q Hq).
      unfold owners; simpl. rewrite Hcur.
      rewrite (decide_False (P := p = q)) by done. lia.
Qed.

(** A handle takes a reference to a live Snapshot. *)
Lemma consistent_acquire (r : nat) (q : Z) (cell : Internal) :
  hs !! r = Some 0 → heap w !! q = Some cell →
  consistent
    (mkState (put_cell q (mkInternal (u64 (refcount cell + 1)) (instance cell)) w)
       (<[r := q]> hs)).
Proof.
  intros Hr Hc. pose proof (consistent_count_bound q cell Hc) as Hrange.
  destruct Hcons as (Hs & Hm & Hsize & Hlive & Hdead). simpl in *.
  destruct (Hlive q cell Hc) as [Hqu Hrc].
  assert (q ≠ 0) as Hq by (unfold user_pointer in Hqu; lia).
  assert (u64 (refcount cell + 1) = refcount cell + 1) as Hinc.
  { apply u64_small. unfold max_handles in Hrange. lia. }
  assert (∀ p, p ≠ 0 →
            bound_to (<[r:=q]> hs) p =
            bound_to hs p + (if decide (q = p) then 1 else 0)) as Hb.
  { intros p Hp. rewrite bound_to_insert, (bound_to_delete hs r 0 p Hr).
    rewrite (decide_False (P := 0 = p)) by done. lia. }
  split; [|split; [done|split; [|split]]].
  - destruct Hs as (Hu & [cur Hcurrent] & Hprev).
    split; [done|]. split; [|done]. simpl.
    destruct (decide (q = addressAndCopyCounter w)) as [->|Hne];
      [rewrite lookup_insert_eq|rewrite lookup_insert_ne by done]; eauto.
  - simpl. rewrite map_size_insert_Some by eauto. done.
  - intros p cell' Hp. simpl in Hp. unfold owners; simpl.
    unfold current; simpl. fold (current w).
    destruct (decide (q = p)) as [->|Hne].
    + rewrite lookup_insert_eq in Hp. injection Hp as <-. simpl.
      split; [done|]. rewrite Hb, Hinc, Hrc by done. unfold owners; simpl.
      rewrite (decide_True (P := p = p)) by done. lia.
    + rewrite lookup_insert_ne in Hp by done.
      destruct (Hlive p cell' Hp) as [Hpu Hprc]. split; [done|].
      rewrite Hprc. unfold owners; simpl.
      rewrite Hb by (unfold user_pointer in Hpu; lia).
      rewrite (decide_False (P := q = p)) by done. lia.
  - intros p Hp. simpl. unfold owners; simpl. unfold current; simpl. fold (current w).
    rewrite Hb by done.
    destruct (decide (q = p)) as [->|Hne].
    + rewrite lookup_insert_eq. pose proof (bound_to_range hs p).
      split; [done|]. case_decide; lia.
    + rewrite lookup_insert_ne by done. rewrite (Hdead p Hp).
      unfold owners; simpl. lia.
Qed.

End Bookkeeping.

(** A new Snapshot takes the place of the current one. *)
Lemma consistent_publish (w : World) (hs : gmap nat Z) (d : Z) (t : T) :
  consistent (mkState w hs) →
  user_pointer d → heap w !! d = None →
  consistent (mkState (after_publish d t w) hs).
Proof.
  intros Hcons Hdu Hfree.
  pose proof (consistent_current w hs Hcons) as Hcur.
  destruct Hcons as (Hs & Hm & Hsize & Hlive & Hdead). simpl in *.
  pose proof Hs as (Hu & [cell Hc] & Hprev).
  set (o := addressAndCopyCounter w) in *.
  assert (o ≠ d) as Hod by (intros E; rewrite E in Hc; congruence).
  assert (d ≠ 0) as Hdz by (unfold user_pointer in Hdu; lia).
  assert (bound_to hs d = 0) as Hd0.
  { apply (Hdead d Hdz) in Hfree. unfold owners in Hfree; simpl in Hfree.
    pose proof (bound_to_range hs d). case_decide; lia. }
  destruct (Hlive o cell Hc) as [_ Hrc]. unfold owners in Hrc; simpl in Hrc.
  rewrite Hcur, decide_True in Hrc by done.
  pose proof (bound_to_range hs o) as Hrange.
  assert (u64 (refcount cell - 1) = bound_to hs o) as Hdec.
  { rewrite u64_small; unfold max_handles in *; lia. }
  assert (∀ p, owners (mkState (after_publish d t w) hs) p =
               bound_to hs p + (if decide (p = d) then 1 else 0)) as Hown.
  { intros p. unfold owners; simpl. by rewrite after_publish_current. }
  assert (∀ p, owners (mkState w hs) p =
               bound_to hs p + (if decide (p = o) then 1 else 0)) as Hown0.
  { intros p. unfold owners; simpl. by rewrite Hcur. }
  assert (heap (after_publish d t w) =
          released o cell (<[d := mkInternal 1 t]> (heap w))) as Hheap.
  { unfold after_publish; simpl. fold o. by rewrite Hc. }
  split; [|split; [done|split; [done|split]]].
  - split; [done|]. split; [|done]. simpl. fold o. rewrite Hc.
    rewrite lookup_released_ne, lookup_insert_eq by done. eauto.
  - intros p cell' Hp. cbn [world] in Hp. rewrite Hheap in Hp. rewrite Hown.
    destruct (decide (p = o)) as [->|Hpo].
    + unfold released in Hp. rewrite Hdec in Hp.
      destruct (bound_to hs o =? 0) eqn:E; [by rewrite lookup_delete_eq in Hp|].
      rewrite lookup_insert_eq in Hp. injection Hp as <-. simpl.
      split; [done|]. rewrite decide_False by done. lia.
    + rewrite lookup_released_ne in Hp by done.
      destruct (decide (p = d)) as [->|Hpd].
      * rewrite lookup_insert_eq in Hp. injection Hp as <-. simpl.
        split; [done|]. lia.
      * rewrite lookup_insert_ne in Hp by done.
        destruct (Hlive p cell' Hp) as [Hpu Hprc]. split; [done|].
        rewrite Hprc, Hown0. by rewrite decide_False by done.
  - intros p Hp. cbn [world]. rewrite Hheap, Hown.
    destruct (decide (p = o)) as [->|Hpo].
    + rewrite (decide_False (P := o = d)) by done.
      unfold released. rewrite Hdec.
      destruct (bound_to hs o =? 0) eqn:E.
      * rewrite lookup_delete_eq. split; [lia|done].
      * rewrite lookup_insert_eq. split; [done|lia].
    + rewrite lookup_released_ne by done.
      destruct (decide (p = d)) as [->|Hpd].
      * rewrite lookup_insert_eq. split; [done|lia].
      * rewrite lookup_insert_ne by done. rewrite (Hdead p Hp), Hown0.
        by rewrite decide_False by done.
Qed.

Lemma consistent_initial (s : state) : initial s → consistent s.
Proof.
  intros (place & args & w & Hplace & Hctor & ->).
  unfold construct, mbind, M_bind, bind in Hctor.
  destruct place as [p|]; [|done]. simpl in Hctor.
  destruct (T_ctor args) as [e|t]; [done|]. simpl in Hctor.
  injection Hctor as <-.
  destruct (Hplace p eq_refl) as [Hp _].
  assert (∀ q, owners (mkState (set_slot p (set_heap (<[p:=mkInternal 1 t]> ∅)
                 (mkWorld ∅ 0 0 false))) ∅) q = if decide (q = p) then 1 else 0) as Hown.
  { intros q. unfold owners, current; simpl. rewrite getPointer_user by done.
    unfold bound_to. rewrite map_filter_empty, map_size_empty. lia. }
  split; [|split; [done|split; [|split]]].
  - split; [done|]. split; [|done]. simpl. rewrite lookup_insert_eq. eauto.
  - simpl. rewrite map_size_empty. unfold max_handles. lia.
  - intros q cell Hq. simpl in Hq. rewrite Hown.
    destruct (decide (q = p)) as [->|Hne].
    + rewrite lookup_insert_eq in Hq. by injection Hq as <-.
    + by rewrite lookup_insert_ne in Hq.
  - intros q Hq. rewrite Hown. simpl.
    destruct (decide (q = p)) as [->|Hne].
    + rewrite lookup_insert_eq. split; [done|lia].
    + rewrite lookup_insert_ne by done. done.
Qed.

Lemma consistent_declare (w : World) (hs : gmap nat Z) (r : nat) :
  consistent (mkState w hs) → hs !! r = None → room (mkState w hs) →
  consistent (mkState w (<[r := 0]> hs)).
Proof.
  intros Hcons Hr Hroom. apply (consistent_rebind w hs Hcons).
  - rewrite map_size_insert_None by done. unfold room in Hroom; simpl in Hroom. lia.
  - intros p Hp. rewrite bound_to_insert, bound_to_fresh by done.
    rewrite decide_False by done. lia.
Qed.

Lemma consistent_forget (w : World) (hs : gmap nat Z) (r : nat) :
  consistent (mkState w hs) → hs !! r = Some 0 →
  consistent (mkState w (delete r hs)).
Proof.
  intros Hcons Hr. apply (consistent_rebind w hs Hcons).
  - destruct Hcons as (_ & _ & Hsize & _). simpl in Hsize.
    rewrite map_size_delete_Some by eauto. lia.
  - intros p Hp. rewrite (bound_to_delete hs r 0 p Hr).
    rewrite decide_False by done. lia.
Qed.

(** The first half of both assignments: [*this] lets go of its Snapshot. *)
Lemma consistent_let_go (w w1 : World) (hs : gmap nat Z) (dst : nat) (p : Z) (u : unit) :
  consistent (mkState w hs) → hs !! dst = Some p →
  (if negb (p =? 0) then getRidOfPointer p else mret tt) w = Ret u w1 →
  consistent (mkState w1 (<[dst := 0]> hs)) ∧
  (∀ x c1, heap w1 !! x = Some c1 → ∃ c, heap w !! x = Some c ∧ instance c1 = instance c).
Proof.
  intros Hcons Hdst Hrun. destruct (p =? 0) eqn:E; simpl in Hrun.
  - injection Hrun as <-. subst w1. apply Z.eqb_eq in E as ->.
    rewrite insert_id by done. eauto.
  - apply Z.eqb_neq in E.
    apply getRidOfPointer_returns in Hrun as (_ & cell & Hc & ->).
    destruct (consistent_release w hs Hcons dst p Hdst E) as (cell' & Hc' & Hnext).
    rewrite Hc in Hc'. injection Hc' as <-. split; [done|].
    intros x c1 Hx. simpl in Hx. unfold released in Hx.
    destruct (decide (x = p)) as [->|Hne].
    + destruct (u64 (refcount cell - 1) =? 0);
        [by rewrite lookup_delete_eq in Hx|].
      rewrite lookup_insert_eq in Hx. injection Hx as <-. eauto.
    + destruct (u64 (refcount cell - 1) =? 0);
        [rewrite lookup_delete_ne in Hx by done
        |rewrite lookup_insert_ne in Hx by done]; eauto.
Qed.

(** Every call keeps the invariant, and no call changes the payload of a
    Snapshot that stays allocated. *)
Lemma step_consistent (s s' : state) (c : call) :
  consistent s → step s c s' →
  consistent s' ∧
  (∀ x c1, heap (world s') !! x = Some c1 →
     heap (world s) !! x = None ∨
     ∃ c0, heap (world s) !! x = Some c0 ∧ instance c1 = instance c0).
Proof.
  intros Hcons Hstep. destruct s as [w hs].
  inversion Hstep as
    [s0 r p w' Hfresh Hroom Hrun
    |s0 c0 b w' Hplace Hrun
    |s0 c0 e w' Hplace Hrun
    |s0 r src p p' w' Hfresh Hroom Hsrc Hrun
    |s0 r src p p' left w' Hfresh Hroom Hsrc Hrun
    |s0 r p w' Hr Hrun
    |s0 dst src p q p' w' Hdst Hsrc Hrun
    |s0 dst src p q p' left w' Hdst Hsrc Hrun]; subst; simpl in *.
  - (* get *)
    pose proof Hcons as (Hs & _). pose proof Hs as (_ & [cell Hc] & _).
    simpl in Hs, Hc. unfold get in *. rewrite (safeInstance_settled w cell) in Hrun by done.
    injection Hrun as <- <-. split.
    + rewrite <- (insert_insert_eq hs r _ 0).
      apply consistent_acquire; [|by rewrite lookup_insert_eq|done].
      by apply consistent_declare.
    + intros x c1 Hx. simpl in Hx. right.
      destruct (decide (x = addressAndCopyCounter w)) as [->|Hne].
      * rewrite lookup_insert_eq in Hx. injection Hx as <-. eauto.
      * rewrite lookup_insert_ne in Hx by done. eauto.
  - (* a mutating call returns *)
    pose proof Hcons as (Hs & _). pose proof Hs as (_ & [cell Hc] & _).
    simpl in Hs, Hc.
    destruct (run_cases c0 w cell Hs Hplace Hc)
      as [(e & He & _)|[[He _]|[(d & t & He & Hd & _)|(He & _)]]];
      rewrite He in Hrun; try done; injection Hrun as <- <-; [by eauto|].
    destruct (Hplace d Hd) as [Hdu Hfree]. split; [by apply consistent_publish|].
    intros x c1 Hx. simpl in Hx. rewrite Hc in Hx.
    destruct (decide (x = d)) as [->|Hxd]; [by left|right].
    unfold released in Hx.
    destruct (decide (x = addressAndCopyCounter w)) as [->|Hxo].
    + destruct (u64 (refcount cell - 1) =? 0);
        [by rewrite lookup_delete_eq in Hx|].
      rewrite lookup_insert_eq in Hx. injection Hx as <-. eauto.
    + destruct (u64 (refcount cell - 1) =? 0);
        [rewrite lookup_delete_ne in Hx by done
        |rewrite lookup_insert_ne in Hx by done];
        rewrite lookup_insert_ne in Hx by done; eauto.
  - (* a mutating call throws *)
    pose proof Hcons as (Hs & _). pose proof Hs as (_ & [cell Hc] & _).
    simpl in Hs, Hc.
    destruct (run_cases c0 w cell Hs Hplace Hc)
      as [(e' & He & _)|[[He _]|[(d & t & He & Hd & _)|(He & _)]]];
      rewrite He in Hrun; try done. injection Hrun as <- <-. eauto.
  - (* copy construction *)
    unfold Reference_copy, mbind, M_bind, bind in Hrun.
    destruct (refcount_incr p w) as [u w1| | |] eqn:Hinc; try done.
    injection Hrun as <- <-.
    apply refcount_incr_returns in Hinc as (Hp & cell & Hc & ->). split.
    + rewrite <- (insert_insert_eq hs r _ 0).
      apply consistent_acquire; [|by rewrite lookup_insert_eq|done].
      by apply consistent_declare.
    + intros x c1 Hx. simpl in Hx. right.
      destruct (decide (x = p)) as [->|Hne].
      * rewrite lookup_insert_eq in Hx. injection Hx as <-. eauto.
      * rewrite lookup_insert_ne in Hx by done. eauto.
  - (* move construction *)
    assert (p' = p ∧ left = 0 ∧ w' = w) as (-> & -> & ->).
    { unfold Reference_move in Hrun.
      destruct (p =? 0) eqn:E; simpl in Hrun; injection Hrun as <- <- <-; [|done].
      apply Z.eqb_eq in E. by subst. }
    split; [|by eauto].
    assert (r ≠ src) as Hne by (intros ->; congruence).
    apply (consistent_rebind w hs Hcons).
    + rewrite map_size_insert_None by (by rewrite lookup_insert_ne).
      rewrite map_size_insert_Some by eauto. unfold room in Hroom; simpl in Hroom. lia.
    + intros x Hx. rewrite bound_to_insert.
      rewrite bound_to_fresh by (by rewrite lookup_insert_ne).
      rewrite bound_to_insert, (bound_to_delete hs src p x Hsrc).
      rewrite (decide_False (P := 0 = x)) by done. lia.
  - (* destruction *)
    unfold Reference_destroy in Hrun.
    rewrite <- (delete_insert_eq hs r 0).
    destruct (consistent_let_go w w' hs r p tt Hcons Hr Hrun) as [Hnext Hsame].
    split; [|by eauto].
    apply consistent_forget; [done|by rewrite lookup_insert_eq].
  - (* copy assignment *)
    unfold Reference_copy_assign, mbind, M_bind, bind in Hrun.
    destruct ((if negb (p =? 0) then getRidOfPointer p else mret tt) w)
      as [u w1| | |] eqn:Hgo; try done.
    destruct (consistent_let_go w w1 hs dst p u Hcons Hdst Hgo) as [Hmid Hsame].
    destruct (q =? 0) eqn:E; simpl in Hrun.
    + injection Hrun as <- <-. apply Z.eqb_eq in E as ->. split; [done|by eauto].
    + unfold mbind, M_bind, bind in Hrun.
      destruct (refcount_incr q w1) as [u' w2| | |] eqn:Hinc; try done.
      injection Hrun as <- <-.
      apply refcount_incr_returns in Hinc as (Hq & cell & Hc & ->). split.
      * rewrite <- (insert_insert_eq hs dst _ 0).
        apply consistent_acquire; [done|by rewrite lookup_insert_eq|done].
      * intros x c1 Hx. simpl in Hx. right.
        destruct (decide (x = q)) as [->|Hne].
        -- rewrite lookup_insert_eq in Hx. injection Hx as <-. simpl.
           by apply Hsame.
        -- rewrite lookup_insert_ne in Hx by done. by apply Hsame.
  - (* move assignment *)
    unfold Reference_move_assign, mbind, M_bind, bind in Hrun.
    destruct ((if negb (p =? 0) then getRidOfPointer p else mret tt) w)
      as [u w1| | |] eqn:Hgo; try done.
    injection Hrun as <- <- <-.
    destruct (consistent_let_go w w1 hs dst p u Hcons Hdst Hgo) as [Hmid Hsame].
    split; [|by eauto].
    destruct (decide (dst = src)) as [->|Hne].
    + by rewrite insert_insert_eq.
    + apply (consistent_rebind w1 _ Hmid).
      * destruct Hmid as (_ & _ & Hsize & _). simpl in Hsize.
        rewrite map_size_insert_Some in Hsize by eauto.
        rewrite map_size_insert_Some by (rewrite lookup_insert_ne by done; eauto).
        rewrite map_size_insert_Some by eauto. done.
      * intros x Hx. rewrite !bound_to_insert.
        rewrite delete_insert_ne by done. rewrite bound_to_insert.
        rewrite (bound_to_delete (delete dst hs) src q x)
          by (by rewrite lookup_delete_ne).
        rewrite delete_delete. rewrite !(decide_False (P := 0 = x)) by done. lia.
Qed.

Lemma steps_consistent (s s' : state) (cs : list call) :
  consistent s → steps s cs s' → consistent s'.
Proof.
  intros Hcons Hsteps. induction Hsteps as [|s c s' cs s'' Hstep _ IH]; [done|].
  apply IH. by apply (step_consistent s s' c).
Qed.

Lemma reachable_consistent (s : state) : reachable s → consistent s.
Proof.
  intros (s0 & cs & Hinit & Hsteps).
  eapply steps_consistent; [|done]. by apply consistent_initial.
Qed.

(** C9.  In every state a client can reach, the count of each live Snapshot
    is the number of handles bound to it, plus one for the Snapshot the
    container currently holds, and the deallocated Snapshots are those for
    which this number is zero. *)
Theorem reference_counts_match_owners (s : state) :
  reachable s →
  (∀ p cell, heap (world s) !! p = Some cell → refcount cell = owners s p) ∧
  (∀ p, p ≠ 0 → (heap (world s) !! p = None ↔ owners s p = 0)).
Proof.
  intros Hreach. apply reachable_consistent in Hreach as (_ & _ & _ & Hlive & Hdead).
  split; [|done]. intros p cell Hc. by destruct (Hlive p cell Hc).
Qed.

Lemma step_keeps_handle (s s' : state) (c : call) (r : nat) (p : Z) :
  step s c s' → ¬ disturbs r c → handles s !! r = Some p →
  handles s' !! r = Some p.
Proof.
  intros Hstep Hquiet Hr.
  inversion Hstep as
    [s0 r' q w' Hfresh Hroom Hrun
    |s0 c0 b w' Hplace Hrun
    |s0 c0 e w' Hplace Hrun
    |s0 r' src q q' w' Hfresh Hroom Hsrc Hrun
    |s0 r' src q q' left w' Hfresh Hroom Hsrc Hrun
    |s0 r' q w' Hr' Hrun
    |s0 dst src q1 q2 q' w' Hdst Hsrc Hrun
    |s0 dst src q1 q2 q' left w' Hdst Hsrc Hrun]; subst; simpl in *; try done.
  - rewrite lookup_insert_ne; [done|]. intros ->. congruence.
  - rewrite lookup_insert_ne; [done|]. intros ->. congruence.
  - rewrite lookup_insert_ne by (intros ->; congruence).
    by rewrite lookup_insert_ne.
  - by rewrite lookup_delete_ne.
  - by rewrite lookup_insert_ne.
  - rewrite !lookup_insert_ne; [done| |]; intros ->; tauto.
Qed.

Lemma consistent_handle_live (s : state) (r : nat) (p : Z) :
  consistent s → handles s !! r = Some p → p ≠ 0 →
  is_Some (heap (world s) !! p).
Proof.
  intros (_ & _ & _ & _ & Hdead) Hr Hp.
  destruct (heap (world s) !! p) eqn:Hc; [eauto|].
  apply (Hdead p Hp) in Hc. unfold owners in Hc.
  pose proof (bound_to_lookup _ r p Hr). case_decide; lia.
Qed.

(** A handle of a client is bound to a Snapshot that counts it, and the
    count is far from wrapping. *)
Lemma reachable_handle_counted (s : state) (r : nat) (h : Z) :
  reachable s → handles s !! r = Some h → h ≠ 0 →
  ∃ cell, heap (world s) !! h = Some cell ∧ 1 ≤ refcount cell < 2 ^ 64 - 1.
Proof.
  intros Hreach Hr Hh. pose proof (reachable_consistent s Hreach) as Hcons.
  destruct (consistent_handle_live s r h Hcons Hr Hh) as [cell Hc].
  exists cell. split; [done|].
  destruct Hcons as (_ & _ & Hsize & Hlive & _).
  destruct (Hlive h cell Hc) as [_ ->]. unfold owners.
  pose proof (bound_to_lookup _ r h Hr).
  pose proof (bound_to_range (handles s) h).
  unfold max_handles in Hsize. case_decide; lia.
Qed.

Lemma steps_keep_payload (s s' : state) (cs : list call) (r : nat) (p : Z)
    (cell : Internal) :
  consistent s → handles s !! r = Some p → p ≠ 0 →
  heap (world s) !! p = Some cell →
  steps s cs s' → Forall (fun c => ¬ disturbs r c) cs →
  handles s' !! r = Some p ∧
  ∃ cell', heap (world s') !! p = Some cell' ∧ instance cell' = instance cell.
Proof.
  intros Hcons Hr Hp Hc Hsteps. revert cell Hcons Hr Hc.
  induction Hsteps as [|s c s' cs s'' Hstep _ IH]; intros cell Hcons Hr Hc Hquiet.
  - eauto.
  - apply Forall_cons in Hquiet as [Hc1 Hrest].
    destruct (step_consistent s s' c Hcons Hstep) as [Hcons' Hsame].
    pose proof (step_keeps_handle s s' c r p Hstep Hc1 Hr) as Hr'.
    destruct (consistent_handle_live s' r p Hcons' Hr' Hp) as [cell' Hc'].
    destruct (Hsame p cell' Hc') as [Hnone|(c0 & Hc0 & Heq)]; [congruence|].
    rewrite Hc in Hc0. injection Hc0 as <-.
    destruct (IH cell' Hcons' Hr' Hc' Hrest) as (Hr'' & cell'' & Hc'' & Heq'').
    split; [done|]. exists cell''. split; [done|]. congruence.
Qed.

(** C4.  A handle obtained from [get] reads the payload that was published
    when [get] was called, whatever calls follow, as long as they do not end
    or rebind that very handle; and no call changes the payload of a Snapshot
    that was allocated before it and is allocated after it. *)
Theorem handle_keeps_its_payload (s0 s s' : state) (r : nat) (cs : list call) :
  reachable s0 → step s0 (Get r) s →
  steps s cs s' → Forall (fun c => ¬ disturbs r c) cs →
  (∃ p t,
     payload (world s0) = Some t ∧
     handles s !! r = Some p ∧ Reference_arrow p (world s) = Ret t (world s) ∧
     handles s' !! r = Some p ∧ Reference_arrow p (world s') = Ret t (world s')) ∧
  (∀ s1 c s2 x c1 c2,
     reachable s1 → step s1 c s2 →
     heap (world s1) !! x = Some c1 → heap (world s2) !! x = Some c2 →
     instance c2 = instance c1).
Proof.
  intros Hreach Hget Hsteps Hquiet. split.
  - pose proof (reachable_consistent s0 Hreach) as Hcons0.
    destruct (step_consistent s0 s (Get r) Hcons0 Hget) as [Hcons _].
    inversion Hget as [s1 r' p w' Hfresh Hroom Hrun| | | | | | |]; subst.
    pose proof Hcons0 as (Hs & _). pose proof Hs as (Hu & [cell Hc] & _).
    unfold get in Hrun. rewrite (safeInstance_settled _ cell) in Hrun by done.
    injection Hrun as <- <-.
    set (p := addressAndCopyCounter (world s0)) in *.
    assert (p ≠ 0) as Hp by (unfold user_pointer in Hu; lia).
    set (cell1 := mkInternal (u64 (refcount cell + 1)) (instance cell)).
    assert (heap (put_cell p cell1 (world s0)) !! p = Some cell1) as Hc1
      by (simpl; by rewrite lookup_insert_eq).
    assert (<[r:=p]> (handles s0) !! r = Some p) as Hr by apply lookup_insert_eq.
    destruct (steps_keep_payload _ s' cs r p cell1 Hcons Hr Hp Hc1 Hsteps Hquiet)
      as (Hr' & cell' & Hc' & Heq).
    exists p, (instance cell). split; [|split; [done|split; [|split; [done|]]]].
    + unfold payload. rewrite current_settled by done. fold p. by rewrite Hc.
    + unfold Reference_arrow, mbind, M_bind, bind. simpl.
      by rewrite (deref_live p _ cell1).
    + unfold Reference_arrow, mbind, M_bind, bind.
      rewrite (deref_live p _ cell') by done. unfold mret, M_ret, ret.
      by rewrite Heq.
  - intros s1 c s2 x c1 c2 Hreach1 Hstep Hx1 Hx2.
    destruct (step_consistent s1 s2 c (reachable_consistent s1 Hreach1) Hstep)
      as [_ Hsame].
    destruct (Hsame x c2 Hx2) as [Hnone|(c0 & Hc0 & Heq)]; congruence.
Qed.

Lemma bound_to_unbound (hs : gmap nat Z) (p : Z) :
  (∀ r q, hs !! r = Some q → q ≠ p) → bound_to hs p = 0.
Proof.
  intros Hnone. unfold bound_to.
  assert (filter (λ kv : nat * Z, kv.2 = p) hs = ∅) as ->.
  { apply map_empty_filter. intros r q Hr. simpl. by apply (Hnone r). }
  by rewrite map_size_empty.
Qed.

(** C8.  When no handle is bound to a Snapshot any more, the container's
    Snapshot is the only one allocated and its count is one; the destructor
    raises the count to two, the first release brings it back to one without
    freeing anything, the second release brings it to zero and frees the
    Snapshot: the free store is empty afterwards. *)
Theorem teardown_drains_last_snapshot (s : state) :
  reachable s →
  (∀ r p, handles s !! r = Some p → p = 0) →
  let p := current (world s) in
  ∃ cell w1 w2 w3,
    heap (world s) = {[p := cell]} ∧ refcount cell = 1 ∧
    safeInstance (world s) = Ret p w1 ∧
    heap w1 = {[p := mkInternal 2 (instance cell)]} ∧
    getRidOfPointer p w1 = Ret tt w2 ∧
    heap w2 = {[p := mkInternal 1 (instance cell)]} ∧
    getRidOfPointer p w2 = Ret tt w3 ∧
    heap w3 = ∅ ∧
    destroy (world s) = Ret tt w3.
Proof.
  intros Hreach Hnone p.
  pose proof (reachable_consistent s Hreach) as Hcons.
  pose proof Hcons as (Hs & _ & _ & Hlive & Hdead).
  pose proof Hs as (Hu & [cell Hc] & _).
  assert (p = addressAndCopyCounter (world s)) as Hp by (by apply current_settled).
  rewrite <- Hp in Hc.
  assert (p ≠ 0) as Hpz by (unfold user_pointer in Hu; lia).
  assert (∀ x, x ≠ 0 → bound_to (handles s) x = 0) as Hunbound.
  { intros x Hx. apply bound_to_unbound. intros r q Hr. by rewrite (Hnone r q Hr). }
  assert (refcount cell = 1) as Hrc.
  { destruct (Hlive p cell Hc) as [_ ->]. unfold owners.
    rewrite Hunbound by done. by rewrite decide_True. }
  assert (heap (world s) = {[p := cell]}) as Hheap.
  { apply map_eq. intros x. destruct (decide (x = p)) as [->|Hne].
    - by rewrite lookup_singleton_eq.
    - rewrite lookup_singleton_ne by done.
      destruct (decide (x = 0)) as [->|Hx].
      + destruct (heap (world s) !! 0) as [c|] eqn:E; [|done].
        destruct (Hlive 0 c E) as [H0 _]. unfold user_pointer in H0. lia.
      + apply (Hdead x Hx). unfold owners. rewrite Hunbound by done.
        by rewrite decide_False. }
  set (w1 := put_cell p (mkInternal 2 (instance cell)) (world s)).
  set (w2 := put_cell p (mkInternal 1 (instance cell)) (world s)).
  set (w3 := set_heap ∅ (world s)).
  assert (safeInstance (world s) = Ret p w1) as H1.
  { rewrite (safeInstance_settled _ cell), <- Hp, Hrc; by rewrite <- ?Hp. }
  assert (getRidOfPointer p w1 = Ret tt w2) as H2.
  { rewrite (getRidOfPointer_live p w1 (mkInternal 2 (instance cell)));
      [|done|by simpl; rewrite lookup_insert_eq].
    unfold released, w1, w2, put_cell, set_heap; simpl. by rewrite insert_insert_eq. }
  assert (getRidOfPointer p w2 = Ret tt w3) as H3.
  { rewrite (getRidOfPointer_live p w2 (mkInternal 1 (instance cell)));
      [|done|by simpl; rewrite lookup_insert_eq].
    unfold released, w2, w3, put_cell, set_heap; simpl.
    by rewrite Hheap, delete_insert_eq, delete_singleton_eq. }
  exists cell, w1, w2, w3.
  split; [done|]. split; [done|]. split; [done|].
  split; [by unfold w1; simpl; rewrite Hheap, insert_singleton_eq|].
  split; [done|].
  split; [by unfold w2; simpl; rewrite Hheap, insert_singleton_eq|].
  split; [done|]. split; [done|].
  unfold destroy, mbind, M_bind, bind. by rewrite H1, H2, H3.
Qed.

(** ** Sums over the threads *)

Section Totals.

Context {A : Type}.
Implicit Types (f g : A → Z) (l : list A).

Lemma total_cons f x l : total f (x :: l) = f x + total f l.
Proof. done. Qed.

Lemma total_insert f l (i : nat) (x y : A) :
  l !! i = Some x → total f (<[i := y]> l) = total f l - f x + f y.
Proof.
  revert i. induction l as [|z l IH]; intros [|i] Hi; simpl in *; try done.
  - injection Hi as ->. lia.
  - rewrite (IH i Hi). lia.
Qed.

Lemma total_delete f l (k : nat) (x : A) :
  l !! k = Some x → total f (delete k l) = total f l - f x.
Proof.
  revert k. induction l as [|z l IH]; intros [|k] Hk; simpl in *; try done.
  - injection Hk as ->. lia.
  - rewrite (IH k Hk). lia.
Qed.

Lemma total_nonneg f l : (∀ x, 0 ≤ f x) → 0 ≤ total f l.
Proof. intros Hf. induction l as [|z l IH]; simpl; [done|]. specialize (Hf z). lia. Qed.

Lemma total_elem_le f l (i : nat) (x : A) :
  (∀ x, 0 ≤ f x) → l !! i = Some x → f x ≤ total f l.
Proof.
  intros Hf. revert i. induction l as [|z l IH]; intros [|i] Hi; simpl in *; try done.
  - injection Hi as ->. pose proof (total_nonneg f l Hf). lia.
  - specialize (IH i Hi). specialize (Hf z). lia.
Qed.

Lemma total_two_le f l (i j : nat) (x y : A) :
  (∀ x, 0 ≤ f x) → i ≠ j → l !! i = Some x → l !! j = Some y →
  f x + f y ≤ total f l.
Proof.
  intros Hf Hne Hi Hj.
  pose proof (total_insert f l i x x Hi) as E.
  assert (<[i:=x]> l !! j = Some y) as Hj' by (by rewrite list_lookup_insert_ne).
  pose proof (total_delete f l i x Hi) as Ed.
  assert (∃ j', delete i l !! j' = Some y) as [j' Hj''].
  { destruct (decide (j < i)%nat).
    - exists j. by rewrite list_lookup_delete_lt.
    - exists (pred j). rewrite list_lookup_delete_ge by lia.
      replace (S (pred j)) with j by lia. done. }
  pose proof (total_elem_le f (delete i l) j' y Hf Hj''). lia.
Qed.

Lemma total_le f g l :
  (∀ i x, l !! i = Some x → f x ≤ g x) → total f l ≤ total g l.
Proof.
  induction l as [|z l IH]; intros Hfg; simpl; [done|].
  pose proof (Hfg 0%nat z eq_refl).
  assert (total f l ≤ total g l) by (apply IH; intros i x Hi; by apply (Hfg (S i))).
  lia.
Qed.

Lemma total_ext f g l :
  (∀ i x, l !! i = Some x → f x = g x) → total f l = total g l.
Proof.
  intros Hfg. apply Z.le_antisymm; apply total_le; intros i x Hi;
    rewrite (Hfg i x Hi); lia.
Qed.

Lemma total_zero f l :
  (∀ i x, l !! i = Some x → f x = 0) → total f l = 0.
Proof.
  intros Hf. rewrite (total_ext f (fun _ => 0) l Hf).
  clear Hf. induction l; simpl; lia.
Qed.

Lemma total_zero_inv f l (i : nat) (x : A) :
  (∀ x, 0 ≤ f x) → total f l = 0 → l !! i = Some x → f x = 0.
Proof.
  intros Hf Hz Hi. pose proof (total_elem_le f l i x Hf Hi). specialize (Hf x). lia.
Qed.

Lemma total_le_length f l :
  (∀ x, f x ≤ 1) → total f l ≤ Z.of_nat (length l).
Proof.
  intros Hf. induction l as [|z l IH]; simpl; [done|]. specialize (Hf z). lia.
Qed.

Lemma total_minus f g l :
  total (fun x => f x - g x) l = total f l - total g l.
Proof. induction l as [|z l IH]; simpl; lia. Qed.

Lemma total_replicate f (n : nat) (x : A) :
  total f (replicate n x) = Z.of_nat n * f x.
Proof. induction n as [|n IH]; simpl; [lia|]. rewrite IH. lia. Qed.

End Totals.

(** ** What each thread contributes to the sums *)

Lemma same_range (p q : Z) : 0 ≤ same p q ≤ 1.
Proof. unfold same. case_decide; lia. Qed.

Lemma same_refl (p : Z) : same p p = 1.
Proof. unfold same. by rewrite decide_True. Qed.

Lemma same_ne (p q : Z) : p ≠ q → same p q = 0.
Proof. intros Hne. unfold same. by rewrite decide_False. Qed.

Lemma same_one (p q : Z) : same p q = 1 → p = q.
Proof. unfold same. case_decide; [done|lia]. Qed.

Lemma held_nonneg (p : Z) (l : list Z) : 0 ≤ total (same p) l.
Proof. apply total_nonneg. intros x. apply same_range. Qed.

Lemma held_le_length (p : Z) (l : list Z) : total (same p) l ≤ Z.of_nat (length l).
Proof. apply total_le_length. intros x. apply same_range. Qed.

Lemma held_elem (p : Z) (l : list Z) : p ∈ l → 1 ≤ total (same p) l.
Proof.
  intros Hin. apply list_elem_of_lookup in Hin as [k Hk].
  pose proof (total_elem_le (same p) l k p (fun x => proj1 (same_range p x)) Hk) as Hle.
  by rewrite same_refl in Hle.
Qed.

Lemma refs_nonneg (p : Z) (t : thread) : 0 ≤ refs p t.
Proof.
  unfold refs. pose proof (held_nonneg p (held t)).
  destruct (at_pc t); try lia;
    match goal with |- context [same ?x ?y] => pose proof (same_range x y) end; lia.
Qed.

Lemma refs_le_holding (p : Z) (t : thread) : refs p t ≤ holding t + critical t.
Proof.
  unfold refs, holding, critical. pose proof (held_le_length p (held t)).
  destruct (at_pc t); try lia;
    match goal with |- context [same ?x ?y] => pose proof (same_range x y) end; lia.
Qed.

Lemma holding_nonneg (t : thread) : 0 ≤ holding t.
Proof. unfold holding. destruct (at_pc t); lia. Qed.

Lemma dying_range (p : Z) (t : thread) : 0 ≤ dying p t ≤ 1.
Proof. unfold dying. destruct (at_pc t); try lia; apply same_range. Qed.

Lemma critical_range (t : thread) : 0 ≤ critical t ≤ 1.
Proof. unfold critical. destruct (at_pc t); lia. Qed.

Lemma in_flight_range (t : thread) : 0 ≤ in_flight t ≤ 1.
Proof. unfold in_flight. destruct (flying t); lia. Qed.

Lemma fly_range (a : Z) (t : thread) : 0 ≤ fly a t ≤ in_flight t.
Proof. unfold fly, in_flight. destruct (flying t); [case_decide|]; lia. Qed.

Lemma superseded_range (a : Z) (t : thread) : 0 ≤ superseded a t ≤ critical t.
Proof.
  unfold superseded, critical.
  destruct (at_pc t); try lia;
    match goal with |- context [same ?x ?y] => pose proof (same_range x y) end; lia.
Qed.

Lemma drafting_range (p : Z) (t : thread) : 0 ≤ drafting p t ≤ critical t.
Proof.
  unfold drafting, critical.
  destruct (at_pc t); try lia;
    match goal with |- context [same ?x ?y] => pose proof (same_range x y) end; lia.
Qed.

Lemma drafting_le_refs (p : Z) (t : thread) : drafting p t ≤ refs p t.
Proof.
  unfold drafting, refs. pose proof (held_nonneg p (held t)).
  destruct (at_pc t); try lia;
    match goal with |- context [same ?x ?y] => pose proof (same_range x y) end; lia.
Qed.

Lemma debt_critical (t : thread) : critical t = 0 → debt t = 0.
Proof. unfold debt, critical. destruct (at_pc t); lia. Qed.

(** Only one thread is between its lock and its unlock. *)
Lemma total_of_the_writer (g : thread → Z) (ts : list thread) (i : nat) (t : thread) :
  (∀ t, critical t = 0 → g t = 0) →
  total critical ts ≤ 1 → ts !! i = Some t → critical t = 1 →
  total g ts = g t.
Proof.
  intros Hg Hone Hi Hcrit.
  set (idle := mkThread Idle [] : thread).
  pose proof (total_insert g ts i t idle Hi) as Eg.
  pose proof (total_insert critical ts i t idle Hi) as Ec.
  rewrite (Hg idle eq_refl) in Eg. change (critical idle) with 0 in Ec.
  assert (total critical (<[i:=idle]> ts) = 0) as Hz.
  { pose proof (total_nonneg critical (<[i:=idle]> ts)
                  (fun x => proj1 (critical_range x))). lia. }
  assert (total g (<[i:=idle]> ts) = 0) as Hgz.
  { apply total_zero. intros j x Hj. apply Hg.
    apply (total_zero_inv critical _ j x (fun x => proj1 (critical_range x)) Hz Hj). }
  lia.
Qed.

Lemma total_without_writer (g : thread → Z) (ts : list thread) :
  (∀ t, critical t = 0 → g t = 0) →
  total critical ts = 0 → total g ts = 0.
Proof.
  intros Hg Hz. apply total_zero. intros j x Hj. apply Hg.
  apply (total_zero_inv critical _ j x (fun x => proj1 (critical_range x)) Hz Hj).
Qed.

Lemma one_writer (ts : list thread) (i j : nat) (ti tj : thread) :
  total critical ts ≤ 1 → ts !! i = Some ti → ts !! j = Some tj →
  critical ti = 1 → critical tj = 1 → i = j.
Proof.
  intros Hone Hi Hj Hci Hcj. destruct (decide (i = j)) as [|Hne]; [done|].
  pose proof (total_two_le critical ts i j ti tj
                (fun x => proj1 (critical_range x)) Hne Hi Hj). lia.
Qed.

Lemma total_plus {A} (f g : A → Z) (l : list A) :
  total (fun x => f x + g x) l = total f l + total g l.
Proof. induction l as [|z l IH]; simpl; lia. Qed.

Lemma total_pos_inv {A} (f : A → Z) (l : list A) :
  0 < total f l → ∃ i x, l !! i = Some x ∧ 0 < f x.
Proof.
  induction l as [|z l IH]; simpl; [lia|]. intros Hpos.
  destruct (decide (0 < f z)) as [Hz|Hz].
  - by exists 0%nat, z.
  - destruct IH as (i & x & Hi & Hx); [lia|]. by exists (S i), x.
Qed.

Lemma address_mod (v : Z) : address v = v mod 2 ^ 48.
Proof. apply land_suffix. Qed.

Lemma address_user (p : Z) : user_pointer p → address p = p.
Proof.
  intros Hp. rewrite address_mod. apply Z.mod_small. unfold user_pointer in Hp. lia.
Qed.

Lemma getPointer_address (v : Z) : user_pointer (address v) → getPointer v = address v.
Proof.
  intros Hu. rewrite address_mod in *.
  rewrite (Z.div_mod v (2 ^ 48)) at 1 by lia.
  replace (2 ^ 48 * (v / 2 ^ 48) + v mod 2 ^ 48)
    with (v mod 2 ^ 48 + (v / 2 ^ 48) * 2 ^ 48) by lia.
  apply getPointer_packed. unfold user_pointer in Hu. lia.
Qed.

Lemma address_incr (v : Z) : address (u64 (v + increment)) = address v.
Proof. apply land_suffix_incr. Qed.

Lemma address_decr (v : Z) : address (u64 (v - increment)) = address v.
Proof. apply land_suffix_decr. Qed.

(** ** Consequences of the invariant *)

Section Consequences.

Variable s : system.
Hypothesis Hinv : invariant s.

Local Abbreviation ts := (threads s).
Local Abbreviation cur := (address (addressAndCopyCounter (shared s))).

Lemma critical_le_one : total critical ts ≤ 1.
Proof. rewrite (inv_mutex s Hinv). destruct (editMutex (shared s)); lia. Qed.

Lemma refs_total_bound (p : Z) : 0 ≤ total (refs p) ts ≤ max_handles + 1.
Proof.
  split; [apply total_nonneg, refs_nonneg|].
  pose proof (total_le (refs p) (fun t => holding t + critical t) ts
                (fun i x _ => refs_le_holding p x)) as Hle.
  rewrite total_plus in Hle.
  pose proof (inv_holding s Hinv). pose proof critical_le_one.  lia.
Qed.

Lemma count_bound (p : Z) (cell : Internal) :
  heap (shared s) !! p = Some cell → 0 ≤ refcount cell ≤ max_handles + 2.
Proof.
  intros Hc. pose proof (inv_counts s Hinv p) as Hp.  rewrite Hc in Hp.
  destruct Hp as [-> _]. pose proof (refs_total_bound p).
  pose proof (same_range p (address (addressAndCopyCounter (shared s)))).
  lia.
Qed.

Lemma live_of_refs (i : nat) (t : thread) (p : Z) :
  ts !! i = Some t → 1 ≤ refs p t →
  ∃ cell, heap (shared s) !! p = Some cell ∧ 1 ≤ refcount cell ∧ user_pointer p.
Proof.
  intros Hi Hr.
  pose proof (total_elem_le (refs p) ts i t (refs_nonneg p) Hi) as Hle.
  pose proof (inv_counts s Hinv p) as Hp. 
  destruct (heap (shared s) !! p) as [cell|] eqn:Hc.
  - exists cell. destruct Hp as [Hrc _]. split; [done|]. split.
    + pose proof (same_range p (address (addressAndCopyCounter (shared s)))). lia.
    + by apply (inv_heap s Hinv p cell).
  - destruct Hp as (_ & Hz & _). lia.
Qed.

Lemma cur_live :
  ∃ cell, heap (shared s) !! cur = Some cell ∧ 1 ≤ refcount cell ∧
          refcount cell = 1 + total (refs cur) ts.
Proof.
  pose proof (inv_counts s Hinv cur) as Hp. 
  destruct (heap (shared s) !! cur) as [cell|] eqn:Hc.
  - exists cell. destruct Hp as [Hrc _]. rewrite same_refl in Hrc.
    pose proof (refs_total_bound cur). split; [done|]. split; lia.
  - by destruct Hp as (Hne & _).
Qed.

Lemma fly_total_bound (a : Z) :
  0 ≤ total (fly a) ts ≤ total in_flight ts ∧
  total in_flight ts ≤ Z.of_nat (length ts).
Proof.
  split; [split|].
  - apply total_nonneg. intros x. apply fly_range.
  - apply total_le. intros i x _. apply fly_range.
  - apply total_le_length. intros x. apply in_flight_range.
Qed.

Lemma superseded_le_refs (a : Z) (t : thread) : superseded a t ≤ refs a t.
Proof.
  unfold superseded, refs. pose proof (held_nonneg a (held t)).
  destruct (at_pc t); try lia;
    match goal with |- context [same ?x ?y] => pose proof (same_range x y) end; lia.
Qed.

Lemma flying_live (i : nat) (t : thread) (v : Z) :
  ts !! i = Some t → flying t = Some v →
  ∃ cell, heap (shared s) !! address v = Some cell ∧ 1 ≤ refcount cell ∧
          user_pointer (address v) ∧ getPointer v = address v.
Proof.
  intros Hi Hv.
  destruct (inv_each s Hinv i t Hi) as [Hfly _].
  assert (∃ cell, heap (shared s) !! address v = Some cell ∧ 1 ≤ refcount cell)
    as (cell & Hc & Hrc).
  { destruct (Hfly v Hv) as [->|Hsup].
    - destruct cur_live as (cell & Hc & Hrc & _). eauto.
    - destruct (total_pos_inv (superseded (address v)) (threads s))
        as (j & tj & Hj & Hpos); [lia|].
      pose proof (superseded_le_refs (address v) tj).
      destruct (live_of_refs j tj (address v) Hj) as (cell & Hc & Hrc & _); [lia|].
      eauto. }
  pose proof (inv_heap s Hinv _ _ Hc) as Hu.
  exists cell. split; [done|]. split; [done|]. split; [done|].
  by apply getPointer_address.
Qed.

(** A new object belongs to the writer that builds it alone. *)
Lemma draft_private (j : nat) (tj : thread) (d : Z) :
  ts !! j = Some tj → drafting d tj = 1 →
  d ≠ cur ∧ total (refs d) ts = 1 ∧
  (∀ a, total (superseded a) ts = 0) ∧
  (∀ i t, ts !! i = Some t → i ≠ j → refs d t = 0).
Proof.
  intros Hj Hd.
  assert (critical tj = 1) as Hcrit
    by (pose proof (drafting_range d tj); pose proof (critical_range tj); lia).
  assert (d ≠ cur ∧ total (refs d) ts = 1) as [Hne Hone].
  { destruct (inv_each s Hinv j tj Hj) as [_ Hpc]. 
    unfold drafting in Hd.
    destruct (at_pc tj); try discriminate Hd;
      apply same_one in Hd as ->; tauto. }
  split; [done|]. split; [done|]. split.
  - intros a.
    rewrite (total_of_the_writer (superseded a) ts j tj); [| |apply critical_le_one|done..].
    + unfold superseded, drafting in *. destruct (at_pc tj); try done; lia.
    + intros t Ht. pose proof (superseded_range a t). lia.
  - intros i t Hi Hij.
    pose proof (total_two_le (refs d) ts i j t tj (refs_nonneg d) Hij Hi Hj).
    pose proof (drafting_le_refs d tj). pose proof (refs_nonneg d t). lia.
Qed.

End Consequences.

(** ** One step of one thread *)

Section Preservation.

Variables (s : system) (i : nat) (t : thread).
Hypothesis Hinv : invariant s.
Hypothesis Hi : threads s !! i = Some t.

Local Abbreviation ts := (threads s).
Local Abbreviation cur := (address (addressAndCopyCounter (shared s))).

Lemma lookup_updated (t' tj : thread) (j : nat) :
  <[i:=t']> ts !! j = Some tj →
  (j = i ∧ tj = t') ∨ (j ≠ i ∧ ts !! j = Some tj).
Proof.
  intros Hj. destruct (decide (j = i)) as [->|Hne].
  - left. split; [done|].
    rewrite list_lookup_insert_eq in Hj by (by apply lookup_lt_Some in Hi).
    by injection Hj.
  - right. split; [done|]. by rewrite list_lookup_insert_ne in Hj.
Qed.

(** The other threads stay as they should when the step changes neither the
    current address nor what the stepping thread contributes to
    [superseded], and gives it no reference to another writer's new
    object. *)
Lemma others_ok (t' : thread) (j : nat) (tj : thread) :
  (∀ a, superseded a t' = superseded a t) →
  (∀ d, drafting d tj = 1 → refs d t' = 0) →
  j ≠ i → ts !! j = Some tj →
  thread_ok cur (<[i:=t']> ts) tj.
Proof.
  intros Hsup Hrefs Hne Hj.
  assert (∀ a, total (superseded a) (<[i:=t']> ts) = total (superseded a) ts) as Esup.
  { intros a. rewrite (total_insert _ _ _ _ _ Hi), Hsup. lia. }
  assert (∀ d, drafting d tj = 1 →
               total (refs d) (<[i:=t']> ts) = total (refs d) ts) as Erefs.
  { intros d Hd. rewrite (total_insert _ _ _ _ _ Hi), (Hrefs d Hd).
    destruct (draft_private s Hinv j tj d Hj Hd) as (_ & _ & _ & Hprivate).
    rewrite (Hprivate i t Hi) by done. lia. }
  destruct (inv_each s Hinv j tj Hj) as [Hfly Hpc]. split.
  - intros v Hv. rewrite Esup. by apply Hfly.
  - unfold drafting in Erefs.
    destruct (at_pc tj); try done;
      rewrite Erefs by apply same_refl; done.
Qed.

Lemma others_ok_writer (t' : thread) (j : nat) (tj : thread) :
  critical t = 1 →
  (∀ a, superseded a t' = superseded a t) →
  j ≠ i → ts !! j = Some tj →
  thread_ok cur (<[i:=t']> ts) tj.
Proof.
  intros Hcrit Hsup Hne Hj. apply (others_ok t' j tj); [done| |done..].
  intros d Hd. exfalso. apply Hne. symmetry.
  apply (one_writer ts i j t tj (critical_le_one s Hinv) Hi Hj Hcrit).
  pose proof (drafting_range d tj). pose proof (critical_range tj). lia.
Qed.

Lemma others_ok_reader (t' : thread) (j : nat) (tj : thread) :
  (∀ a, superseded a t' = superseded a t) →
  (∀ d, refs d t' ≤ refs d t) →
  critical t = 0 →
  j ≠ i → ts !! j = Some tj →
  thread_ok cur (<[i:=t']> ts) tj.
Proof.
  intros Hsup Hle Hcrit Hne Hj. apply (others_ok t' j tj); [done| |done..].
  intros d Hd.
  destruct (draft_private s Hinv j tj d Hj Hd) as (_ & _ & _ & Hprivate).
  pose proof (Hprivate i t Hi ltac:(done)). pose proof (refs_nonneg d t').
  specialize (Hle d). lia.
Qed.

(** The invariant after thread [i] went from [t] to [t'] and the world to
    [w']: every sum changes by the difference of the two contributions. *)
Lemma invariant_delta (w' : World) (t' : thread) (pub' : list T) :
  let cur' := address (addressAndCopyCounter w') in
  total holding ts - holding t + holding t' ≤ max_handles →
  (∀ p cell, heap w' !! p = Some cell → user_pointer p) →
  user_pointer cur' →
  addressAndCopyCounter w' =
    cur' + (total (fly cur') ts - fly cur' t + fly cur' t') * 2 ^ 48 →
  (∀ p,
     match heap w' !! p with
     | Some cell =>
         refcount cell =
           same p cur' + (total (refs p) ts - refs p t + refs p t') ∧
         total (dying p) ts - dying p t + dying p t' =
           (if refcount cell =? 0 then 1 else 0)
     | None =>
         p ≠ cur' ∧
         total (refs p) ts - refs p t + refs p t' = 0 ∧
         total (dying p) ts - dying p t + dying p t' = 0
     end) →
  total critical ts - critical t + critical t' = (if editMutex w' then 1 else 0) →
  previousCopyCounter w' + (total debt ts - debt t + debt t') =
    (total in_flight ts - in_flight t + in_flight t') -
    (total (fly cur') ts - fly cur' t + fly cur' t') →
  thread_ok cur' (<[i:=t']> ts) t' →
  (∀ j tj, j ≠ i → ts !! j = Some tj → thread_ok cur' (<[i:=t']> ts) tj) →
  (∀ p cell,
     heap w' !! p = Some cell →
     total (drafting p) ts - drafting p t + drafting p t' = 0 →
     instance cell ∈ pub') →
  invariant (mkSystem w' (<[i:=t']> ts) pub').
Proof.
  intros cur' Hhold Hheap Hcur Hslot Hcounts Hmutex Hdrain Hself Hothers Hpub.
  split; simpl.
  - rewrite length_insert. apply (inv_threads s Hinv).
  - by rewrite (total_insert _ _ _ _ _ Hi).
  - done.
  - done.
  - by rewrite (total_insert _ _ _ _ _ Hi).
  - intros p. specialize (Hcounts p).
    by rewrite !(total_insert _ _ _ _ _ Hi).
  - by rewrite (total_insert _ _ _ _ _ Hi).
  - by rewrite !(total_insert _ _ _ _ _ Hi).
  - intros j tj Hj. destruct (lookup_updated t' tj j Hj) as [[-> ->]|[Hne Hj']];
      [done|by apply (Hothers j)].
  - intros p cell Hc Hd. apply (Hpub p cell Hc).
    by rewrite (total_insert _ _ _ _ _ Hi) in Hd.
Qed.


(** The counts when the step leaves the free store alone. *)
Lemma counts_kept (w' : World) (t' : thread) :
  heap w' = heap (shared s) →
  address (addressAndCopyCounter w') = cur →
  (∀ p, refs p t' = refs p t) → (∀ p, dying p t' = dying p t) →
  ∀ p,
    match heap w' !! p with
    | Some cell =>
        refcount cell =
          same p (address (addressAndCopyCounter w')) +
          (total (refs p) ts - refs p t + refs p t') ∧
        total (dying p) ts - dying p t + dying p t' =
          (if refcount cell =? 0 then 1 else 0)
    | None =>
        p ≠ address (addressAndCopyCounter w') ∧
        total (refs p) ts - refs p t + refs p t' = 0 ∧
        total (dying p) ts - dying p t + dying p t' = 0
    end.
Proof.
  intros -> -> Hrefs Hdying p. rewrite Hrefs, Hdying.
  pose proof (inv_counts s Hinv p) as Hp.
  destruct (heap (shared s) !! p); [destruct Hp; split|destruct Hp as (? & ? & ?); repeat split]; lia || done.
Qed.

(** The counts when the step rewrites the object at [q]. *)
Lemma counts_adjust (w' : World) (t' : thread) (q : Z) (cell cell' : Internal) :
  address (addressAndCopyCounter w') = cur →
  heap (shared s) !! q = Some cell →
  heap w' = <[q := cell']> (heap (shared s)) →
  refcount cell' = refcount cell + refs q t' - refs q t →
  dying q t' - dying q t =
    (if refcount cell' =? 0 then 1 else 0) - (if refcount cell =? 0 then 1 else 0) →
  (∀ p, p ≠ q → refs p t' = refs p t ∧ dying p t' = dying p t) →
  ∀ p,
    match heap w' !! p with
    | Some c =>
        refcount c =
          same p (address (addressAndCopyCounter w')) +
          (total (refs p) ts - refs p t + refs p t') ∧
        total (dying p) ts - dying p t + dying p t' =
          (if refcount c =? 0 then 1 else 0)
    | None =>
        p ≠ address (addressAndCopyCounter w') ∧
        total (refs p) ts - refs p t + refs p t' = 0 ∧
        total (dying p) ts - dying p t + dying p t' = 0
    end.
Proof.
  intros -> Hc -> Hrc Hdy Hother p.
  pose proof (inv_counts s Hinv p) as Hp.
  destruct (decide (p = q)) as [->|Hne].
  - rewrite lookup_insert_eq. rewrite Hc in Hp. destruct Hp as [Hp1 Hp2]. split; lia.
  - rewrite lookup_insert_ne by done. destruct (Hother p Hne) as [-> ->].
    destruct (heap (shared s) !! p);
      [destruct Hp; split|destruct Hp as (? & ? & ?); repeat split]; lia || done.
Qed.

(** The counts when the step frees the object at [q]. *)
Lemma counts_freed (w' : World) (t' : thread) (q : Z) :
  address (addressAndCopyCounter w') = cur →
  heap w' = delete q (heap (shared s)) →
  q ≠ cur →
  total (refs q) ts - refs q t + refs q t' = 0 →
  total (dying q) ts - dying q t + dying q t' = 0 →
  (∀ p, p ≠ q → refs p t' = refs p t ∧ dying p t' = dying p t) →
  ∀ p,
    match heap w' !! p with
    | Some c =>
        refcount c =
          same p (address (addressAndCopyCounter w')) +
          (total (refs p) ts - refs p t + refs p t') ∧
        total (dying p) ts - dying p t + dying p t' =
          (if refcount c =? 0 then 1 else 0)
    | None =>
        p ≠ address (addressAndCopyCounter w') ∧
        total (refs p) ts - refs p t + refs p t' = 0 ∧
        total (dying p) ts - dying p t + dying p t' = 0
    end.
Proof.
  intros -> -> Hq Hrefs Hdy Hother p.
  pose proof (inv_counts s Hinv p) as Hp.
  destruct (decide (p = q)) as [->|Hne].
  - by rewrite lookup_delete_eq.
  - rewrite lookup_delete_ne by done. destruct (Hother p Hne) as [-> ->].
    destruct (heap (shared s) !! p);
      [destruct Hp; split|destruct Hp as (? & ? & ?); repeat split]; lia || done.
Qed.

(** The published payloads when no payload changes and nothing stops being
    a draft. *)
Lemma published_kept (w' : World) (t' : thread) :
  (∀ p c', heap w' !! p = Some c' →
     total (drafting p) ts - drafting p t + drafting p t' = 0 →
     ∃ c, heap (shared s) !! p = Some c ∧ instance c = instance c' ∧
          total (drafting p) ts = 0) →
  ∀ p cell,
    heap w' !! p = Some cell →
    total (drafting p) ts - drafting p t + drafting p t' = 0 →
    instance cell ∈ published s.
Proof.
  intros Hsame p cell Hc Hd. destruct (Hsame p cell Hc Hd) as (c & Hc0 & <- & Hd0).
  by apply (inv_published s Hinv p c).
Qed.

Lemma slot_kept (w' : World) (t' : thread) :
  addressAndCopyCounter w' = addressAndCopyCounter (shared s) →
  (∀ a, fly a t' = fly a t) →
  addressAndCopyCounter w' =
    address (addressAndCopyCounter w') +
    (total (fly (address (addressAndCopyCounter w'))) ts
     - fly (address (addressAndCopyCounter w')) t
     + fly (address (addressAndCopyCounter w')) t') * 2 ^ 48.
Proof.
  intros -> Hfly. rewrite Hfly. pose proof (inv_slot s Hinv). lia.
Qed.

(** A step that changes neither the world nor any contribution of the
    thread, except that the thread may come to hold less. *)
Lemma step_quiet (t' : thread) :
  total holding ts - holding t + holding t' ≤ max_handles →
  (∀ a, fly a t' = fly a t) → in_flight t' = in_flight t →
  (∀ p, refs p t' = refs p t) → (∀ p, dying p t' = dying p t) →
  critical t' = critical t → debt t' = debt t →
  (∀ a, superseded a t' = superseded a t) →
  (∀ p, drafting p t' = drafting p t) →
  thread_ok cur ts t' →
  invariant (mkSystem (shared s) (<[i:=t']> ts) (published s)).
Proof.
  intros Hhold Hfly Hin Hrefs Hdy Hcrit Hdebt Hsup Hdraft Hself.
  assert (∀ a, total (superseded a) (<[i:=t']> ts) = total (superseded a) ts) as Esup.
  { intros a. rewrite (total_insert _ _ _ _ _ Hi), Hsup. lia. }
  assert (∀ d, total (refs d) (<[i:=t']> ts) = total (refs d) ts) as Erefs.
  { intros d. rewrite (total_insert _ _ _ _ _ Hi), Hrefs. lia. }
  apply invariant_delta; simpl.
  - done.
  - apply (inv_heap s Hinv).
  - apply (inv_current s Hinv).
  - by apply slot_kept.
  - by apply counts_kept.
  - rewrite Hcrit. pose proof (inv_mutex s Hinv). lia.
  - rewrite Hdebt, Hin, Hfly. pose proof (inv_drain s Hinv). lia.
  - destruct Hself as [Hf Hpc]. split.
    + intros v Hv. rewrite Esup. by apply Hf.
    + destruct (at_pc t'); try done; by rewrite Erefs.
  - intros j tj Hne Hj. apply (others_ok t' j tj); [done| |done..].
    intros d Hd. rewrite Hrefs.
    destruct (draft_private s Hinv j tj d Hj Hd) as (_ & _ & _ & Hprivate).
    by apply (Hprivate i t).
  - apply published_kept. intros p c' Hc Hd. exists c'.
    rewrite Hdraft in Hd. split; [done|]. split; [done|]. lia.
Qed.

Ltac hide_totals :=
  repeat match goal with
         | |- context [total ?f ?l] =>
             let x := fresh "sum" in set (x := total f l) in *
         end.

Ltac show_totals :=
  repeat match goal with
         | x := total _ _ |- _ => subst x
         end.

(** Computes what a thread at a known point contributes to each sum. *)
Ltac contributions Hpc :=
  hide_totals;
  unfold holding, fly, in_flight, flying, refs, dying, critical, debt,
    superseded, drafting;
  simpl; rewrite ?Hpc; simpl;
  show_totals.

Ltac quiet_step Hpc :=
  apply step_quiet; [contributions Hpc; try lia; try done..|].

Lemma system_unchanged :
  invariant (mkSystem (shared s) (<[i:=t]> ts) (published s)).
Proof. rewrite list_insert_id by done. by destruct s. Qed.

Lemma own_thread_ok : thread_ok cur ts t.
Proof. by apply (inv_each s Hinv i). Qed.

Lemma step_StartGet :
  at_pc t = Idle → total holding ts < max_handles →
  invariant (mkSystem (shared s)
               (<[i:=mkThread (R_cas (addressAndCopyCounter (shared s))) (held t)]> ts)
               (published s)).
Proof. intros Hpc Hroom. quiet_step Hpc. done. Qed.

Lemma step_R_cas_again (v : Z) :
  at_pc t = R_cas v →
  invariant (mkSystem (shared s)
               (<[i:=mkThread (R_cas (addressAndCopyCounter (shared s))) (held t)]> ts)
               (published s)).
Proof.
  intros Hpc. quiet_step Hpc; [pose proof (inv_holding s Hinv); lia|done].
Qed.

Lemma step_R_load (v o : Z) :
  at_pc t = R_load v o →
  invariant (mkSystem (shared s)
               (<[i:=mkThread (R_dec v o (addressAndCopyCounter (shared s))) (held t)]> ts)
               (published s)).
Proof.
  intros Hpc. quiet_step Hpc; [pose proof (inv_holding s Hinv); lia|].
  destruct own_thread_ok as [Hf Ho]. unfold flying in Hf. rewrite Hpc in Hf, Ho.
  split; [done|]. simpl. split; [done|]. intros Hne E. by rewrite E in Hne.
Qed.

Lemma step_R_dec_again (v o d : Z) :
  at_pc t = R_dec v o d →
  invariant (mkSystem (shared s)
               (<[i:=mkThread (R_dec v o (addressAndCopyCounter (shared s))) (held t)]> ts)
               (published s)).
Proof.
  intros Hpc. quiet_step Hpc; [pose proof (inv_holding s Hinv); lia|].
  destruct own_thread_ok as [Hf Ho]. unfold flying in Hf. rewrite Hpc in Hf, Ho.
  split; [done|]. simpl. split; [tauto|]. intros Hne E. by rewrite E in Hne.
Qed.

Lemma step_W_locked (c : mutation) :
  at_pc t = W_locked c →
  invariant (mkSystem (shared s)
               (<[i:=mkThread (W_verify c (getPointer (addressAndCopyCounter (shared s))))
                       (held t)]> ts)
               (published s)).
Proof.
  intros Hpc. quiet_step Hpc; [pose proof (inv_holding s Hinv); lia|].
  split; [done|]. simpl. apply getPointer_address, (inv_current s Hinv).
Qed.

Lemma step_W_verify (c : mutation) (o : Z) (next : pc) :
  at_pc t = W_verify c o → next = W_create c o ∨ next = W_unlock →
  invariant (mkSystem (shared s) (<[i:=mkThread next (held t)]> ts) (published s)).
Proof.
  intros Hpc Hnext. destruct own_thread_ok as [_ Ho]. rewrite Hpc in Ho.
  destruct Hnext as [-> | ->]; quiet_step Hpc;
    (pose proof (inv_holding s Hinv); lia) || done.
Qed.

Lemma step_W_create_fails (c : mutation) (o : Z) :
  at_pc t = W_create c o →
  invariant (mkSystem (shared s) (<[i:=mkThread W_unlock (held t)]> ts) (published s)).
Proof.
  intros Hpc. quiet_step Hpc; (pose proof (inv_holding s Hinv); lia) || done.
Qed.

Lemma step_W_modify_throws (c : mutation) (o d : Z) :
  at_pc t = W_modify c o d →
  invariant (mkSystem (shared s) (<[i:=mkThread (W_unwind d) (held t)]> ts) (published s)).
Proof.
  intros Hpc. destruct own_thread_ok as [_ Ho]. rewrite Hpc in Ho.
  quiet_step Hpc; [pose proof (inv_holding s Hinv); lia|].
  split; [done|]. simpl. tauto.
Qed.

(** A step that leaves the free store and the current address alone and
    gives the thread no new reference. *)
Lemma step_light (w' : World) (t' : thread) :
  heap w' = heap (shared s) →
  address (addressAndCopyCounter w') = cur →
  total holding ts - holding t + holding t' ≤ max_handles →
  addressAndCopyCounter w' =
    cur + (total (fly cur) ts - fly cur t + fly cur t') * 2 ^ 48 →
  (∀ p, refs p t' = refs p t) → (∀ p, dying p t' = dying p t) →
  total critical ts - critical t + critical t' = (if editMutex w' then 1 else 0) →
  previousCopyCounter w' + (total debt ts - debt t + debt t') =
    (total in_flight ts - in_flight t + in_flight t') -
    (total (fly cur) ts - fly cur t + fly cur t') →
  (∀ a, superseded a t' = superseded a t) →
  (∀ p, drafting p t' = drafting p t) →
  thread_ok cur ts t' →
  invariant (mkSystem w' (<[i:=t']> ts) (published s)).
Proof.
  intros Hheap Haddr Hhold Hslot Hrefs Hdy Hcrit Hdrain Hsup Hdraft Hself.
  assert (∀ a, total (superseded a) (<[i:=t']> ts) = total (superseded a) ts) as Esup.
  { intros a. rewrite (total_insert _ _ _ _ _ Hi), Hsup. lia. }
  assert (∀ d, total (refs d) (<[i:=t']> ts) = total (refs d) ts) as Erefs.
  { intros d. rewrite (total_insert _ _ _ _ _ Hi), Hrefs. lia. }
  apply invariant_delta; simpl; rewrite ?Haddr.
  - done.
  - rewrite Hheap. apply (inv_heap s Hinv).
  - apply (inv_current s Hinv).
  - done.
  - rewrite <- Haddr. by apply counts_kept.
  - done.
  - done.
  - destruct Hself as [Hf Hpc]. split.
    + intros v Hv. rewrite Esup. by apply Hf.
    + destruct (at_pc t'); try done; by rewrite Erefs.
  - intros j tj Hne Hj. apply (others_ok t' j tj); [done| |done..].
    intros d Hd. rewrite Hrefs.
    destruct (draft_private s Hinv j tj d Hj Hd) as (_ & _ & _ & Hprivate).
    by apply (Hprivate i t).
  - apply published_kept. intros p c' Hc Hd. exists c'.
    rewrite Hdraft in Hd. rewrite Hheap in Hc. split; [done|]. split; [done|]. lia.
Qed.

Lemma step_lock (c : mutation) :
  at_pc t = Idle → editMutex (shared s) = false →
  invariant (mkSystem (set_mutex true (shared s))
               (<[i:=mkThread (W_locked c) (held t)]> ts) (published s)).
Proof.
  intros Hpc Hm.
  pose proof (inv_holding s Hinv). pose proof (inv_slot s Hinv).
  pose proof (inv_mutex s Hinv) as Hmu. rewrite Hm in Hmu.
  pose proof (inv_drain s Hinv).
  apply step_light; simpl; try done; contributions Hpc; lia.
Qed.

Lemma step_unlock :
  at_pc t = W_unlock →
  invariant (mkSystem (set_mutex false (shared s))
               (<[i:=mkThread Idle (held t)]> ts) (published s)).
Proof.
  intros Hpc.
  pose proof (inv_holding s Hinv). pose proof (inv_slot s Hinv).
  pose proof (inv_drain s Hinv).
  assert (total critical ts = 1) as Hone.
  { pose proof (critical_le_one s Hinv).
    pose proof (total_elem_le critical ts i t (fun x => proj1 (critical_range x)) Hi) as Hle.
    unfold critical at 1 in Hle. rewrite Hpc in Hle. lia. }
  apply step_light; simpl; try done; contributions Hpc; lia.
Qed.

(** The first [compare_exchange_weak] succeeds: one more reader is counted
    under the current address. *)
Lemma step_R_cas (v : Z) :
  at_pc t = R_cas v → addressAndCopyCounter (shared s) = v →
  invariant (mkSystem (set_slot (u64 (v + increment)) (shared s))
               (<[i:=mkThread (R_incr v) (held t)]> ts) (published s)).
Proof.
  intros Hpc Hv. subst v.
  pose proof (inv_holding s Hinv). pose proof (inv_slot s Hinv) as Hslot.
  pose proof (inv_mutex s Hinv). pose proof (inv_drain s Hinv).
  pose proof (inv_threads s Hinv) as Hlen.
  pose proof (inv_current s Hinv) as Hu. unfold user_pointer in Hu.
  (* the thread was not counted yet *)
  pose proof (total_insert (fly cur) ts i t
                (mkThread (R_incr (addressAndCopyCounter (shared s))) (held t)) Hi)
    as Hnew.
  pose proof (fly_total_bound (mkSystem (shared s)
                 (<[i:=mkThread (R_incr (addressAndCopyCounter (shared s))) (held t)]> ts)
                 (published s)) cur)
    as Hb.
  simpl in Hb. rewrite length_insert in Hb.
  assert (fly cur t = 0) as Ht by (unfold fly, flying; by rewrite Hpc).
  assert (fly cur (mkThread (R_incr (addressAndCopyCounter (shared s))) (held t) : thread)
          = 1) as Ht'.
  { unfold fly, flying; simpl. by rewrite decide_True. }
  rewrite Ht, Ht' in Hnew.
  assert (u64 (addressAndCopyCounter (shared s) + increment)
          = addressAndCopyCounter (shared s) + increment) as Hu64.
  { apply u64_small. unfold increment. rewrite Hslot. lia. }
  apply step_light; simpl; rewrite ?address_incr; try done;
    try (rewrite ?Hu64, ?Ht, ?Ht'; contributions Hpc; unfold increment; done || lia).
  split; [|done]. intros v' [= <-]. by left.
Qed.

Lemma debt_total_bound : 0 ≤ total debt ts < 2 ^ 16.
Proof.
  pose proof (critical_le_one s Hinv) as Hone.
  destruct (decide (total critical ts = 0)) as [Hz|Hnz].
  - rewrite (total_without_writer debt ts debt_critical Hz). lia.
  - destruct (total_pos_inv critical ts) as (j & tj & Hj & Hpos).
    { pose proof (total_nonneg critical ts (fun x => proj1 (critical_range x))). lia. }
    assert (critical tj = 1) as Hcrit by (pose proof (critical_range tj); lia).
    rewrite (total_of_the_writer debt ts j tj debt_critical Hone Hj Hcrit).
    destruct (inv_each s Hinv j tj Hj) as [_ Hpc]. unfold debt.
    destruct (at_pc tj); lia.
Qed.

Lemma i32_small (x : Z) : - 2 ^ 31 ≤ x < 2 ^ 31 → i32 x = x.
Proof. intros Hx. unfold i32. rewrite Z.mod_small; lia. Qed.

Lemma drain_counter_range :
  - 2 ^ 16 < previousCopyCounter (shared s) < 2 ^ 16.
Proof.
  pose proof (inv_drain s Hinv). pose proof debt_total_bound.
  pose proof (fly_total_bound s cur). pose proof (inv_threads s Hinv). lia.
Qed.

(** The second loop, the address unchanged: the reader counts itself out. *)
Lemma step_R_dec_cas (v o d : Z) :
  at_pc t = R_dec v o d →
  address d = address v → addressAndCopyCounter (shared s) = d →
  invariant (mkSystem (set_slot (u64 (d - increment)) (shared s))
               (<[i:=mkThread Idle (o :: held t)]> ts) (published s)).
Proof.
  intros Hpc Hsame Hd. subst d.
  pose proof (inv_holding s Hinv). pose proof (inv_slot s Hinv) as Hslot.
  pose proof (inv_mutex s Hinv). pose proof (inv_drain s Hinv).
  pose proof (inv_current s Hinv) as Hu. unfold user_pointer in Hu.
  assert (fly cur t = 1) as Ht.
  { unfold fly, flying. rewrite Hpc. by rewrite decide_True. }
  pose proof (total_elem_le (fly cur) ts i t (fun x => proj1 (fly_range cur x)) Hi) as Hle.
  pose proof (fly_total_bound s cur) as Hb. pose proof (inv_threads s Hinv) as Hlen.
  assert (u64 (addressAndCopyCounter (shared s) - increment)
          = addressAndCopyCounter (shared s) - increment) as Hu64.
  { apply u64_small. unfold increment. rewrite Hslot. lia. }
  apply step_light; simpl; rewrite ?address_decr; try done;
    try (rewrite ?Hu64, ?Ht; contributions Hpc; unfold increment; done || lia).
Qed.

(** The second loop, the address replaced: the reader reports to the drain
    counter. *)
Lemma step_R_dec_abandoned (v o d : Z) :
  at_pc t = R_dec v o d → address d ≠ address v →
  invariant (mkSystem
               (set_previous (i32 (previousCopyCounter (shared s) - 1)) (shared s))
               (<[i:=mkThread Idle (o :: held t)]> ts) (published s)).
Proof.
  intros Hpc Hne.
  pose proof (inv_holding s Hinv). pose proof (inv_slot s Hinv) as Hslot.
  pose proof (inv_mutex s Hinv). pose proof (inv_drain s Hinv).
  pose proof drain_counter_range as Hrange.
  destruct own_thread_ok as [_ Hok]. rewrite Hpc in Hok. destruct Hok as [_ Haway].
  assert (fly cur t = 0) as Ht.
  { unfold fly, flying. rewrite Hpc. rewrite decide_False; [done|]. by apply Haway. }
  rewrite i32_small by lia.
  apply step_light; simpl; try done;
    try (rewrite ?Ht; contributions Hpc; done || lia).
Qed.

(** The writer hands the readers it caught to the drain counter. *)
Lemma step_W_transfer (o old : Z) :
  at_pc t = W_transfer o old →
  invariant (mkSystem
               (set_previous (i32 (previousCopyCounter (shared s) + Z.shiftr old 48))
                  (shared s))
               (<[i:=mkThread (W_spin o) (held t)]> ts) (published s)).
Proof.
  intros Hpc.
  pose proof (inv_holding s Hinv). pose proof (inv_slot s Hinv) as Hslot.
  pose proof (inv_mutex s Hinv). pose proof (inv_drain s Hinv) as Hdrain.
  pose proof (fly_total_bound s cur) as Hb. pose proof (inv_threads s Hinv) as Hlen.
  assert (critical t = 1) as Hcrit by (unfold critical; by rewrite Hpc).
  pose proof (total_of_the_writer debt ts i t debt_critical
                (critical_le_one s Hinv) Hi Hcrit) as Hdebt.
  assert (debt t = Z.shiftr old 48) as Ht by (unfold debt; by rewrite Hpc).
  rewrite i32_small by lia.
  apply step_light; simpl; try done;
    try (rewrite ?Ht; contributions Hpc; done || lia).
Qed.

(** A step that changes the count of the live object [q] and nothing else
    in the world. *)
Lemma step_recount (t' : thread) (q : Z) (cell cell' : Internal) :
  heap (shared s) !! q = Some cell →
  instance cell' = instance cell →
  refcount cell' = refcount cell + refs q t' - refs q t →
  dying q t' - dying q t =
    (if refcount cell' =? 0 then 1 else 0) - (if refcount cell =? 0 then 1 else 0) →
  (∀ p, p ≠ q → refs p t' = refs p t ∧ dying p t' = dying p t) →
  total holding ts - holding t + holding t' ≤ max_handles →
  (∀ a, fly a t' = fly a t) → in_flight t' = in_flight t →
  critical t' = critical t → debt t' = debt t →
  (∀ a, superseded a t' = superseded a t) →
  (∀ p, drafting p t = 0) → (∀ p, drafting p t' = 0) →
  (∀ j tj d, j ≠ i → ts !! j = Some tj → drafting d tj = 1 → refs d t' = 0) →
  thread_ok cur ts t' →
  invariant (mkSystem (put_cell q cell' (shared s)) (<[i:=t']> ts) (published s)).
Proof.
  intros Hc Hinst Hrc Hdy Hother Hhold Hfly Hin Hcrit Hdebt Hsup Hd Hd' Hdrafts Hself.
  assert (∀ a, total (superseded a) (<[i:=t']> ts) = total (superseded a) ts) as Esup.
  { intros a. rewrite (total_insert _ _ _ _ _ Hi), Hsup. lia. }
  apply invariant_delta.
  - done.
  - simpl. intros p c. destruct (decide (p = q)) as [->|Hne].
    + intros _. apply (inv_heap s Hinv q cell Hc).
    + rewrite lookup_insert_ne by done. apply (inv_heap s Hinv).
  - apply (inv_current s Hinv).
  - by apply slot_kept.
  - apply (counts_adjust _ t' q cell cell'); done || lia.
  - simpl. rewrite Hcrit. pose proof (inv_mutex s Hinv). lia.
  - simpl. rewrite Hdebt, Hin, Hfly. pose proof (inv_drain s Hinv). lia.
  - destruct Hself as [Hf Hpc]. split.
    + intros v Hv. rewrite Esup. by apply Hf.
    + unfold drafting in Hd'.
      destruct (at_pc t'); try done;
        match goal with d : Z |- _ => specialize (Hd' d) end;
        rewrite ?same_refl in Hd'; lia.
  - intros j tj Hne Hj. apply (others_ok t' j tj); [done| |done..].
    intros d Hdraft. by apply (Hdrafts j tj d).
  - apply published_kept. intros p c' Hp Hz. rewrite Hd, Hd' in Hz.
    simpl in Hp. destruct (decide (p = q)) as [->|Hne].
    + rewrite lookup_insert_eq in Hp. injection Hp as <-.
      exists cell. split; [done|]. split; [done|]. lia.
    + rewrite lookup_insert_ne in Hp by done.
      exists c'. split; [done|]. split; [done|]. lia.
Qed.

Lemma live_lookup (p : Z) (cell : Internal) :
  heap (shared s) !! p = Some cell → live (shared s) p = Some cell.
Proof.
  intros Hc. unfold live. rewrite decide_False; [done|].
  pose proof (inv_heap s Hinv p cell Hc) as Hu. unfold user_pointer in Hu. lia.
Qed.

Lemma total_same_delete (p q : Z) (l : list Z) (k : nat) :
  l !! k = Some q → total (same p) (delete k l) = total (same p) l - same p q.
Proof. apply total_delete. Qed.

(** [obtained->refcount++]: the Snapshot is alive, because the container or
    the writer that replaced it still holds its reference. *)
Lemma step_R_incr (v : Z) :
  at_pc t = R_incr v →
  ∃ cell,
    live (shared s) (getPointer v) = Some cell ∧
    invariant (mkSystem
                 (put_cell (getPointer v)
                    (mkInternal (u64 (refcount cell + 1)) (instance cell)) (shared s))
                 (<[i:=mkThread (R_load v (getPointer v)) (held t)]> ts) (published s)).
Proof.
  intros Hpc.
  assert (flying t = Some v) as Hfly by (unfold flying; by rewrite Hpc).
  destruct (flying_live s Hinv i t v Hi Hfly) as (cell & Hc & Hrc & Hu & Hg).
  rewrite Hg. exists cell. split; [by apply live_lookup|].
  pose proof (count_bound s Hinv _ cell Hc) as Hbound.
  pose proof (inv_holding s Hinv).
  assert (u64 (refcount cell + 1) = refcount cell + 1) as Hu64
    by (apply u64_small; unfold max_handles in Hbound; lia).
  destruct own_thread_ok as [Hwhere _].
  apply (step_recount _ (address v) cell); simpl; rewrite ?Hu64;
    try (contributions Hpc; rewrite ?same_refl; done || lia).
  - assert ((refcount cell + 1 =? 0) = false) as -> by lia.
    assert ((refcount cell =? 0) = false) as -> by lia.
    contributions Hpc. lia.
  - intros p Hne. contributions Hpc. rewrite same_ne by done. split; [lia|done].
  - intros j tj d Hne Hj Hd.
    destruct (draft_private s Hinv j tj d Hj Hd) as (Hcur & _ & Hsup & Hprivate).
    pose proof (Hprivate i t Hi ltac:(done)) as Hzero.
    revert Hzero. contributions Hpc. intros Hzero.
    destruct (Hwhere v Hfly) as [E|E]; [|rewrite Hsup in E; lia].
    rewrite same_ne; [lia|]. by rewrite E.
  - split; [|done]. intros v' [= <-]. by apply Hwhere.
Qed.

(** A handle is destroyed: [--refcount], then [delete] if that gave zero. *)
Lemma step_Release (k : nat) (p : Z) :
  at_pc t = Idle → held t !! k = Some p →
  p ≠ 0 ∧
  ∃ cell,
    live (shared s) p = Some cell ∧
    invariant (mkSystem
                 (put_cell p (mkInternal (u64 (refcount cell - 1)) (instance cell))
                    (shared s))
                 (<[i:=mkThread (if u64 (refcount cell - 1) =? 0 then H_delete p else Idle)
                         (delete k (held t))]> ts)
                 (published s)).
Proof.
  intros Hpc Hk.
  assert (1 ≤ refs p t) as Hown.
  { unfold refs. rewrite Hpc.
    pose proof (held_elem p (held t) (list_elem_of_lookup_2 _ _ _ Hk)). lia. }
  destruct (live_of_refs s Hinv i t p Hi Hown) as (cell & Hc & Hrc & Hu).
  split; [unfold user_pointer in Hu; lia|].
  exists cell. split; [by apply live_lookup|].
  pose proof (count_bound s Hinv _ cell Hc) as Hbound.
  pose proof (inv_holding s Hinv).
  assert (u64 (refcount cell - 1) = refcount cell - 1) as Hu64
    by (apply u64_small; unfold max_handles in Hbound; lia).
  rewrite Hu64.
  assert (Z.of_nat (length (delete k (held t))) = Z.of_nat (length (held t)) - 1) as Hlen.
  { rewrite length_delete by eauto.
    pose proof (lookup_lt_Some _ _ _ Hk). lia. }
  assert (∀ x, total (same x) (delete k (held t)) = total (same x) (held t) - same x p)
    as Hheld by (intros x; by apply total_same_delete).
  assert ((refcount cell =? 0) = false) as Hnz by lia.
  apply (step_recount _ p cell); simpl;
    try (destruct (refcount cell - 1 =? 0); contributions Hpc;
         rewrite ?Hlen, ?Hheld, ?same_refl; done || lia).
  - rewrite Hnz. destruct (refcount cell - 1 =? 0); contributions Hpc;
      rewrite ?same_refl; lia.
  - intros x Hne.
    destruct (refcount cell - 1 =? 0); contributions Hpc;
      rewrite Hheld, ?(same_ne x p) by done; split; lia.
  - intros j tj d Hne Hj Hd.
    destruct (draft_private s Hinv j tj d Hj Hd) as (_ & _ & _ & Hprivate).
    pose proof (Hprivate i t Hi ltac:(done)) as Hzero.
    revert Hzero. pose proof (same_range d p).
    destruct (refcount cell - 1 =? 0); contributions Hpc; rewrite Hheld;
      pose proof (held_nonneg d (delete k (held t))) as Hnn;
      rewrite Hheld in Hnn; lia.
Qed.

(** The writer gives up the container's reference to the old Snapshot. *)
Lemma step_W_release (o : Z) :
  at_pc t = W_release o →
  ∃ cell,
    live (shared s) o = Some cell ∧
    invariant (mkSystem
                 (put_cell o (mkInternal (u64 (refcount cell - 1)) (instance cell))
                    (shared s))
                 (<[i:=mkThread (if u64 (refcount cell - 1) =? 0 then W_delete o
                                 else W_unlock) (held t)]> ts)
                 (published s)).
Proof.
  intros Hpc.
  assert (1 ≤ refs o t) as Hown.
  { unfold refs. rewrite Hpc, same_refl. pose proof (held_nonneg o (held t)). lia. }
  destruct (live_of_refs s Hinv i t o Hi Hown) as (cell & Hc & Hrc & Hu).
  exists cell. split; [by apply live_lookup|].
  pose proof (count_bound s Hinv _ cell Hc) as Hbound.
  pose proof (inv_holding s Hinv).
  assert (u64 (refcount cell - 1) = refcount cell - 1) as Hu64
    by (apply u64_small; unfold max_handles in Hbound; lia).
  rewrite Hu64.
  assert ((refcount cell =? 0) = false) as Hnz by lia.
  assert (critical t = 1) as Hcrit by (unfold critical; by rewrite Hpc).
  apply (step_recount _ o cell); simpl;
    try (destruct (refcount cell - 1 =? 0); contributions Hpc;
         rewrite ?same_refl; done || lia).
  - rewrite Hnz. destruct (refcount cell - 1 =? 0); contributions Hpc;
      rewrite ?same_refl; lia.
  - intros x Hne.
    destruct (refcount cell - 1 =? 0); contributions Hpc;
      rewrite ?(same_ne x o) by done; split; lia.
  - intros j tj d Hne Hj Hd. exfalso. apply Hne. symmetry.
    apply (one_writer ts i j t tj (critical_le_one s Hinv) Hi Hj Hcrit).
    pose proof (drafting_range d tj). pose proof (critical_range tj). lia.
Qed.

(** A step that frees the object [q], which nobody refers to any more. *)
Lemma step_free (t' : thread) (q : Z) :
  q ≠ cur →
  total (refs q) ts - refs q t + refs q t' = 0 →
  total (dying q) ts - dying q t + dying q t' = 0 →
  (∀ p, p ≠ q → refs p t' = refs p t ∧ dying p t' = dying p t) →
  (∀ p, refs p t' ≤ refs p t) →
  holding t' = holding t →
  (∀ a, fly a t' = fly a t) → in_flight t' = in_flight t →
  critical t' = critical t → debt t' = debt t →
  (∀ a, superseded a t' = superseded a t) →
  (∀ p, p ≠ q → drafting p t = 0) → (∀ p, drafting p t' = 0) →
  thread_ok cur ts t' →
  invariant (mkSystem (free_cell q (shared s)) (<[i:=t']> ts) (published s)).
Proof.
  intros Hq Hrefs Hdy Hother Hle Hhold Hfly Hin Hcrit Hdebt Hsup Hd Hd' Hself.
  assert (∀ a, total (superseded a) (<[i:=t']> ts) = total (superseded a) ts) as Esup.
  { intros a. rewrite (total_insert _ _ _ _ _ Hi), Hsup. lia. }
  apply invariant_delta.
  - rewrite Hhold. pose proof (inv_holding s Hinv). lia.
  - simpl. intros p c Hp. apply lookup_delete_Some in Hp as [_ Hp].
    by apply (inv_heap s Hinv p c).
  - apply (inv_current s Hinv).
  - by apply slot_kept.
  - by apply (counts_freed _ t' q).
  - simpl. rewrite Hcrit. pose proof (inv_mutex s Hinv). lia.
  - simpl. rewrite Hdebt, Hin, Hfly. pose proof (inv_drain s Hinv). lia.
  - destruct Hself as [Hf Hpc]. split.
    + intros v Hv. rewrite Esup. by apply Hf.
    + unfold drafting in Hd'.
      destruct (at_pc t'); try done;
        match goal with d : Z |- _ => specialize (Hd' d) end;
        rewrite ?same_refl in Hd'; lia.
  - intros j tj Hne Hj. apply (others_ok t' j tj); [done| |done..].
    intros d Hdraft.
    destruct (draft_private s Hinv j tj d Hj Hdraft) as (_ & _ & _ & Hprivate).
    pose proof (Hprivate i t Hi ltac:(done)). pose proof (refs_nonneg d t').
    specialize (Hle d). lia.
  - apply published_kept. intros p c' Hp Hz. simpl in Hp.
    apply lookup_delete_Some in Hp as [Hne Hp].
    rewrite Hd, Hd' in Hz by done.
    exists c'. split; [done|]. split; [done|]. lia.
Qed.

Lemma dying_is_dead (p : Z) :
  dying p t = 1 →
  ∃ cell, heap (shared s) !! p = Some cell ∧ p ≠ cur ∧
          total (refs p) ts = 0 ∧ total (dying p) ts = 1.
Proof.
  intros Hd.
  pose proof (total_elem_le (dying p) ts i t (fun x => proj1 (dying_range p x)) Hi) as Hle.
  pose proof (inv_counts s Hinv p) as Hp.
  destruct (heap (shared s) !! p) as [cell|]; [|lia].
  exists cell. split; [done|]. destruct Hp as [Hrc Hdy].
  destruct (refcount cell =? 0) eqn:E; [|lia]. apply Z.eqb_eq in E.
  pose proof (refs_total_bound s Hinv p). pose proof (same_range p cur).
  split; [|split; [lia|done]]. intros ->. rewrite same_refl in Hrc. lia.
Qed.

Lemma step_H_delete (p : Z) :
  at_pc t = H_delete p →
  ∃ cell,
    live (shared s) p = Some cell ∧
    invariant (mkSystem (free_cell p (shared s))
                 (<[i:=mkThread Idle (held t)]> ts) (published s)).
Proof.
  intros Hpc.
  assert (dying p t = 1) as Hd by (unfold dying; by rewrite Hpc, same_refl).
  destruct (dying_is_dead p Hd) as (cell & Hc & Hne & Hrefs & Hdy).
  exists cell. split; [by apply live_lookup|].
  apply step_free; try done;
    try (contributions Hpc; rewrite ?same_refl; done || lia).
  intros x Hx. contributions Hpc. by rewrite same_ne.
Qed.

Lemma step_W_delete (o : Z) :
  at_pc t = W_delete o →
  ∃ cell,
    live (shared s) o = Some cell ∧
    invariant (mkSystem (free_cell o (shared s))
                 (<[i:=mkThread W_unlock (held t)]> ts) (published s)).
Proof.
  intros Hpc.
  assert (dying o t = 1) as Hd by (unfold dying; by rewrite Hpc, same_refl).
  destruct (dying_is_dead o Hd) as (cell & Hc & Hne & Hrefs & Hdy).
  exists cell. split; [by apply live_lookup|].
  apply step_free; try done;
    try (contributions Hpc; rewrite ?same_refl; done || lia).
  intros x Hx. contributions Hpc. by rewrite same_ne.
Qed.

(** [~DuplicateHolder] after the modifier threw. *)
Lemma step_W_unwind (d : Z) :
  at_pc t = W_unwind d →
  ∃ cell,
    live (shared s) d = Some cell ∧
    invariant (mkSystem (free_cell d (shared s))
                 (<[i:=mkThread W_unlock (held t)]> ts) (published s)).
Proof.
  intros Hpc.
  destruct own_thread_ok as [_ Hok]. rewrite Hpc in Hok. destruct Hok as [Hne Hone].
  pose proof (inv_counts s Hinv d) as Hd.
  destruct (heap (shared s) !! d) as [cell|] eqn:Hc; [|lia].
  destruct Hd as [Hrc Hdy]. rewrite same_ne in Hrc by done.
  assert ((refcount cell =? 0) = false) as Hnz by lia. rewrite Hnz in Hdy.
  exists cell. split; [by apply live_lookup|].
  pose proof (total_elem_le (refs d) ts i t (refs_nonneg d) Hi) as Hle.
  pose proof (held_nonneg d (held t)) as Hheld.
  revert Hle. contributions Hpc. rewrite same_refl. intros Hle.
  apply step_free; try done;
    try (contributions Hpc; rewrite ?same_refl; done || lia).
  - intros x Hx. contributions Hpc. rewrite same_ne by done. split; [lia|done].
  - intros x. contributions Hpc. pose proof (same_range x d). lia.
  - intros x Hx. contributions Hpc. by rewrite same_ne.
Qed.

Lemma placeable_fresh (h : gmap Z Internal) (p : Z) :
  placeable h (Some p) = true → user_pointer p ∧ h !! p = None.
Proof.
  unfold placeable, user_pointer. intros Hp.
  apply andb_prop in Hp as [Hp Hfree]. apply andb_prop in Hp as [Hlo Hhi].
  split; [lia|]. by destruct (h !! p).
Qed.

(** [new Internal(...)]: the writer owns the one reference to its new
    object. *)
Lemma step_W_create (c : mutation) (o p : Z) (fresh : T) :
  at_pc t = W_create c o → placeable (heap (shared s)) (Some p) = true →
  invariant (mkSystem (put_cell p (mkInternal 1 fresh) (shared s))
               (<[i:=mkThread (if modifies c then W_modify c o p else W_exchange c o p)
                       (held t)]> ts)
               (published s)).
Proof.
  intros Hpc Hplace. apply placeable_fresh in Hplace as [Hu Hfree].
  destruct own_thread_ok as [_ Ho]. rewrite Hpc in Ho.
  pose proof (inv_counts s Hinv p) as Hp. rewrite Hfree in Hp.
  destruct Hp as (Hne & Hrefs & Hdy).
  pose proof (total_elem_le (refs p) ts i t (refs_nonneg p) Hi) as Hle.
  pose proof (refs_nonneg p t) as Hnn.
  assert (critical t = 1) as Hcrit by (unfold critical; by rewrite Hpc).
  assert (total (same p) (held t) = 0) as Hheld.
  { revert Hle Hnn. contributions Hpc. lia. }
  set (t' := mkThread (if modifies c then W_modify c o p else W_exchange c o p) (held t)).
  assert (∀ x, refs x t' = refs x t + same x p) as Erefs
    by (intros x; unfold t'; destruct (modifies c); contributions Hpc; lia).
  assert (∀ x, drafting x t' = same x p) as Edraft
    by (intros x; unfold t'; destruct (modifies c); contributions Hpc; lia).
  assert (∀ x, dying x t' = dying x t) as Edy
    by (intros x; unfold t'; destruct (modifies c); contributions Hpc; lia).
  apply invariant_delta.
  - pose proof (inv_holding s Hinv).
    unfold t'; destruct (modifies c); contributions Hpc; lia.
  - simpl. intros x cx. destruct (decide (x = p)) as [->|Hx]; [done|].
    rewrite lookup_insert_ne by done. apply (inv_heap s Hinv).
  - apply (inv_current s Hinv).
  - apply slot_kept; [done|].
    intros x. unfold t'; destruct (modifies c); contributions Hpc; done.
  - intros x. simpl. rewrite Erefs, Edy.
    destruct (decide (x = p)) as [->|Hx].
    + rewrite lookup_insert_eq. simpl. rewrite same_refl, same_ne by done. lia.
    + rewrite lookup_insert_ne, (same_ne x p) by done.
      pose proof (inv_counts s Hinv x) as Hold.
      destruct (heap (shared s) !! x);
        [destruct Hold; split|destruct Hold as (? & ? & ?); repeat split]; lia || done.
  - simpl. pose proof (inv_mutex s Hinv).
    unfold t'; destruct (modifies c); contributions Hpc; lia.
  - simpl. pose proof (inv_drain s Hinv).
    unfold t'; destruct (modifies c); contributions Hpc; lia.
  - assert (total (refs p) (<[i:=t']> ts) = 1) as Hone.
    { rewrite (total_insert _ _ _ _ _ Hi), Erefs, same_refl. lia. }
    split; [by unfold t'; destruct (modifies c)|].
    unfold t'; destruct (modifies c); simpl; done.
  - intros j tj Hne' Hj. apply (others_ok_writer t' j tj); [done| |done..].
    intros x. unfold t'; destruct (modifies c); contributions Hpc; done.
  - apply published_kept. intros x c' Hx Hz. simpl in Hx.
    rewrite Edraft in Hz.
    assert (drafting x t = 0) as Hdt by (contributions Hpc; done).
    pose proof (total_nonneg (drafting x) ts (fun y => proj1 (drafting_range x y))).
    pose proof (same_range x p).
    destruct (decide (x = p)) as [->|Hxp]; [rewrite same_refl in Hz; lia|].
    rewrite lookup_insert_ne in Hx by done.
    exists c'. split; [done|]. split; [done|]. lia.
Qed.

(** The modifier has run on the new object. *)
Lemma step_W_modify (c : mutation) (o d : Z) (changed : T) :
  at_pc t = W_modify c o d →
  ∃ cell,
    live (shared s) d = Some cell ∧
    invariant (mkSystem (put_cell d (mkInternal (refcount cell) changed) (shared s))
                 (<[i:=mkThread (W_exchange c o d) (held t)]> ts) (published s)).
Proof.
  intros Hpc.
  destruct own_thread_ok as [_ Hok]. rewrite Hpc in Hok.
  destruct Hok as (Ho & Hne & Hone).
  pose proof (inv_counts s Hinv d) as Hd.
  destruct (heap (shared s) !! d) as [cell|] eqn:Hc; [|lia].
  exists cell. split; [by apply live_lookup|].
  assert (critical t = 1) as Hcrit by (unfold critical; by rewrite Hpc).
  set (t' := mkThread (W_exchange c o d) (held t) : thread).
  assert (∀ x, refs x t' = refs x t) as Erefs by (intros x; contributions Hpc; done).
  apply invariant_delta.
  - pose proof (inv_holding s Hinv). contributions Hpc. lia.
  - simpl. intros x cx. destruct (decide (x = d)) as [->|Hx].
    + intros _. by apply (inv_heap s Hinv d cell).
    + rewrite lookup_insert_ne by done. apply (inv_heap s Hinv).
  - apply (inv_current s Hinv).
  - apply slot_kept; [done|]. intros x. contributions Hpc. done.
  - apply (counts_adjust _ t' d cell (mkInternal (refcount cell) changed));
      try done; simpl; try (contributions Hpc; lia);
      try (intros x Hx; contributions Hpc; done).
  - simpl. pose proof (inv_mutex s Hinv). contributions Hpc. lia.
  - simpl. pose proof (inv_drain s Hinv). contributions Hpc. lia.
  - split; [done|]. simpl. rewrite (total_insert _ _ _ _ _ Hi), Erefs.
    split; [done|]. split; [done|]. lia.
  - intros j tj Hne' Hj. apply (others_ok_writer t' j tj); [done| |done..].
    intros x. contributions Hpc. done.
  - apply published_kept. intros x c' Hx Hz. simpl in Hx.
    assert (drafting x t' = drafting x t) as Edraft by (contributions Hpc; done).
    rewrite Edraft in Hz.
    destruct (decide (x = d)) as [->|Hxd].
    + pose proof (total_elem_le (drafting d) ts i t
                    (fun y => proj1 (drafting_range d y)) Hi) as Hle.
      revert Hle. contributions Hpc. rewrite same_refl. lia.
    + rewrite lookup_insert_ne in Hx by done.
      exists c'. split; [done|]. split; [done|]. lia.
Qed.

(** When no writer waits for readers, every reader in flight was counted
    under the current address. *)
Lemma flying_on_current (j : nat) (tj : thread) (v : Z) :
  (∀ a, total (superseded a) ts = 0) →
  ts !! j = Some tj → flying tj = Some v → address v = cur.
Proof.
  intros Hsup Hj Hv. destruct (inv_each s Hinv j tj Hj) as [Hfly _].
  destruct (Hfly v Hv) as [E|E]; [done|]. rewrite Hsup in E. lia.
Qed.

(** What is asked of a thread that is not inside a mutating call. *)
Lemma reader_ok (cur' : Z) (ts' : list thread) (tj : thread) :
  critical tj = 0 →
  thread_ok cur ts tj →
  (∀ v, flying tj = Some v →
     (address v = cur' ∨ total (superseded (address v)) ts' = 1) ∧
     (address v ≠ cur → address v ≠ cur')) →
  thread_ok cur' ts' tj.
Proof.
  intros Hcrit [Hfly Hpc] Hnew. split.
  - intros v Hv. by apply Hnew.
  - unfold critical in Hcrit. unfold flying in Hnew.
    destruct (at_pc tj); try done; try lia.
    destruct Hpc as [Ho Haway]. split; [done|]. intros Hne.
    by apply (Hnew value eq_refl), Haway.
Qed.

Lemma others_are_readers (j : nat) (tj : thread) :
  critical t = 1 → j ≠ i → ts !! j = Some tj → critical tj = 0.
Proof.
  intros Hcrit Hne Hj. pose proof (critical_range tj).
  destruct (decide (critical tj = 0)) as [|Hnz]; [done|]. exfalso. apply Hne. symmetry.
  apply (one_writer ts i j t tj (critical_le_one s Hinv) Hi Hj Hcrit). lia.
Qed.

(** The exchange: the new Snapshot becomes the current one, the readers
    counted under the old address become the writer's to wait for. *)
Lemma step_W_exchange (c : mutation) (o d : Z) :
  at_pc t = W_exchange c o d →
  d ≠ 0 ∧
  ∃ cell,
    heap (shared s) !! d = Some cell ∧
    invariant (mkSystem (set_slot d (shared s))
                 (<[i:=mkThread (W_transfer o (addressAndCopyCounter (shared s)))
                         (held t)]> ts)
                 (instance cell :: published s)).
Proof.
  intros Hpc.
  destruct own_thread_ok as [_ Hok]. rewrite Hpc in Hok.
  destruct Hok as (Ho & Hne & Hone). subst o.
  assert (drafting d t = 1) as Hdraft by (unfold drafting; by rewrite Hpc, same_refl).
  destruct (draft_private s Hinv i t d Hi Hdraft) as (_ & _ & Hsup & Hprivate).
  assert (critical t = 1) as Hcrit by (unfold critical; by rewrite Hpc).
  pose proof (inv_counts s Hinv d) as Hd.
  destruct (heap (shared s) !! d) as [cell|] eqn:Hc; [|lia].
  pose proof (inv_heap s Hinv d cell Hc) as Hu.
  pose proof (address_user d Hu) as Haddr.
  split; [unfold user_pointer in Hu; lia|].
  exists cell. split; [done|].
  (* the old state *)
  pose proof (inv_slot s Hinv) as Hslot.
  pose proof (inv_current s Hinv) as Hcur.
  pose proof (inv_drain s Hinv) as Hdrain.
  pose proof (fly_total_bound s cur) as Hb. pose proof (inv_threads s Hinv) as Hlen.
  assert (Z.shiftr (addressAndCopyCounter (shared s)) 48 = total (fly cur) ts) as Hshift.
  { rewrite Hslot at 1. apply shiftr_packed. unfold user_pointer in Hcur. lia. }
  assert (total (fly d) ts = 0) as Hnone.
  { apply total_zero. intros j tj Hj. unfold fly.
    destruct (flying tj) as [v|] eqn:Hv; [|done].
    rewrite decide_False; [done|].
    rewrite (flying_on_current j tj v Hsup Hj Hv). done. }
  pose proof (total_elem_le (refs d) ts i t (refs_nonneg d) Hi) as Hle.
  pose proof (held_nonneg d (held t)) as Hheld.
  assert (total (same d) (held t) = 0) as Hh.
  { revert Hle. contributions Hpc. rewrite same_refl. lia. }
  set (t' := mkThread (W_transfer cur (addressAndCopyCounter (shared s))) (held t)
             : thread).
  assert (∀ x, refs x t' - refs x t = same x cur - same x d) as Erefs
    by (intros x; contributions Hpc; lia).
  apply invariant_delta; simpl; rewrite ?Haddr.
  - pose proof (inv_holding s Hinv). contributions Hpc. lia.
  - apply (inv_heap s Hinv).
  - done.
  - rewrite Hnone. contributions Hpc. lia.
  - intros x. specialize (Erefs x).
    assert (dying x t' = dying x t) as -> by (contributions Hpc; done).
    pose proof (inv_counts s Hinv x) as Hx.
    destruct (heap (shared s) !! x) as [cx|] eqn:Hcx.
    + destruct Hx as [Hrc Hdy]. split; lia.
    + destruct Hx as (Hxc & Hxr & Hxd).
      assert (x ≠ d) by (intros ->; congruence).
      rewrite (same_ne x cur), (same_ne x d) in Erefs by done.
      repeat split; [done|lia..].
  - pose proof (inv_mutex s Hinv). contributions Hpc. lia.
  - rewrite Hnone. contributions Hpc. rewrite Hshift. lia.
  - split; [done|]. simpl. rewrite Hshift. lia.
  - intros j tj Hj' Hj.
    pose proof (others_are_readers j tj Hcrit Hj' Hj) as Hreader.
    apply reader_ok; [done|by apply (inv_each s Hinv j)|].
    intros v Hv. pose proof (flying_on_current j tj v Hsup Hj Hv) as E.
    split; [|by rewrite E]. right.
    rewrite (total_insert _ _ _ _ _ Hi), Hsup, E.
    contributions Hpc. rewrite same_refl. lia.
  - intros x cx Hx Hz.
    assert (drafting x t' = 0) as Hd' by (contributions Hpc; done).
    rewrite Hd' in Hz.
    destruct (decide (x = d)) as [->|Hxd].
    + rewrite Hc in Hx. injection Hx as <-. apply list_elem_of_here.
    + apply list_elem_of_further. apply (inv_published s Hinv x cx Hx).
      revert Hz. contributions Hpc. rewrite (same_ne x d) by done. lia.
Qed.

(** The busy wait ends: every reader the writer caught has taken its
    reference. *)
Lemma step_W_spin (o : Z) :
  at_pc t = W_spin o → previousCopyCounter (shared s) = 0 →
  invariant (mkSystem (shared s) (<[i:=mkThread (W_release o) (held t)]> ts)
               (published s)).
Proof.
  intros Hpc Hprev.
  assert (critical t = 1) as Hcrit by (unfold critical; by rewrite Hpc).
  pose proof (total_of_the_writer debt ts i t debt_critical
                (critical_le_one s Hinv) Hi Hcrit) as Hdebt.
  assert (debt t = 0) as Ht by (unfold debt; by rewrite Hpc).
  pose proof (inv_drain s Hinv) as Hdrain.
  (* every reader in flight is counted under the current address *)
  assert (∀ j tj v, ts !! j = Some tj → flying tj = Some v → address v = cur) as Hall.
  { intros j tj v Hj Hv.
    assert (total (fun x => in_flight x - fly cur x) ts = 0) as Hz
      by (rewrite total_minus; lia).
    pose proof (total_zero_inv (fun x => in_flight x - fly cur x) ts j tj
                  (fun x => ltac:(pose proof (fly_range cur x); lia)) Hz Hj) as Hj0.
    revert Hj0. unfold in_flight, fly. rewrite Hv. case_decide; [done|lia]. }
  apply invariant_delta.
  - pose proof (inv_holding s Hinv). contributions Hpc. lia.
  - apply (inv_heap s Hinv).
  - apply (inv_current s Hinv).
  - apply slot_kept; [done|]. intros x. contributions Hpc. done.
  - apply counts_kept; try done; intros x; contributions Hpc; done.
  - pose proof (inv_mutex s Hinv). contributions Hpc. lia.
  - contributions Hpc. lia.
  - done.
  - intros j tj Hj' Hj.
    pose proof (others_are_readers j tj Hcrit Hj' Hj) as Hreader.
    apply reader_ok; [done|by apply (inv_each s Hinv j)|].
    intros v Hv. split; [|done]. left. by apply (Hall j tj).
  - apply published_kept. intros x c' Hx Hz. exists c'.
    split; [done|]. split; [done|]. revert Hz. contributions Hpc. lia.
Qed.

Lemma draft_live (c : mutation) (o d : Z) :
  at_pc t = W_modify c o d → ∃ cell, live (shared s) d = Some cell.
Proof.
  intros Hpc.
  destruct own_thread_ok as [_ Hok]. rewrite Hpc in Hok.
  destruct Hok as (_ & _ & Hone).
  pose proof (inv_counts s Hinv d) as Hd.
  destruct (heap (shared s) !! d) as [cell|] eqn:Hc; [|lia].
  exists cell. by apply live_lookup.
Qed.

End Preservation.

(** Every step a thread can take keeps the invariant, and no step touches
    a dead object. *)
Lemma thread_step_sound (s : system) (i : nat) (t : thread) (a : action) :
  invariant s → threads s !! i = Some t →
  (a = StartGet → total holding (threads s) < max_handles) →
  match thread_step a (shared s) (published s) t with
  | Moved w' pub' t' => invariant (mkSystem w' (<[i:=t']> (threads s)) pub')
  | Waits => True
  | Faults => False
  end.
Proof.
  intros Hinv Hi Hroom. destruct t as [pc0 hl].
  pose proof (system_unchanged s i _ Hinv Hi) as Hsame.
  unfold thread_step.
  destruct pc0, a; cbn [at_pc held]; try done.
  - (* StartGet *)
    by apply (step_StartGet s i _ Hinv Hi eq_refl), Hroom.
  - (* StartMutation *)
    destruct (editMutex (shared s)) eqn:Hm.
    + by destruct (is_try c).
    + by apply (step_lock s i _ Hinv Hi c eq_refl).
  - (* Release *)
    destruct (hl !! k) as [p|] eqn:Hk; [|done].
    destruct (step_Release s i _ Hinv Hi k p eq_refl Hk) as (Hp & cell & Hc & Hnext).
    apply Z.eqb_neq in Hp. rewrite Hp. unfold with_cell. by rewrite Hc.
  - (* the first compare_exchange_weak *)
    destruct (addressAndCopyCounter (shared s) =? value) eqn:E.
    + apply Z.eqb_eq in E. by apply (step_R_cas s i _ Hinv Hi value eq_refl).
    + by apply (step_R_cas_again s i _ Hinv Hi value eq_refl).
  - by destruct (addressAndCopyCounter (shared s) =? value).
  - (* refcount++ *)
    destruct (step_R_incr s i _ Hinv Hi value eq_refl) as (cell & Hc & Hnext).
    unfold with_cell. by rewrite Hc.
  - by apply (step_R_load s i _ Hinv Hi value obtained eq_refl).
  - (* the second loop *)
    destruct (Z.land decrementee suffix =? Z.land value suffix) eqn:E; simpl.
    + apply Z.eqb_eq in E.
      destruct (addressAndCopyCounter (shared s) =? decrementee) eqn:E'.
      * apply Z.eqb_eq in E'.
        by apply (step_R_dec_cas s i _ Hinv Hi value obtained decrementee eq_refl).
      * by apply (step_R_dec_again s i _ Hinv Hi value obtained decrementee eq_refl).
    + apply Z.eqb_neq in E.
      by apply (step_R_dec_abandoned s i _ Hinv Hi value obtained decrementee eq_refl).
  - by destruct ((Z.land decrementee suffix =? Z.land value suffix)
                 && (addressAndCopyCounter (shared s) =? decrementee)).
  - (* delete, for a handle *)
    destruct (step_H_delete s i _ Hinv Hi pointer eq_refl) as (cell & Hc & Hnext).
    unfold with_cell. by rewrite Hc.
  - by apply (step_W_locked s i _ Hinv Hi c eq_refl).
  - (* the verifier *)
    destruct (inv_each s Hinv i _ Hi) as [_ Ho]. simpl in Ho. subst original.
    destruct (cur_live s Hinv) as (cell & Hc & _).
    unfold with_cell. rewrite (live_lookup s Hinv _ cell Hc).
    destruct (verdict c (instance cell)) as [e|[|]];
      apply (step_W_verify s i _ Hinv Hi c _ _ eq_refl); auto.
  - (* the creator *)
    destruct (inv_each s Hinv i _ Hi) as [_ Ho]. simpl in Ho. subst original.
    destruct (cur_live s Hinv) as (cell & Hc & _).
    unfold with_cell. rewrite (live_lookup s Hinv _ cell Hc).
    assert (∀ built : exn + T,
              match
                match place_of c with
                | Some p =>
                    if placeable (heap (shared s)) (Some p)
                    then
                      match built with
                      | inl _ =>
                          Moved (shared s) (published s) (mkThread W_unlock hl)
                      | inr fresh =>
                          Moved (put_cell p (mkInternal 1 fresh) (shared s))
                            (published s)
                            (mkThread
                               (if modifies c
                                then W_modify c
                                       (address (addressAndCopyCounter (shared s))) p
                                else W_exchange c
                                       (address (addressAndCopyCounter (shared s))) p)
                               hl)
                      end
                    else Waits
                | None => Moved (shared s) (published s) (mkThread W_unlock hl)
                end
              with
              | Moved w' pub' t' => invariant (mkSystem w' (<[i:=t']> (threads s)) pub')
              | Waits => True
              | Faults => False
              end) as Hcreate.
    { intros built. destruct (place_of c) as [p|];
        [|by apply (step_W_create_fails s i _ Hinv Hi c _ eq_refl)].
      destruct (placeable (heap (shared s)) (Some p)) eqn:Hplace; [|done].
      destruct built as [e|fresh];
        [by apply (step_W_create_fails s i _ Hinv Hi c _ eq_refl)|].
      by apply (step_W_create s i _ Hinv Hi c _ p fresh eq_refl). }
    destruct (builds_from c); apply Hcreate.
  - (* the modifier *)
    destruct (draft_live s i _ Hinv Hi c original duplicate eq_refl) as [cell Hc].
    unfold with_cell. rewrite Hc.
    destruct (modified c (instance cell)) as [e|changed].
    + by apply (step_W_modify_throws s i _ Hinv Hi c original duplicate eq_refl).
    + destruct (step_W_modify s i _ Hinv Hi c original duplicate changed eq_refl)
        as (cell' & Hc' & Hnext).
      rewrite Hc in Hc'. by injection Hc' as <-.
  - (* ~DuplicateHolder *)
    destruct (step_W_unwind s i _ Hinv Hi duplicate eq_refl) as (cell & Hc & Hnext).
    unfold with_cell. by rewrite Hc.
  - (* the exchange *)
    destruct (step_W_exchange s i _ Hinv Hi c original replacement eq_refl)
      as (Hnz & cell & Hc & Hnext).
    apply Z.eqb_neq in Hnz. rewrite Hnz. by rewrite Hc.
  - by apply (step_W_transfer s i _ Hinv Hi original oldValue eq_refl).
  - (* the busy wait *)
    destruct (previousCopyCounter (shared s) =? 0) eqn:E; [|done].
    apply Z.eqb_eq in E. by apply (step_W_spin s i _ Hinv Hi original eq_refl).
  - (* --refcount, for the container *)
    destruct (step_W_release s i _ Hinv Hi original eq_refl) as (cell & Hc & Hnext).
    unfold with_cell. by rewrite Hc.
  - destruct (step_W_delete s i _ Hinv Hi original eq_refl) as (cell & Hc & Hnext).
    unfold with_cell. by rewrite Hc.
  - by apply (step_unlock s i _ Hinv Hi eq_refl).
Qed.


Lemma step_invariant (s s' : system) (i : nat) (a : action) :
  invariant s → system_step i a s = Next s' → invariant s'.
Proof.
  intros Hinv Hstep. unfold system_step in Hstep.
  destruct (threads s !! i) as [t|] eqn:Hi; [|done].
  assert (a = StartGet → total holding (threads s) < max_handles) as Hroom.
  { intros ->. destruct (total holding (threads s) <? max_handles) eqn:E; [lia|done]. }
  pose proof (thread_step_sound s i t a Hinv Hi Hroom) as Hsound.
  destruct (match a with
            | StartGet => negb (total holding (threads s) <? max_handles)
            | _ => false
            end); [done|].
  destruct (thread_step a (shared s) (published s) t); [|done..].
  by injection Hstep as <-.
Qed.

Lemma step_never_crashes (s : system) (i : nat) (a : action) :
  invariant s → system_step i a s ≠ Crash.
Proof.
  intros Hinv Hstep. unfold system_step in Hstep.
  destruct (threads s !! i) as [t|] eqn:Hi; [|done].
  assert (a = StartGet → total holding (threads s) < max_handles) as Hroom.
  { intros ->. destruct (total holding (threads s) <? max_handles) eqn:E; [lia|done]. }
  pose proof (thread_step_sound s i t a Hinv Hi Hroom) as Hsound.
  destruct (match a with
            | StartGet => negb (total holding (threads s) <? max_handles)
            | _ => false
            end); [done|].
  by destruct (thread_step a (shared s) (published s) t).
Qed.

Lemma runs_invariant (s s' : system) : invariant s → runs s s' → invariant s'.
Proof.
  intros Hinv Hruns. induction Hruns as [|s i a s' s'' Hstep _ IH]; [done|].
  apply IH. by apply (step_invariant s s' i a).
Qed.

Lemma boot_invariant (n : nat) (s : system) :
  Z.of_nat n < 2 ^ 16 → boot n s → invariant s.
Proof.
  intros Hn (place & args & w & cell & Hplace & Hctor & Hcell & ->).
  unfold construct, mbind, M_bind, bind in Hctor.
  destruct place as [p|]; [|done]. simpl in Hctor.
  destruct (T_ctor args) as [e|t]; [done|]. simpl in Hctor.
  injection Hctor as <-.
  destruct (Hplace p eq_refl) as [Hp _].
  pose proof (address_user p Hp) as Haddr.
  unfold current in Hcell. simpl in Hcell.
  rewrite getPointer_user, lookup_insert_eq in Hcell by done. injection Hcell as <-.
  set (idle := mkThread Idle [] : thread).
  assert (∀ f : thread → Z, f idle = 0 → total f (replicate n idle) = 0) as Hzero.
  { intros f Hf. rewrite total_replicate, Hf. lia. }
  split; simpl; rewrite ?Haddr.
  - by rewrite length_replicate.
  - rewrite Hzero by done. unfold max_handles. lia.
  - intros x c Hx. destruct (decide (x = p)) as [->|Hne]; [done|].
    by rewrite lookup_insert_ne in Hx.
  - done.
  - rewrite Hzero by done. lia.
  - intros x. rewrite !Hzero by done.
    destruct (decide (x = p)) as [->|Hne].
    + rewrite lookup_insert_eq. simpl. rewrite same_refl. done.
    + rewrite lookup_insert_ne by done. done.
  - by rewrite Hzero.
  - rewrite !Hzero by done. lia.
  - intros j tj Hj. apply lookup_replicate in Hj as [-> _]. done.
  - intros x c Hx _. destruct (decide (x = p)) as [->|Hne].
    + rewrite lookup_insert_eq in Hx. injection Hx as <-. apply list_elem_of_here.
    + by rewrite lookup_insert_ne in Hx.
Qed.

(** What a step does to the free store: the payload of an object changes
    only while the object is the stepping writer's new one, and an object is
    freed only by the thread that found its count at zero or by that
    writer. *)
Lemma thread_step_heap (a : action) (w w' : World) (pub pub' : list T)
    (t t' : thread) (h : Z) (cell : Internal) :
  thread_step a w pub t = Moved w' pub' t' →
  heap w !! h = Some cell → dying h t = 0 → drafting h t = 0 →
  ∃ cell', heap w' !! h = Some cell' ∧ instance cell' = instance cell.
Proof.
  intros Hstep Hc Hdy Hdr. unfold dying, drafting in *.
  assert (∀ p c0, heap w !! p = Some c0 → ∀ rc,
            ∃ cell', heap (put_cell p (mkInternal rc (instance c0)) w) !! h = Some cell' ∧
                     instance cell' = instance cell) as Hput.
  { intros p c0 Hp rc. cbn [put_cell set_heap heap].
    destruct (decide (h = p)) as [->|Hne].
    - rewrite lookup_insert_eq. eexists; split; [done|]. cbn. congruence.
    - rewrite lookup_insert_ne by done. eauto. }
  assert (∀ p, p ≠ h →
            ∃ cell', heap (free_cell p w) !! h = Some cell' ∧
                     instance cell' = instance cell) as Hfree.
  { intros p Hp. cbn [free_cell set_heap heap]. rewrite lookup_delete_ne by done. eauto. }
  assert (∀ p c1, p ≠ h →
            ∃ cell', heap (put_cell p c1 w) !! h = Some cell' ∧
                     instance cell' = instance cell) as Hother.
  { intros p c1 Hp. cbn [put_cell set_heap heap]. rewrite lookup_insert_ne by done. eauto. }
  unfold thread_step in Hstep.
  destruct (at_pc t) eqn:Hpc, a; try discriminate Hstep.
  all: unfold with_cell, live in Hstep.
  all: repeat match type of Hstep with
       | context [match ?x with _ => _ end] => destruct x eqn:?; try discriminate Hstep
       end.
  all: try (injection Hstep as <- <- <-; cbn [set_slot set_previous set_mutex heap]; eauto; fail).
  all: injection Hstep as <- <- <-.
  all: repeat match goal with
       | H : (if decide (?z = 0) then None else _) = Some _ |- _ =>
           destruct (decide (z = 0)); [discriminate H|]
       end.
  all: try (by eapply Hput).
  all: try (apply Hfree; unfold same in *; case_decide; congruence).
  all: apply Hother.
  all: try (unfold same in *; case_decide; congruence).
  all: intros ->; unfold placeable in *; rewrite Hc in *;
    by rewrite andb_false_r in *.
Qed.

(** The Snapshot of a handle is alive, is nobody's new object and is not
    about to be freed. *)
Lemma held_settled (s : system) (i : nat) (t : thread) (h : Z) :
  invariant s → threads s !! i = Some t → h ∈ held t →
  ∃ cell, heap (shared s) !! h = Some cell ∧
          total (drafting h) (threads s) = 0 ∧ total (dying h) (threads s) = 0.
Proof.
  intros Hinv Hi Hh.
  assert (1 ≤ total (same h) (held t)) as Hheld by (by apply held_elem).
  assert (1 ≤ refs h t) as Hown.
  { unfold refs. destruct (at_pc t); try lia;
      match goal with |- context [same ?x ?y] => pose proof (same_range x y) end; lia. }
  destruct (live_of_refs s Hinv i t h Hi Hown) as (cell & Hc & Hrc & _).
  exists cell. split; [done|]. split.
  - pose proof (total_nonneg (drafting h) (threads s)
                  (fun x => proj1 (drafting_range h x))) as Hnn.
    destruct (decide (total (drafting h) (threads s) = 0)) as [|Hnz]; [done|]. exfalso.
    destruct (total_pos_inv (drafting h) (threads s)) as (j & tj & Hj & Hpos); [lia|].
    assert (drafting h tj = 1) as Hd by (pose proof (drafting_range h tj);
                                         pose proof (critical_range tj); lia).
    destruct (draft_private s Hinv j tj h Hj Hd) as (_ & Hone & _ & Hprivate).
    destruct (decide (i = j)) as [->|Hne].
    + rewrite Hi in Hj. injection Hj as <-.
      pose proof (total_elem_le (refs h) (threads s) j t (refs_nonneg h) Hi) as Hle.
      rewrite Hone in Hle.
      revert Hle Hd. unfold refs, drafting. destruct (at_pc t); lia.
    + pose proof (Hprivate i t Hi Hne). lia.
  - pose proof (inv_counts s Hinv h) as Hcount. rewrite Hc in Hcount.
    destruct Hcount as [_ ->].
    destruct (refcount cell =? 0) eqn:E; [lia|done].
Qed.

Lemma invariant_safe (s : system) : invariant s → safe s.
Proof.
  intros Hinv. split; [by intros i a; apply step_never_crashes|].
  intros i t h Hi Hh.
  destruct (held_settled s i t h Hinv Hi Hh) as (cell & Hc & Hdr & _).
  exists cell. split; [done|]. by apply (inv_published s Hinv h cell Hc).
Qed.

Lemma invariant_frozen (s : system) : invariant s → frozen s.
Proof.
  intros Hinv i a s' j tj h cell Hstep Hj Hh Hc.
  destruct (held_settled s j tj h Hinv Hj Hh) as (_ & _ & Hdr & Hdy).
  unfold system_step in Hstep.
  destruct (threads s !! i) as [t|] eqn:Hi; [|done].
  destruct (match a with
            | StartGet => negb (total holding (threads s) <? max_handles)
            | _ => false
            end); [done|].
  destruct (thread_step a (shared s) (published s) t) as [w' pub' t'| |] eqn:Hmove;
    [|done..].
  injection Hstep as <-. cbn [shared].
  apply (thread_step_heap a (shared s) w' (published s) pub' t t' h cell Hmove Hc).
  - pose proof (total_elem_le (dying h) (threads s) i t
                  (fun x => proj1 (dying_range h x)) Hi).
    pose proof (dying_range h t). lia.
  - pose proof (total_elem_le (drafting h) (threads s) i t
                  (fun x => proj1 (drafting_range h x)) Hi).
    pose proof (drafting_range h t). lia.
Qed.

(** C3, for fewer than [2^16] threads.  Around a container used by fewer
    than [2^16] threads, whatever the interleaving of their steps: no step
    touches a Snapshot that was freed, every handle a thread has obtained is
    bound to a live Snapshot whose payload was published as a whole, by the
    constructor or by the exchange of a mutating call, and no step changes
    the payload a handle reads. *)
Theorem readers_see_published_snapshots (n : nat) (s0 s : system) :
  Z.of_nat n < 2 ^ 16 → boot n s0 → runs s0 s → safe s ∧ frozen s.
Proof.
  intros Hn Hboot Hruns.
  assert (invariant s) as Hinv.
  { apply (runs_invariant s0 s); [|done]. by apply (boot_invariant n). }
  split; [by apply invariant_safe|by apply invariant_frozen].
Qed.

Lemma runs_trans (s1 s2 s3 : system) : runs s1 s2 → runs s2 s3 → runs s1 s3.
Proof.
  intros H12 H23. induction H12 as [|s i a s' s'' Hstep _ IH]; [done|].
  eapply runs_step; [done|]. by apply IH.
Qed.

Lemma execute_runs (schedule : list (nat * action)) (s s' : system) :
  execute schedule s = Some s' → runs s s'.
Proof.
  revert s. induction schedule as [|[i a] rest IH]; intros s Hrun; simpl in Hrun.
  - injection Hrun as <-. constructor.
  - destruct (system_step i a s) as [s1| |] eqn:Hstep; try done.
    eapply runs_step; [done|]. by apply IH.
Qed.

Lemma total_app {A} (f : A → Z) (l1 l2 : list A) :
  total f (l1 ++ l2) = total f l1 + total f l2.
Proof. induction l1 as [|x l1 IH]; simpl; lia. Qed.

(** ** One thread running alone in the concurrent model

    Taken without interruption, the steps of a call lead where the call
    leads when it is run as one computation. *)

Lemma system_step_moved (s : system) (i : nat) (a : action) (t t' : thread)
    (w' : World) (pub' : list T) :
  threads s !! i = Some t →
  (a = StartGet → total holding (threads s) < max_handles) →
  thread_step a (shared s) (published s) t = Moved w' pub' t' →
  system_step i a s = Next (mkSystem w' (<[i := t']> (threads s)) pub').
Proof.
  intros Hi Hroom Hmove. unfold system_step. rewrite Hi, Hmove.
  destruct a; try done.
  assert ((total holding (threads s) <? max_handles) = true) as -> by (specialize (Hroom eq_refl); lia).
  done.
Qed.

Lemma execute_moved (s : system) (i : nat) (a : action) (t t' : thread)
    (w' : World) (pub' : list T) (rest : list (nat * action)) :
  threads s !! i = Some t →
  (a = StartGet → total holding (threads s) < max_handles) →
  thread_step a (shared s) (published s) t = Moved w' pub' t' →
  execute ((i, a) :: rest) s
  = execute rest (mkSystem w' (<[i := t']> (threads s)) pub').
Proof.
  intros Hi Hroom Hmove. cbn [execute].
  by rewrite (system_step_moved s i a t t' w' pub').
Qed.

(** [get]: the five steps of [safeInstance]. *)
Lemma get_runs_alone (s : system) (i : nat) (t : thread) (p : Z) (w' : World) :
  threads s !! i = Some t → at_pc t = Idle →
  total holding (threads s) < max_handles →
  get (shared s) = Ret p w' →
  execute [(i, StartGet); (i, Proceed); (i, Proceed); (i, Proceed); (i, Proceed)] s
  = Some (mkSystem w' (<[i := mkThread Idle (p :: held t)]> (threads s)) (published s)).
Proof.
  intros Hi Hpc Hroom Hget.
  destruct t as [pc0 hs]; cbn [at_pc held] in *; subst pc0.
  assert (i < length (threads s))%nat as Hlen by (eapply lookup_lt_Some; done).
  assert (∀ (t1 : thread) l, length l = length (threads s) → <[i := t1]> l !! i = Some t1)
    as Hlook by (intros t1 l Hl; apply list_lookup_insert_eq; lia).
  set (w := shared s) in *. set (value := addressAndCopyCounter w).
  set (obtained := getPointer value).
  unfold get, safeInstance, mbind, M_bind, bind, load, store in Hget. simpl in Hget.
  fold value obtained in Hget.
  unfold refcount_incr, mbind, M_bind, bind, deref in Hget.
  rewrite (execute_moved s i StartGet _ (mkThread (R_cas value) hs) w (published s) _ Hi);
    [|done|done].
  rewrite (execute_moved _ i Proceed (mkThread (R_cas value) hs) (mkThread (R_incr value) hs)
             (set_slot (u64 (value + increment)) w) (published s));
    [|by apply Hlook|done|by cbn; fold value; rewrite Z.eqb_refl].
  cbn [threads]. rewrite list_insert_insert_eq.
  destruct (decide (obtained = 0)) as [|Hnz]; [done|].
  change (heap (set_slot (u64 (value + increment)) w)) with (heap w) in Hget.
  destruct (heap w !! obtained) as [cell|] eqn:Hcell; [|done].
  set (w1 := put_cell obtained (mkInternal (u64 (refcount cell + 1)) (instance cell))
               (set_slot (u64 (value + increment)) w)).
  change (put obtained _ _) with (Ret tt w1 : outcome unit) in Hget. cbv beta iota in Hget.
  rewrite (execute_moved _ i Proceed (mkThread (R_incr value) hs)
             (mkThread (R_load value obtained) hs) w1 (published s));
    [|by apply Hlook|done|].
  2:{ cbn [thread_step at_pc held shared published]. fold obtained.
      unfold with_cell, live. rewrite decide_False by done.
      change (heap (set_slot (u64 (value + increment)) w)) with (heap w).
      by rewrite Hcell. }
  cbn [threads]. rewrite list_insert_insert_eq.
  rewrite (execute_moved _ i Proceed (mkThread (R_load value obtained) hs)
             (mkThread (R_dec value obtained (addressAndCopyCounter w1)) hs) w1 (published s));
    [|by apply Hlook|done|done].
  cbn [threads]. rewrite list_insert_insert_eq.
  rewrite (execute_moved _ i Proceed (mkThread (R_dec value obtained (addressAndCopyCounter w1)) hs)
             (mkThread Idle (p :: hs)) w' (published s));
    [|by apply Hlook|done|].
  2:{ cbn [thread_step at_pc held shared published].
      destruct (negb (Z.land (addressAndCopyCounter w1) suffix =? Z.land value suffix));
        [by injection Hget as <- <-|].
      rewrite Z.eqb_refl. by injection Hget as <- <-. }
  cbn [threads]. by rewrite list_insert_insert_eq.
Qed.

Lemma execute_insert (w w' : World) (ts : list thread) (pub pub' : list T)
    (i : nat) (a : action) (t t' : thread) (rest : list (nat * action)) :
  (i < length ts)%nat → a ≠ StartGet →
  thread_step a w pub t = Moved w' pub' t' →
  execute ((i, a) :: rest) (mkSystem w (<[i := t]> ts) pub)
  = execute rest (mkSystem w' (<[i := t']> ts) pub').
Proof.
  intros Hlen Ha Hmove.
  rewrite (execute_moved _ i a t t' w' pub'); [|by apply list_lookup_insert_eq|done|done].
  cbn [threads]. by rewrite list_insert_insert_eq.
Qed.

(** A mutating call, from the lock to the unlock. *)
Lemma mutation_runs_inserted (w : World) (ts : list thread) (pub : list T)
    (i : nat) (hs : list Z) (c : mutation) :
  (i < length ts)%nat →
  settled w → editMutex w = false → valid_place (heap w) (place_of c) →
  ∃ schedule pub' w',
    ((∃ b, run c w = Ret b w') ∨ (∃ e, run c w = Throw e w')) ∧
    Forall (λ ia : nat * action, ia.1 = i) schedule ∧
    execute schedule (mkSystem w (<[i := mkThread Idle hs]> ts) pub)
    = Some (mkSystem w' (<[i := mkThread Idle hs]> ts) pub').
Proof.
  intros Hlen Hs Hm Hplace.
  rewrite run_settled by done.
  pose proof Hs as (Hu & [cell Hc] & Hp).
  pose proof (getPointer_user _ Hu) as Hg.
  assert (addressAndCopyCounter w ≠ 0) as Hnz by (unfold user_pointer in Hu; lia).
  set (o := addressAndCopyCounter w) in *.
  set (wl := set_mutex true w).
  assert (∀ rest,
    execute ((i, StartMutation c) :: (i, Proceed) :: rest)
      (mkSystem w (<[i := mkThread Idle hs]> ts) pub)
    = execute rest (mkSystem wl (<[i := mkThread (W_verify c o) hs]> ts) pub)) as Hstart.
  { intros rest.
    erewrite execute_insert; [|done|done|cbn [thread_step at_pc held]; rewrite Hm; reflexivity].
    erewrite execute_insert; [|done|done|cbn [thread_step at_pc held]; reflexivity].
    cbn [addressAndCopyCounter wl set_mutex]. fold o. by rewrite Hg. }
  assert (∀ w1 pub1,
    editMutex w1 = true →
    execute [(i, Proceed)] (mkSystem w1 (<[i := mkThread W_unlock hs]> ts) pub1)
    = Some (mkSystem (set_mutex false w1) (<[i := mkThread Idle hs]> ts) pub1)) as Hend.
  { intros w1 pub1 Hm1.
    erewrite execute_insert; [|done|done|cbn [thread_step at_pc held]; reflexivity].
    done. }
  assert (live wl o = Some cell) as Hlive.
  { unfold live. rewrite decide_False by done. done. }
  assert (∀ rest,
    execute ((i, Proceed) :: rest)
      (mkSystem wl (<[i := mkThread (W_verify c o) hs]> ts) pub)
    = execute rest
        (mkSystem wl
           (<[i := mkThread (match verdict c (instance cell) with
                             | inr true => W_create c o
                             | _ => W_unlock
                             end) hs]> ts) pub)) as Hverify.
  { intros rest.
    erewrite execute_insert; [done|done|done|].
    cbn [thread_step at_pc held]. unfold with_cell. rewrite Hlive.
    by destruct (verdict c (instance cell)) as [e|[|]]. }
  assert (∀ steps,
    Forall (λ ia : nat * action, ia.1 = i) steps →
    Forall (λ ia : nat * action, ia.1 = i)
      ((i, StartMutation c) :: (i, Proceed) :: (i, Proceed) :: steps ++ [(i, Proceed)]))
    as Hmine.
  { intros steps Hsteps. repeat (apply Forall_cons; split; [done|]).
    apply Forall_app. split; [done|]. by apply Forall_singleton. }
  assert (∀ steps w1 pub1 (o1 : outcome bool),
    Forall (λ ia : nat * action, ia.1 = i) steps →
    editMutex w1 = true →
    (∀ rest,
       execute ((i, StartMutation c) :: (i, Proceed) :: (i, Proceed) :: steps ++ rest)
         (mkSystem w (<[i := mkThread Idle hs]> ts) pub)
       = execute rest (mkSystem w1 (<[i := mkThread W_unlock hs]> ts) pub1)) →
    ((∃ b, o1 = Ret b (set_mutex false w1)) ∨ (∃ e, o1 = Throw e (set_mutex false w1))) →
    ∃ schedule pub' w',
      ((∃ b, o1 = Ret b w') ∨ (∃ e, o1 = Throw e w')) ∧
      Forall (λ ia : nat * action, ia.1 = i) schedule ∧
      execute schedule (mkSystem w (<[i := mkThread Idle hs]> ts) pub)
      = Some (mkSystem w' (<[i := mkThread Idle hs]> ts) pub')) as Hfinish.
  { intros steps w1 pub1 o1 Hsteps Hm1 Hrun Ho1.
    exists ((i, StartMutation c) :: (i, Proceed) :: (i, Proceed) :: steps ++ [(i, Proceed)]),
      pub1, (set_mutex false w1).
    split; [done|]. split; [by apply Hmine|]. rewrite Hrun. by apply Hend. }
  unfold effect. fold o. rewrite Hc.
  destruct (verdict c (instance cell)) as [e|[|]] eqn:Hv.
  - apply (Hfinish [] wl pub); [done|done| |].
    + intros rest. cbn [app]. by rewrite Hstart, Hverify.
    + right. exists e. unfold wl. by rewrite unlock_lock.
  - idtac.
    destruct (place_of c) as [d|] eqn:Hd.
    2:{ apply (Hfinish [(i, Proceed)] wl pub); [by apply Forall_singleton|done| |].
        - intros rest. cbn [app]. rewrite Hstart, Hverify.
          erewrite execute_insert; [done|done|done|].
          cbn [thread_step at_pc held]. rewrite Hd. unfold with_cell. rewrite Hlive.
          by destruct (builds_from c).
        - right. exists bad_alloc. unfold wl. by rewrite unlock_lock. }
    destruct (Hplace d eq_refl) as [Hdu Hfree].
    assert (d ≠ 0) as Hdz by (unfold user_pointer in Hdu; lia).
    assert (o ≠ d) as Hod by (intros E; rewrite E in Hc; congruence).
    assert (placeable (heap wl) (Some d) = true) as Hok.
    { unfold placeable. cbn [wl set_mutex heap]. rewrite Hfree.
      unfold user_pointer in Hdu.
      assert ((0 <? d) = true) as -> by lia. assert ((d <? 2 ^ 47) = true) as -> by lia.
      done. }
    set (built := match builds_from c with
                  | Some args => T_ctor args
                  | None => T_copy (instance cell)
                  end).
    assert (∀ w1 pub1 pc1,
      thread_step Proceed wl pub (mkThread (W_create c o) hs) = Moved w1 pub1 (mkThread pc1 hs) →
      ∀ rest,
        execute ((i, StartMutation c) :: (i, Proceed) :: (i, Proceed) :: (i, Proceed) :: rest)
          (mkSystem w (<[i := mkThread Idle hs]> ts) pub)
        = execute rest (mkSystem w1 (<[i := mkThread pc1 hs]> ts) pub1)) as Hcreate.
    { intros w1 pub1 pc1 Hstep rest. rewrite Hstart, Hverify.
      by erewrite execute_insert. }
    assert (thread_step Proceed wl pub (mkThread (W_create c o) hs)
            = match built with
              | inl _ => Moved wl pub (mkThread W_unlock hs)
              | inr fresh =>
                  Moved (put_cell d (mkInternal 1 fresh) wl) pub
                    (mkThread (if modifies c then W_modify c o d else W_exchange c o d) hs)
              end) as Hstep.
    { cbn [thread_step at_pc held]. rewrite Hd, Hok. unfold with_cell. rewrite Hlive.
      unfold built. by destruct (builds_from c). }
    destruct built as [e|fresh].
    { apply (Hfinish [(i, Proceed)] wl pub); [by apply Forall_singleton|done| |].
      - intros rest. cbn [app]. by apply Hcreate.
      - right. exists e. unfold wl. by rewrite unlock_lock. }
    assert (∀ t', ∃ steps w5,
      Forall (λ ia : nat * action, ia.1 = i) steps ∧
      editMutex w5 = true ∧ set_mutex false w5 = after_publish d t' w ∧
      ∀ rest,
        execute (steps ++ rest)
          (mkSystem (put_cell d (mkInternal 1 t') wl)
             (<[i := mkThread (W_exchange c o d) hs]> ts) pub)
        = execute rest (mkSystem w5 (<[i := mkThread W_unlock hs]> ts) (t' :: pub)))
      as Hpublish.
    { intros t'.
      set (w3 := put_cell d (mkInternal 1 t') wl).
      set (w4 := set_previous 0 (set_slot d w3)).
      set (left := u64 (refcount cell - 1)).
      set (w5 := put_cell o (mkInternal left (instance cell)) w4).
      assert (∀ rest,
        execute ((i, Proceed) :: (i, Proceed) :: (i, Proceed) :: (i, Proceed) :: rest)
          (mkSystem w3 (<[i := mkThread (W_exchange c o d) hs]> ts) pub)
        = execute rest
            (mkSystem w5
               (<[i := mkThread (if left =? 0 then W_delete o else W_unlock) hs]> ts)
               (t' :: pub))) as Hgo.
      { intros rest.
        erewrite execute_insert; [|done|done|].
        2:{ cbn [thread_step at_pc held]. assert ((d =? 0) = false) as -> by lia.
            cbn [w3 put_cell set_heap heap]. rewrite lookup_insert_eq. reflexivity. }
        erewrite execute_insert; [|done|done|].
        2:{ cbn [thread_step at_pc held]. reflexivity. }
        erewrite execute_insert; [|done|done|].
        2:{ cbn [thread_step at_pc held].
            cbn [w3 wl put_cell set_heap set_mutex set_slot set_previous
                 addressAndCopyCounter previousCopyCounter].
            fold o. rewrite Hp.
            replace (Z.shiftr o 48) with 0.
            2:{ symmetry. apply Z.shiftr_eq_0; [unfold user_pointer in Hu; lia|].
                apply Z.log2_lt_pow2; unfold user_pointer in Hu; lia. }
            change (i32 (0 + 0)) with 0. cbn [Z.eqb]. reflexivity. }
        erewrite execute_insert; [|done|done|].
        2:{ cbn [thread_step at_pc held]. unfold with_cell, live.
            rewrite decide_False by done.
            cbn [w3 wl put_cell set_heap set_mutex set_slot set_previous heap].
            rewrite lookup_insert_ne by done. rewrite Hc. reflexivity. }
        reflexivity. }
      destruct (left =? 0) eqn:Hleft.
      - exists [(i, Proceed); (i, Proceed); (i, Proceed); (i, Proceed); (i, Proceed)],
          (free_cell o w5).
        split; [by repeat constructor|]. split; [done|]. split.
        + unfold after_publish. fold o. rewrite Hc. unfold released. fold left. rewrite Hleft.
          unfold free_cell, w5, w4, w3, wl, put_cell, set_heap, set_mutex, set_slot,
            set_previous. cbn. rewrite delete_insert_eq. by rewrite Hp, Hm.
        + intros rest. cbn [app]. rewrite Hgo.
          erewrite execute_insert; [done|done|done|].
          cbn [thread_step at_pc held]. unfold with_cell, live.
          rewrite decide_False by done.
          cbn [w5 put_cell set_heap heap]. by rewrite lookup_insert_eq.
      - exists [(i, Proceed); (i, Proceed); (i, Proceed); (i, Proceed)], w5.
        split; [by repeat constructor|]. split; [done|]. split.
        + unfold after_publish. fold o. rewrite Hc. unfold released. fold left. rewrite Hleft.
          unfold w5, w4, w3, wl, put_cell, set_heap, set_mutex, set_slot,
            set_previous. cbn. by rewrite Hp, Hm.
        + intros rest. cbn [app]. by rewrite Hgo. }
    set (w2 := put_cell d (mkInternal 1 fresh) wl) in *.
    assert (live w2 d = Some (mkInternal 1 fresh)) as Hdraft.
    { unfold live. rewrite decide_False by done.
      cbn [w2 put_cell set_heap heap]. by rewrite lookup_insert_eq. }
    destruct (modifies c) eqn:Hmod.
    2:{ assert (modified c fresh = inr fresh) as -> by (by destruct c).
        destruct (Hpublish fresh) as (steps & w5 & Hsteps & Hm5 & Hw5 & Hrun).
        apply (Hfinish ((i, Proceed) :: steps) w5 (fresh :: pub));
          [by apply Forall_cons|done| |].
        - intros rest. cbn [app]. rewrite (Hcreate _ _ _ Hstep). apply Hrun.
        - left. exists true. by rewrite Hw5. }
    destruct (modified c fresh) as [e|t'] eqn:Hmodified.
    + apply (Hfinish [(i, Proceed); (i, Proceed); (i, Proceed)] wl pub);
        [by repeat constructor|done| |].
      * intros rest. cbn [app]. rewrite (Hcreate _ _ _ Hstep).
        erewrite execute_insert; [|done|done|].
        2:{ cbn [thread_step at_pc held]. unfold with_cell. rewrite Hdraft.
            cbn [instance]. rewrite Hmodified. reflexivity. }
        erewrite execute_insert; [|done|done|].
        2:{ cbn [thread_step at_pc held]. unfold with_cell. rewrite Hdraft. reflexivity. }
        unfold w2. by rewrite free_put_cell.
      * right. exists e. unfold wl. by rewrite unlock_lock.
    + destruct (Hpublish t') as (steps & w5 & Hsteps & Hm5 & Hw5 & Hrun).
      apply (Hfinish ((i, Proceed) :: (i, Proceed) :: steps) w5 (t' :: pub));
        [by repeat (apply Forall_cons; split; [done|])|done| |].
      * intros rest. cbn [app]. rewrite (Hcreate _ _ _ Hstep).
        erewrite execute_insert; [|done|done|].
        2:{ cbn [thread_step at_pc held]. unfold with_cell. rewrite Hdraft.
            cbn [instance refcount]. rewrite Hmodified. reflexivity. }
        unfold w2. rewrite put_cell_twice. apply Hrun.
      * left. exists true. by rewrite Hw5.
  - apply (Hfinish [] wl pub); [done|done| |].
    + intros rest. cbn [app]. by rewrite Hstart, Hverify.
    + left. exists false. unfold wl. by rewrite unlock_lock.
Qed.

Lemma mutation_runs_alone (s : system) (i : nat) (t : thread) (c : mutation) :
  threads s !! i = Some t → at_pc t = Idle →
  settled (shared s) → editMutex (shared s) = false →
  valid_place (heap (shared s)) (place_of c) →
  ∃ schedule pub' w',
    ((∃ b, run c (shared s) = Ret b w') ∨ (∃ e, run c (shared s) = Throw e w')) ∧
    Forall (λ ia : nat * action, ia.1 = i) schedule ∧
    execute schedule s = Some (mkSystem w' (threads s) pub').
Proof.
  intros Hi Hpc Hs Hm Hplace.
  assert (i < length (threads s))%nat as Hlen by (eapply lookup_lt_Some; done).
  destruct s as [w ts pub], t as [pc0 hs]. cbn [shared threads published at_pc] in *.
  subst pc0.
  destruct (mutation_runs_inserted w ts pub i hs c Hlen Hs Hm Hplace)
    as (schedule & pub' & w' & Hrun & Hmine & Hexec).
  rewrite (list_insert_id ts i _ Hi) in Hexec. by exists schedule, pub', w'.
Qed.

(** * Further properties of the code *)

(** ** The packed word *)

Lemma testbit_packed (r c n : Z) :
  0 ≤ r < 2 ^ 48 → 0 ≤ n →
  Z.testbit (r + c * 2 ^ 48) n
  = if n <? 48 then Z.testbit r n else Z.testbit c (n - 48).
Proof.
  intros Hr Hn. destruct (n <? 48) eqn:E.
  - rewrite <- (Z.mod_pow2_bits_low (r + c * 2 ^ 48) 48 n) by lia.
    rewrite Z.mod_add by lia. rewrite Z.mod_small by lia. done.
  - replace n with ((n - 48) + 48) at 1 by lia.
    rewrite <- Z.shiftr_spec by lia. by rewrite shiftr_packed.
Qed.

Lemma testbit_prefix (n : Z) :
  0 ≤ n → Z.testbit prefix n = (48 <=? n) && (n <? 64).
Proof.
  intros Hn. change prefix with (0 + Z.ones 16 * 2 ^ 48).
  rewrite testbit_packed by lia. destruct (n <? 48) eqn:E.
  - rewrite Z.bits_0. symmetry. apply andb_false_intro1. lia.
  - rewrite Z.testbit_ones by lia.
    assert ((48 <=? n) = true) as -> by lia.
    assert ((0 <=? n - 48) = true) as -> by lia. simpl.
    destruct (n <? 64) eqn:E'; lia.
Qed.

Lemma testbit47_half (r : Z) :
  0 ≤ r < 2 ^ 48 → Z.testbit r 47 = (2 ^ 47 <=? r).
Proof.
  intros Hr. destruct (2 ^ 47 <=? r) eqn:E.
  - apply Z.testbit_true; [lia|].
    replace r with ((r - 2 ^ 47) + 1 * 2 ^ 47) by lia.
    rewrite Z.div_add by lia. rewrite Z.div_small by lia. done.
  - apply Z.testbit_false; [lia|]. rewrite Z.div_small by lia. done.
Qed.

(** [getPointer] in arithmetic: the low 48 bits, with the sixteen high bits
    set when bit 47 is. *)
Lemma getPointer_bits (v : Z) :
  0 ≤ v < 2 ^ 64 →
  getPointer v = v mod 2 ^ 48 + (if Z.testbit v 47 then prefix else 0).
Proof.
  intros Hv. unfold getPointer.
  destruct (Z.testbit v 47) eqn:Hb.
  - assert (Z.land v 0x0000800000000000 ≠ 0) as Hne.
    { intros E. apply land_bit47 in E. congruence. }
    apply Z.eqb_neq in Hne. rewrite Hne. simpl.
    apply Z.bits_inj'. intros n Hn.
    rewrite Z.lor_spec, testbit_prefix by done.
    change prefix with (Z.ones 16 * 2 ^ 48).
    rewrite testbit_packed by (pose proof (Z.mod_pos_bound v (2 ^ 48)); lia).
    destruct (n <? 48) eqn:E.
    + rewrite Z.mod_pow2_bits_low by lia.
      assert ((48 <=? n) = false) as -> by lia. simpl. apply orb_false_r.
    + assert ((48 <=? n) = true) as -> by lia. simpl.
      rewrite Z.testbit_ones by lia.
      assert ((0 <=? n - 48) = true) as -> by lia. simpl.
      destruct (n <? 64) eqn:E'.
      * assert ((n - 48 <? 16) = true) as -> by lia. apply orb_true_r.
      * assert ((n - 48 <? 16) = false) as -> by lia. rewrite orb_false_r.
        apply Z.bits_above_log2; [lia|].
        destruct (decide (v = 0)) as [->|Hz]; [simpl; lia|].
        assert (Z.log2 v < 64) by (apply Z.log2_lt_pow2; lia). lia.
  - apply land_bit47 in Hb. rewrite Hb. simpl. rewrite land_suffix. lia.
Qed.

Lemma getPointer_count (v k : Z) :
  0 ≤ v < 2 ^ 64 → getPointer (u64 (v + k * increment)) = getPointer v.
Proof.
  intros Hv.
  assert (0 ≤ u64 (v + k * increment) < 2 ^ 64) as Hu
    by (unfold u64; apply Z.mod_pos_bound; lia).
  assert (u64 (v + k * increment) mod 2 ^ 48 = v mod 2 ^ 48) as Hlow.
  { unfold u64, increment. rewrite mod64_mod48.
    change 0x0001000000000000 with (2 ^ 48). by rewrite Z.mod_add by lia. }
  rewrite !getPointer_bits by done. rewrite Hlow. do 2 f_equal.
  rewrite <- (Z.mod_pow2_bits_low (u64 _) 48 47) by lia.
  rewrite Hlow. by rewrite Z.mod_pow2_bits_low by lia.
Qed.

Lemma getPointer_canonical_id (p : Z) : canonical p → getPointer p = p.
Proof.
  intros Hp. assert (0 ≤ p < 2 ^ 64) as Hrange by (destruct Hp; lia).
  rewrite getPointer_bits by done.
  rewrite <- (Z.mod_pow2_bits_low p 48 47) by lia.
  pose proof (Z.mod_pos_bound p (2 ^ 48)) as Hr.
  rewrite testbit47_half by lia.
  destruct Hp as [Hlow|Hhigh].
  - rewrite Z.mod_small by lia.
    assert ((2 ^ 47 <=? p) = false) as -> by lia. lia.
  - assert (p mod 2 ^ 48 = p - 65535 * 2 ^ 48) as ->.
    { replace p with ((p - 65535 * 2 ^ 48) + 65535 * 2 ^ 48) at 1 by lia.
      rewrite Z.mod_add by lia. apply Z.mod_small. lia. }
    assert ((2 ^ 47 <=? p - 65535 * 2 ^ 48) = true) as -> by lia.
    unfold prefix. lia.
Qed.

(** X1.  A canonical pointer, in either half of the address space, stored in
    the word as [reinterpret_cast] makes it and then counted up or down any
    number of times, is what [getPointer] gives back. *)
Theorem getPointer_round_trip (p k : Z) :
  canonical p → getPointer (u64 (p + k * increment)) = p.
Proof.
  intros Hp. rewrite getPointer_count by (destruct Hp; lia).
  by apply getPointer_canonical_id.
Qed.

(** X2.  Whatever the 64-bit word, [getPointer] yields a canonical address
    with the word's low 48 bits, the count in the high bits plays no part,
    and decoding twice is decoding once. *)
Theorem getPointer_is_canonical (v k : Z) :
  0 ≤ v < 2 ^ 64 →
  canonical (getPointer v) ∧ getPointer v mod 2 ^ 48 = v mod 2 ^ 48 ∧
  getPointer (u64 (v + k * increment)) = getPointer v ∧
  getPointer (getPointer v) = getPointer v.
Proof.
  intros Hv.
  assert (canonical (getPointer v) ∧ getPointer v mod 2 ^ 48 = v mod 2 ^ 48) as [Hc Hm].
  { rewrite getPointer_bits by done.
    pose proof (Z.mod_pos_bound v (2 ^ 48)) as Hr.
    rewrite <- (Z.mod_pow2_bits_low v 48 47) by lia.
    rewrite testbit47_half by lia.
    destruct (2 ^ 47 <=? v mod 2 ^ 48) eqn:E.
    - split; [right; unfold prefix; lia|].
      change prefix with (65535 * 2 ^ 48). rewrite Z.mod_add by lia.
      apply Z.mod_mod. lia.
    - split; [left; lia|]. rewrite Z.add_0_r. apply Z.mod_mod. lia. }
  split; [done|]. split; [done|]. split; [by apply getPointer_count|].
  by apply getPointer_canonical_id.
Qed.

(** ** One thread: reading, assigning, and what is undefined *)

Lemma u64_incr_decr (v : Z) :
  0 ≤ v < 2 ^ 64 → u64 (u64 (v + increment) - increment) = v.
Proof.
  intros Hv. unfold u64. rewrite Zminus_mod_idemp_l.
  replace (v + increment - increment) with v by lia. by apply Z.mod_small.
Qed.

(** [get], whatever the count in the word. *)
Lemma get_counted (w : World) (cell : Internal) :
  0 ≤ addressAndCopyCounter w < 2 ^ 64 →
  current w ≠ 0 → heap w !! current w = Some cell →
  get w = Ret (current w)
            (put_cell (current w)
               (mkInternal (u64 (refcount cell + 1)) (instance cell)) w).
Proof.
  intros Hv Hnz Hc. unfold current in *.
  destruct w as [h s prev mu]; simpl in *.
  unfold get, safeInstance, mbind, M_bind, bind, load, store, update, set_slot; simpl.
  rewrite (refcount_incr_live (getPointer s) _ cell) by done. simpl.
  rewrite land_suffix_incr, Z.eqb_refl. simpl.
  unfold mret, M_ret, ret, put_cell, set_heap, set_slot; simpl.
  by rewrite u64_incr_decr.
Qed.

(** X3.  [get] counts itself in and out again: whatever count of readers the
    word carries, it returns the Snapshot's address and leaves the word, the
    drain counter and the mutex as it found them; only the Snapshot's own
    count is one higher. *)
Theorem get_restores_the_word (w : World) (cell : Internal) :
  0 ≤ addressAndCopyCounter w < 2 ^ 64 →
  current w ≠ 0 → heap w !! current w = Some cell →
  ∃ w',
    get w = Ret (current w) w' ∧
    addressAndCopyCounter w' = addressAndCopyCounter w ∧
    previousCopyCounter w' = previousCopyCounter w ∧
    editMutex w' = editMutex w ∧
    heap w' = <[current w := mkInternal (u64 (refcount cell + 1)) (instance cell)]>
                (heap w).
Proof.
  intros Hv Hnz Hc.
  exists (put_cell (current w)
            (mkInternal (u64 (refcount cell + 1)) (instance cell)) w).
  split; [by apply get_counted|]. by repeat split.
Qed.

(** [replace] in a world whose current Snapshot is alive, whatever the
    count in the word. *)
Lemma replace_quiet (creator : (T → M Z) + M Z) (vf : T → exn + bool)
    (w : World) (cell : Internal) :
  current w ≠ 0 →
  heap w !! current w = Some cell →
  replace creator (lift vf) w =
  match vf (instance cell) with
  | inl e => Throw e w
  | inr false => Ret false w
  | inr true =>
      match match creator with
            | inl wants_old => wants_old (instance cell) w
            | inr wants_nothing => wants_nothing w
            end with
      | Ret d w1 =>
          if d =? 0 then Ret false w1
          else publish (current w) d w1
      | Throw e w1 => Throw e w1
      | Hang => Hang
      | Undef => Undef
      end
  end.
Proof.
  intros Hnz Hc. unfold current in *.
  unfold replace, mbind, M_bind, bind, load.
  rewrite (deref_live _ w cell) by done.
  unfold lift at 1. destruct (vf (instance cell)) as [e|[|]]; simpl; try done.
  destruct creator as [f|m].
  - rewrite (deref_live _ w cell) by done.
    destruct (f (instance cell) w) as [d w1| | |]; try done. by destruct (d =? 0).
  - destruct (m w) as [d w1| | |]; try done. by destruct (d =? 0).
Qed.

Lemma run_replace (c : mutation) (w : World) :
  editMutex w = false →
  run c w = unlocking (replace (creator_of c) (lift (verdict c)) (set_mutex true w)).
Proof.
  intros Hm.
  destruct c; simpl;
    unfold emplace, reset, tryReset, edit, tryEdit, lock_guard, try_to_lock,
      replaceWithNew, replaceWithModifiedCopy; by rewrite Hm.
Qed.

Lemma creator_of_builds (c : mutation) (old : T) (w1 : World) :
  match creator_of c with
  | inl wants_old => wants_old old w1
  | inr wants_nothing => wants_nothing w1
  end =
  (duplicate ← new_Internal (place_of c)
                 (match builds_from c with
                  | Some args => T_ctor args
                  | None => T_copy old
                  end);
   if modifies c then modify_duplicate (lift (modified c)) duplicate
   else mret duplicate) w1.
Proof.
  destruct c; simpl; try done.
  unfold mbind, M_bind, bind, mret, M_ret, ret.
  by destruct (new_Internal place (T_ctor args) w1).
Qed.

(** X4.  A Snapshot at an address of the upper canonical half: the word
    holding the bare pointer has all sixteen count bits set.  [get] decodes
    the address and works, but the first call that publishes adds 65535 to
    the drain counter and waits for readers that do not exist. *)
Theorem upper_half_snapshot_blocks_publish (c : mutation) (w : World)
    (cell : Internal) (d : Z) (t t' : T) :
  2 ^ 64 - 2 ^ 47 ≤ addressAndCopyCounter w < 2 ^ 64 →
  heap w !! addressAndCopyCounter w = Some cell →
  previousCopyCounter w = 0 → editMutex w = false →
  verdict c (instance cell) = inr true →
  place_of c = Some d → d ≠ 0 → heap w !! d = None →
  match builds_from c with
  | Some args => T_ctor args
  | None => T_copy (instance cell)
  end = inr t →
  modified c t = inr t' →
  current w = addressAndCopyCounter w ∧
  get w = Ret (addressAndCopyCounter w)
            (put_cell (addressAndCopyCounter w)
               (mkInternal (u64 (refcount cell + 1)) (instance cell)) w) ∧
  run c w = Hang.
Proof.
  intros Hv Hc Hp Hm Hverdict Hplace Hd Hfree Hbuilt Hmodified.
  assert (current w = addressAndCopyCounter w) as Hcur
    by (apply getPointer_canonical_id; right; lia).
  split; [done|]. split.
  { rewrite <- Hcur at 1 2. apply get_counted; rewrite ?Hcur; [lia|lia|done]. }
  rewrite run_replace by done.
  set (o := addressAndCopyCounter w) in *.
  assert (current (set_mutex true w) = o) as Hcurl by done.
  rewrite (replace_quiet _ _ _ cell); [|rewrite Hcurl; lia|by rewrite Hcurl].
  rewrite Hverdict, Hcurl. rewrite (creator_of_builds c (instance cell)).
  unfold mbind, M_bind, bind. rewrite Hplace, Hbuilt. simpl.
  change (set_heap (<[d:=mkInternal 1 t]> (heap w)) (set_mutex true w))
    with (put_cell d (mkInternal 1 t) (set_mutex true w)).
  assert ((d =? 0) = false) as Hdz by lia.
  assert (∀ x (w1 : World), previousCopyCounter w1 = 0 → addressAndCopyCounter w1 = o →
            publish o x w1 = Hang) as Hhang.
  { intros x w1 Hp1 Ho1.
    unfold publish, mbind, M_bind, bind, exchange, update, drain. simpl.
    rewrite Hp1, Ho1.
    assert (Z.shiftr o 48 = 65535) as ->.
    { replace o with ((o - 65535 * 2 ^ 48) + 65535 * 2 ^ 48) by lia.
      apply shiftr_packed. lia. }
    done. }
  destruct (modifies c) eqn:Hmod.
  - rewrite modify_duplicate_lift by done. rewrite Hmodified, Hdz.
    by rewrite Hhang.
  - unfold mret, M_ret, ret. rewrite Hdz. by rewrite Hhang.
Qed.

Lemma member_access_settled {A} (field : T → A) (w : World) (cell : Internal) :
  settled w → heap w !! addressAndCopyCounter w = Some cell →
  1 ≤ refcount cell < 2 ^ 64 - 1 →
  member_access field w = Ret (field (instance cell)) w.
Proof.
  intros Hs Hc Hrc. pose proof Hs as (Hu & _ & _).
  set (p := addressAndCopyCounter w) in *.
  assert (p ≠ 0) as Hp by (unfold user_pointer in Hu; lia).
  assert ((p =? 0) = false) as Hp' by lia.
  unfold member_access, operator_arrow, mbind, M_bind, bind.
  rewrite (safeInstance_settled w cell) by done. fold p.
  rewrite u64_small by lia.
  set (cell1 := mkInternal (refcount cell + 1) (instance cell)).
  unfold Reference_arrow, mbind, M_bind, bind.
  rewrite (deref_live p _ cell1); [|done|by simpl; rewrite lookup_insert_eq].
  unfold mret at 1, M_ret at 1, ret at 1.
  unfold Reference_destroy. rewrite Hp'. simpl.
  rewrite (getRidOfPointer_live p _ cell1); [|done|by simpl; rewrite lookup_insert_eq].
  unfold mret, M_ret, ret. f_equal.
  unfold released, cell1; simpl.
  replace (refcount cell + 1 - 1) with (refcount cell) by lia.
  rewrite u64_small by lia.
  assert ((refcount cell =? 0) = false) as -> by lia.
  unfold set_heap; simpl. rewrite insert_insert_eq.
  rewrite insert_id by (by destruct cell). by destruct w.
Qed.

Lemma reachable_current_counted (s : state) :
  reachable s →
  settled (world s) ∧ editMutex (world s) = false ∧
  ∃ cell, heap (world s) !! addressAndCopyCounter (world s) = Some cell ∧
          1 ≤ refcount cell < 2 ^ 64 - 1.
Proof.
  intros Hreach. pose proof (reachable_consistent s Hreach) as Hcons.
  pose proof Hcons as (Hs & Hm & Hsize & Hlive & _).
  pose proof Hs as (Hu & [cell Hc] & _).
  split; [done|]. split; [done|]. exists cell. split; [done|].
  destruct (Hlive _ cell Hc) as [_ ->]. unfold owners.
  rewrite current_settled by done. rewrite decide_True by done.
  pose proof (bound_to_range (handles s) (addressAndCopyCounter (world s))).
  unfold max_handles in Hsize. lia.
Qed.

(** X6.  [tested->field] in any state a client can reach reads the field of
    the current payload and leaves everything as it was: the temporary
    handle's reference is taken and given back. *)
Theorem member_access_reads_current {A} (s : state) (t : T) (field : T → A) :
  reachable s → payload (world s) = Some t →
  member_access field (world s) = Ret (field t) (world s).
Proof.
  intros Hreach Hpay.
  destruct (reachable_current_counted s Hreach) as (Hs & _ & cell & Hc & Hrc).
  unfold payload in Hpay. rewrite current_settled, Hc in Hpay by done.
  injection Hpay as <-. by apply member_access_settled.
Qed.

Lemma modify_duplicate_at (m1 m2 : T → M T) (d : Z) (w : World) :
  (∀ t, m1 t w = m2 t w) → modify_duplicate m1 d w = modify_duplicate m2 d w.
Proof.
  intros Hagree. unfold modify_duplicate, unwinding, mbind, M_bind, bind.
  destruct (deref d w) as [cell w0| | |] eqn:Hd; try done.
  assert (w0 = w) as ->.
  { unfold deref in Hd. destruct (decide (d = 0)); [done|].
    destruct (heap w !! d); [|done]. by injection Hd. }
  by rewrite Hagree.
Qed.

(** X7.  A modifier that reads the container while it runs sees the payload
    that is still published, not its own unfinished object: the call goes on
    as if the modifier had been handed the old payload's field. *)
Theorem modifier_reads_old_payload {A} (s : state) (old : T) (field : T → A)
    (k : A → T → M T) (v : T → exn + bool) (place : option Z) (args : Args) :
  reachable s → payload (world s) = Some old →
  valid_place (heap (world s)) place →
  let m := fun t => x ← member_access field; k x t in
  reset place m (lift v) args (world s)
    = reset place (k (field old)) (lift v) args (world s) ∧
  tryReset place m (lift v) args (world s)
    = tryReset place (k (field old)) (lift v) args (world s) ∧
  edit place m (lift v) (world s) = edit place (k (field old)) (lift v) (world s) ∧
  tryEdit place m (lift v) (world s)
    = tryEdit place (k (field old)) (lift v) (world s).
Proof.
  intros Hreach Hpay Hplace m.
  destruct (reachable_current_counted s Hreach) as (Hs & Hm & cell & Hc & Hrc).
  set (w := world s) in *.
  unfold payload in Hpay. rewrite current_settled, Hc in Hpay by done.
  injection Hpay as <-.
  set (wl := set_mutex true w).
  assert (∀ built : exn + T,
            (duplicate ← new_Internal place built; modify_duplicate m duplicate) wl
            = (duplicate ← new_Internal place built;
               modify_duplicate (k (field (instance cell))) duplicate) wl) as Hcreate.
  { intros built. unfold mbind, M_bind, bind.
    destruct place as [d|]; [|done]. destruct built as [e|made]; [done|]. simpl.
    destruct (Hplace d eq_refl) as [Hdu Hfree].
    assert (d ≠ addressAndCopyCounter w) as Hne by (intros E; congruence).
    apply modify_duplicate_at. intros t. unfold m, mbind, M_bind, bind.
    rewrite (member_access_settled field _ cell);
      [done| |by simpl; rewrite lookup_insert_ne|done].
    destruct Hs as (Hu & _ & Hp). split; [done|]. split; [|done].
    simpl. rewrite lookup_insert_ne by done. eauto. }
  assert (replaceWithNew place m (lift v) args wl
          = replaceWithNew place (k (field (instance cell))) (lift v) args wl) as Hnew.
  { unfold replaceWithNew. rewrite !(replace_settled _ v wl cell) by done.
    destruct (v (instance cell)) as [e|[|]]; try done. by rewrite Hcreate. }
  assert (replaceWithModifiedCopy place m (lift v) wl
          = replaceWithModifiedCopy place (k (field (instance cell))) (lift v) wl) as Hcopy.
  { unfold replaceWithModifiedCopy. rewrite !(replace_settled _ v wl cell) by done.
    destruct (v (instance cell)) as [e|[|]]; try done. by rewrite Hcreate. }
  unfold reset, tryReset, edit, tryEdit, lock_guard, try_to_lock. rewrite Hm.
  fold wl. by rewrite Hnew, Hcopy.
Qed.


Lemma bound_to_two (hs : gmap nat Z) (a b : nat) (p : Z) :
  hs !! a = Some p → hs !! b = Some p → a ≠ b → 2 ≤ bound_to hs p.
Proof.
  intros Ha Hb Hab. rewrite (bound_to_delete hs a p p Ha).
  rewrite decide_True by done.
  assert (delete a hs !! b = Some p) as Hb' by (by rewrite lookup_delete_ne).
  pose proof (bound_to_lookup _ b p Hb'). lia.
Qed.

Lemma handle_counted (s : state) (r : nat) (p : Z) :
  consistent s → handles s !! r = Some p → p ≠ 0 →
  ∃ cell, heap (world s) !! p = Some cell ∧ refcount cell = owners s p ∧
          1 ≤ owners s p < 2 ^ 64 - 1.
Proof.
  intros Hcons Hr Hp.
  destruct (consistent_handle_live s r p Hcons Hr Hp) as [cell Hc].
  destruct Hcons as (_ & _ & Hsize & Hlive & _).
  destruct (Hlive p cell Hc) as [_ Hrc].
  exists cell. split; [done|]. split; [done|]. unfold owners.
  pose proof (bound_to_lookup _ r p Hr). pose proof (bound_to_range (handles s) p).
  unfold max_handles in Hsize. case_decide; lia.
Qed.

Lemma release_counted (w : World) (p : Z) (cell : Internal) :
  p ≠ 0 → heap w !! p = Some cell → 2 ≤ refcount cell < 2 ^ 64 →
  getRidOfPointer p w
  = Ret tt (put_cell p (mkInternal (refcount cell - 1) (instance cell)) w).
Proof.
  intros Hp Hc Hrc. rewrite (getRidOfPointer_live p w cell) by done.
  unfold released. rewrite u64_small by lia.
  by assert ((refcount cell - 1 =? 0) = false) as -> by lia.
Qed.

(** X8.  In every state a client can reach, every call it can write down
    returns or throws, with two exceptions whose behaviour is undefined: copy
    construction from an empty handle, and copy assignment of a handle to
    itself while it is the only owner of its Snapshot (the Snapshot is freed
    before its count is raised again). *)
Theorem calls_defined_but_for_two (s : state) (c : call) :
  reachable s → applicable s c →
  (hazard s c ∧ undefined_call s c ∧ ¬ ∃ s', step s c s') ∨
  (¬ hazard s c ∧ ∃ s', step s c s').
Proof.
  intros Hreach Happ. pose proof (reachable_consistent s Hreach) as Hcons.
  pose proof Hcons as (Hs & Hm & _). pose proof Hs as (Hu & [cur Hcur] & _).
  destruct c as [r|m|r src|r src|r|dst src|dst src]; simpl in Happ.
  - (* get *)
    destruct Happ as [Hfresh Hroom]. right. split; [by intros []|].
    eexists. apply (step_get s r); [done|done|].
    unfold get. by apply (safeInstance_settled _ cur).
  - (* a mutating call *)
    right. split; [by intros []|].
    destruct (run_cases m (world s) cur Hs Happ Hcur)
      as [(e & He & _)|[[He _]|[(d & t & He & _)|(_ & _ & Hl)]]]; [| | |congruence].
    + eexists. by apply (step_mutate_throw s m e).
    + eexists. by apply (step_mutate s m false).
    + eexists. by apply (step_mutate s m true).
  - (* copy construction *)
    destruct Happ as (Hfresh & Hroom & [p Hsrc]).
    destruct (decide (p = 0)) as [->|Hp].
    + left. split; [done|]. split; [by exists 0|]. intros [s' Hstep].
      inversion Hstep as [| | |s0 r0 src0 p0 p' w' _ _ Hsrc0 Hrun| | | |]; subst.
      rewrite Hsrc in Hsrc0. injection Hsrc0 as <-. done.
    + right. split; [simpl; congruence|].
      destruct (handle_counted s src p Hcons Hsrc Hp) as (cell & Hc & _).
      eexists. apply (step_copy s r src p p); [done..|].
      unfold Reference_copy, mbind, M_bind, bind.
      by rewrite (refcount_incr_live p _ cell).
  - (* move construction *)
    destruct Happ as (Hfresh & Hroom & [p Hsrc]).
    right. split; [by intros []|].
    destruct (decide (p = 0)) as [->|Hp].
    + eexists. by apply (step_move s r src 0 0 0).
    + eexists. apply (step_move s r src p p 0); [done..|].
      unfold Reference_move. by assert ((p =? 0) = false) as -> by lia.
  - (* destruction *)
    destruct Happ as [p Hr]. right. split; [by intros []|].
    destruct (decide (p = 0)) as [->|Hp].
    + eexists. by apply (step_destroy s r 0).
    + destruct (handle_counted s r p Hcons Hr Hp) as (cell & Hc & _).
      eexists. apply (step_destroy s r p); [done|].
      unfold Reference_destroy. assert ((p =? 0) = false) as -> by lia. simpl.
      by apply (getRidOfPointer_live p _ cell).
  - (* copy assignment *)
    destruct Happ as ([p Hdst] & [q Hsrc]).
    destruct (decide (dst = src)) as [->|Hne].
    + rewrite Hdst in Hsrc. injection Hsrc as <-.
      destruct (decide (p = 0)) as [->|Hp].
      { right. split; [by intros (_ & p0 & Hp0 & Hnz & _); congruence|].
        eexists. by apply (step_copy_assign s src src 0 0 0). }
      destruct (handle_counted s src p Hcons Hdst Hp) as (cell & Hc & Hrc & Hown).
      assert ((p =? 0) = false) as Hp' by lia.
      destruct (decide (owners s p = 1)) as [Hone|Hmore].
      * assert (Reference_copy_assign p p (world s) = Undef) as Hundef.
        { unfold Reference_copy_assign, mbind, M_bind, bind. rewrite Hp'. simpl.
          rewrite (getRidOfPointer_live p _ cell) by done.
          unfold released. rewrite Hrc, Hone. simpl.
          unfold refcount_incr, mbind, M_bind, bind, deref.
          rewrite decide_False by done. simpl. by rewrite lookup_delete_eq. }
        left. split; [by split; [|exists p]|]. split; [by exists p, p|].
        intros [s' Hstep].
        inversion Hstep as [| | | | | |s0 d0 s1 p0 q0 p' w' Hd0 Hs1 Hrun|]; subst.
        rewrite Hdst in Hd0, Hs1. injection Hd0 as <-. injection Hs1 as <-.
        by rewrite Hundef in Hrun.
      * right. split; [intros (_ & p0 & Hp0 & _ & Hone); congruence|].
        eexists. apply (step_copy_assign s src src p p p); [done..|].
        unfold Reference_copy_assign, mbind, M_bind, bind. rewrite Hp'. simpl.
        rewrite (release_counted _ p cell) by (done || lia).
        by rewrite (refcount_incr_live p _ (mkInternal (refcount cell - 1) (instance cell)))
          by (done || (simpl; by rewrite lookup_insert_eq)).
    + right. split; [by intros [? _]|].
      assert (∃ w1, (if negb (p =? 0) then getRidOfPointer p else mret tt) (world s)
                    = Ret tt w1 ∧ (q ≠ 0 → is_Some (heap w1 !! q)))
        as (w1 & Hgo & Hlive).
      { destruct (decide (p = 0)) as [->|Hp].
        - exists (world s). split; [done|]. intros Hq.
          destruct (handle_counted s src q Hcons Hsrc Hq) as (cell & Hc & _). eauto.
        - assert ((p =? 0) = false) as -> by lia. simpl.
          destruct (handle_counted s dst p Hcons Hdst Hp) as (cell & Hc & Hrc & Hown).
          destruct (decide (p = q)) as [<-|Hpq].
          + pose proof (bound_to_two (handles s) dst src p Hdst Hsrc Hne) as Htwo.
            assert (2 ≤ owners s p) by (unfold owners; case_decide; lia).
            eexists. split; [apply (release_counted _ p cell); done || lia|].
            intros _. simpl. rewrite lookup_insert_eq. eauto.
          + eexists. split; [by apply (getRidOfPointer_live p _ cell)|].
            intros Hq. simpl. rewrite lookup_released_ne by done.
            destruct (handle_counted s src q Hcons Hsrc Hq) as (cq & Hcq & _). eauto. }
      destruct (decide (q = 0)) as [->|Hq].
      * eexists. apply (step_copy_assign s dst src p 0 0); [done..|].
        unfold Reference_copy_assign, mbind, M_bind, bind. by rewrite Hgo.
      * destruct (Hlive Hq) as [cq Hcq].
        eexists. apply (step_copy_assign s dst src p q q); [done..|].
        unfold Reference_copy_assign, mbind, M_bind, bind. rewrite Hgo.
        assert ((q =? 0) = false) as -> by lia. simpl.
        by rewrite (refcount_incr_live q _ cq).
  - (* move assignment *)
    destruct Happ as ([p Hdst] & [q Hsrc]). right. split; [by intros []|].
    destruct (decide (p = 0)) as [->|Hp].
    + eexists. by apply (step_move_assign s dst src 0 q q 0).
    + destruct (handle_counted s dst p Hcons Hdst Hp) as (cell & Hc & _).
      eexists. apply (step_move_assign s dst src p q q 0); [done..|].
      unfold Reference_move_assign, mbind, M_bind, bind.
      assert ((p =? 0) = false) as -> by lia. simpl.
      by rewrite (getRidOfPointer_live p _ cell).
Qed.


Lemma let_go_fields (w w1 : World) (p : Z) (u : unit) :
  (if negb (p =? 0) then getRidOfPointer p else mret tt) w = Ret u w1 →
  addressAndCopyCounter w1 = addressAndCopyCounter w.
Proof.
  destruct (p =? 0); simpl.
  { intros Hrun. change (Ret tt w = Ret u w1) in Hrun. by inversion Hrun. }
  intros Hrun. apply getRidOfPointer_returns in Hrun as (_ & cell & _ & ->). reflexivity.
Qed.

Lemma Reference_copy_assign_returns (p q x : Z) (w w' : World) :
  Reference_copy_assign p q w = Ret x w' →
  x = q ∧ addressAndCopyCounter w' = addressAndCopyCounter w.
Proof.
  unfold Reference_copy_assign, mbind, M_bind, bind. intros Hrun.
  destruct ((if negb (p =? 0) then getRidOfPointer p else mret tt) w)
    as [u w1| | |] eqn:Hgo; try done.
  apply let_go_fields in Hgo.
  destruct (q =? 0); simpl in Hrun.
  { change (Ret q w1 = Ret x w') in Hrun. by inversion Hrun; subst. }
  destruct (refcount_incr q w1) as [u' w2| | |] eqn:Hinc; try done.
  injection Hrun as <- <-.
  apply refcount_incr_returns in Hinc as (_ & cell & _ & ->). split; [reflexivity|exact Hgo].
Qed.

(** X9.  After [dst = src] with [src] bound to a Snapshot, [dst] is bound to
    it too, its payload is unchanged and its count is one higher, unless
    [dst] was bound to it already; the container's slot is untouched. *)
Theorem copy_assignment_shares (s s' : state) (dst src : nat) (p q : Z)
    (cell : Internal) :
  reachable s → step s (CopyAssign dst src) s' →
  handles s !! dst = Some p → handles s !! src = Some q →
  q ≠ 0 → heap (world s) !! q = Some cell →
  handles s' = <[dst := q]> (handles s) ∧
  current (world s') = current (world s) ∧
  heap (world s') !! q
  = Some (mkInternal (refcount cell + (if decide (p = q) then 0 else 1))
            (instance cell)).
Proof.
  intros Hreach Hstep Hdst Hsrc Hq Hc.
  pose proof (reachable_consistent s Hreach) as Hcons.
  destruct (step_consistent s s' _ Hcons Hstep) as [Hcons' Hsame].
  inversion Hstep as [| | | | | |s0 d0 s1 p0 q0 p' w' Hd0 Hs1 Hrun|]; subst.
  rewrite Hdst in Hd0. injection Hd0 as <-.
  rewrite Hsrc in Hs1. injection Hs1 as <-.
  apply Reference_copy_assign_returns in Hrun as [Hx Hslot]. subst p'.
  split; [done|]. split; [by unfold current; simpl; rewrite Hslot|].
  set (s' := mkState w' (<[dst:=q]> (handles s))) in *.
  assert (handles s' !! dst = Some q) as Hdst' by apply lookup_insert_eq.
  destruct (handle_counted s' dst q Hcons' Hdst' Hq) as (cell' & Hc' & Hrc' & _).
  destruct (handle_counted s src q Hcons Hsrc Hq) as (cell0 & Hc0 & Hrc & _).
  rewrite Hc in Hc0. injection Hc0 as <-.
  destruct (Hsame q cell' Hc') as [Hnone|(c0 & Hc0 & Heq)]; [congruence|].
  rewrite Hc in Hc0. injection Hc0 as <-.
  change (heap w' !! q) with (heap (world s') !! q). rewrite Hc'. f_equal.
  destruct cell' as [rc' t']; simpl in *. subst t'. f_equal.
  rewrite Hrc', Hrc. unfold owners.
  change (handles s') with (<[dst:=q]> (handles s)).
  change (current (world s')) with (getPointer (addressAndCopyCounter w')).
  rewrite Hslot. fold (current (world s)).
  rewrite bound_to_insert, (bound_to_delete (handles s) dst p q Hdst).
  rewrite decide_True by done.
  destruct (decide (p = q)); lia.
Qed.

(** X10.  After [dst = std::move(src)], [dst] is bound to what [src] was
    bound to and [src] is empty; the count of that Snapshot does not change
    (unless [dst] gave up a reference to the same one), its payload is the
    same, and the container's slot is untouched. *)
Theorem move_assignment_transfers (s s' : state) (dst src : nat) (p q : Z) :
  reachable s → step s (MoveAssign dst src) s' →
  handles s !! dst = Some p → handles s !! src = Some q →
  handles s' = <[src := 0]> (<[dst := q]> (handles s)) ∧
  current (world s') = current (world s) ∧
  (p = 0 → world s' = world s) ∧
  (p ≠ q → heap (world s') !! q = heap (world s) !! q) ∧
  (dst ≠ src → q ≠ 0 →
     ∃ cell cell', heap (world s) !! q = Some cell ∧
                   heap (world s') !! q = Some cell' ∧
                   instance cell' = instance cell).
Proof.
  intros Hreach Hstep Hdst Hsrc.
  pose proof (reachable_consistent s Hreach) as Hcons.
  destruct (step_consistent s s' _ Hcons Hstep) as [Hcons' Hsame].
  inversion Hstep as [| | | | | | |s0 d0 s1 p0 q0 p' left w' Hd0 Hs1 Hrun]; subst.
  rewrite Hdst in Hd0. injection Hd0 as <-.
  rewrite Hsrc in Hs1. injection Hs1 as <-.
  unfold Reference_move_assign, mbind, M_bind, bind in Hrun.
  destruct ((if negb (p =? 0) then getRidOfPointer p else mret tt) (world s))
    as [u w1| | |] eqn:Hgo; try done.
  injection Hrun as <- <- <-.
  split; [done|]. split; [by unfold current; simpl; rewrite (let_go_fields _ _ _ _ Hgo)|].
  split; [|split].
  - intros ->. change (Ret tt (world s) = Ret u w1) in Hgo. by inversion Hgo.
  - intros Hpq. simpl. destruct (p =? 0) eqn:E; simpl in Hgo.
    { change (Ret tt (world s) = Ret u w1) in Hgo. by inversion Hgo. }
    apply getRidOfPointer_returns in Hgo as (_ & cell & _ & ->). simpl.
    by apply lookup_released_ne.
  - intros Hne Hq.
    set (s' := mkState w1 (<[src:=0]> (<[dst:=q]> (handles s)))) in *.
    assert (handles s' !! dst = Some q) as Hdst'.
    { simpl. rewrite lookup_insert_ne by done. apply lookup_insert_eq. }
    destruct (handle_counted s' dst q Hcons' Hdst' Hq) as (cell' & Hc' & _).
    destruct (handle_counted s src q Hcons Hsrc Hq) as (cell & Hc & _).
    destruct (Hsame q cell' Hc') as [Hnone|(c0 & Hc0 & Heq)]; [congruence|].
    rewrite Hc in Hc0. injection Hc0 as <-. by exists cell, cell'.
Qed.

(** X5.  The constructor either leaves one Snapshot with count one holding
    [T(args)], the word being its bare address with no reader counted, the
    drain counter zero and the mutex free, and touches no other storage; or
    the failure of the allocation or of [T]'s constructor leaves the call and
    the free store is as before. *)
Theorem construct_first_snapshot (place : option Z) (args : Args)
    (h : gmap Z Internal) :
  valid_place h place →
  match construct place args h with
  | Ret _ w =>
      ∃ p t, place = Some p ∧ T_ctor args = inr t ∧
             w = mkWorld (<[p := mkInternal 1 t]> h) p 0 false ∧
             settled w ∧ current w = p ∧ payload w = Some t ∧
             ∀ x, x ≠ p → heap w !! x = h !! x
  | Throw e w =>
      w = mkWorld h 0 0 false ∧
      (place = None ∧ e = bad_alloc ∨ is_Some place ∧ T_ctor args = inl e)
  | Hang | Undef => False
  end.
Proof.
  intros Hplace. unfold construct, mbind, M_bind, bind.
  destruct place as [p|]; simpl; [|by eauto].
  destruct (Hplace p eq_refl) as [Hp Hfree].
  destruct (T_ctor args) as [e|t]; simpl; [by eauto|].
  exists p, t. split; [done|]. split; [done|]. split; [done|].
  assert (settled (mkWorld (<[p:=mkInternal 1 t]> h) p 0 false)) as Hs.
  { split; [done|]. split; [|done]. simpl. rewrite lookup_insert_eq. eauto. }
  split; [done|]. split; [by apply getPointer_user|]. split.
  - unfold payload. rewrite current_settled by done. simpl.
    by rewrite lookup_insert_eq.
  - intros x Hx. simpl. by rewrite lookup_insert_ne.
Qed.

Lemma steps_snoc (s s1 s2 : state) (cs : list call) (c : call) :
  steps s cs s1 → step s1 c s2 → steps s (cs ++ [c]) s2.
Proof.
  intros Hsteps Hstep. induction Hsteps as [|s0 c0 s' cs0 s'' Hfirst _ IH]; simpl.
  - eapply steps_cons; [done|apply steps_nil].
  - eapply steps_cons; [done|by apply IH].
Qed.

(** ** Any number of threads below [2^16]: what every interleaving keeps *)

Lemma booted_invariant (n : nat) (s0 s : system) :
  Z.of_nat n < 2 ^ 16 → boot n s0 → runs s0 s → invariant s.
Proof.
  intros Hn Hboot Hruns.
  apply (runs_invariant s0 s); [|done]. by apply (boot_invariant n).
Qed.

Lemma invariant_current (s : system) :
  invariant s →
  current (shared s) = address (addressAndCopyCounter (shared s)) ∧
  user_pointer (current (shared s)).
Proof.
  intros Hinv. pose proof (inv_current s Hinv) as Hu.
  unfold current. rewrite getPointer_address by done. done.
Qed.

(** X11.  Under any interleaving, at most one thread is inside a mutating
    call past its lock, and the mutex is held exactly when one is. *)
Theorem writers_exclude_each_other (n : nat) (s0 s : system) :
  Z.of_nat n < 2 ^ 16 → boot n s0 → runs s0 s →
  (∀ i j ti tj,
     threads s !! i = Some ti → threads s !! j = Some tj →
     critical ti = 1 → critical tj = 1 → i = j) ∧
  (editMutex (shared s) = true ↔
   ∃ i t, threads s !! i = Some t ∧ critical t = 1).
Proof.
  intros Hn Hboot Hruns. pose proof (booted_invariant n s0 s Hn Hboot Hruns) as Hinv.
  pose proof (critical_le_one s Hinv) as Hone.
  pose proof (inv_mutex s Hinv) as Hmutex.
  split.
  - intros i j ti tj Hi Hj. by apply (one_writer (threads s)).
  - split.
    + intros Hlocked. rewrite Hlocked in Hmutex.
      destruct (total_pos_inv critical (threads s)) as (i & t & Hi & Hpos); [lia|].
      exists i, t. split; [done|]. pose proof (critical_range t). lia.
    + intros (i & t & Hi & Hcrit).
      pose proof (total_elem_le critical (threads s) i t
                    (fun x => proj1 (critical_range x)) Hi).
      destruct (editMutex (shared s)); [done|lia].
Qed.

(** X12.  Under any interleaving, the count of every allocated Snapshot is
    the number of references the threads own to it (handles, the reference a
    reader has just taken, a writer's reference to its new or to the replaced
    object), plus one if it is the current one; its count is zero exactly
    while one thread, and only one, is about to delete it; and unallocated
    storage is referenced by nobody. *)
Theorem counts_match_references (n : nat) (s0 s : system) (p : Z) :
  Z.of_nat n < 2 ^ 16 → boot n s0 → runs s0 s →
  match heap (shared s) !! p with
  | Some cell =>
      refcount cell
      = same p (current (shared s)) + total (refs p) (threads s) ∧
      (refcount cell = 0 ↔ ∃ i t, threads s !! i = Some t ∧ dying p t = 1) ∧
      (∀ i j ti tj, threads s !! i = Some ti → threads s !! j = Some tj →
                    dying p ti = 1 → dying p tj = 1 → i = j)
  | None =>
      p ≠ current (shared s) ∧
      ∀ i t, threads s !! i = Some t → refs p t = 0 ∧ dying p t = 0
  end.
Proof.
  intros Hn Hboot Hruns. pose proof (booted_invariant n s0 s Hn Hboot Hruns) as Hinv.
  destruct (invariant_current s Hinv) as [-> _].
  pose proof (inv_counts s Hinv p) as Hp.
  destruct (heap (shared s) !! p) as [cell|].
  - destruct Hp as [Hrc Hdy]. split; [done|]. split; [split|].
    + intros Hz. rewrite Hz in Hdy. simpl in Hdy.
      destruct (total_pos_inv (dying p) (threads s)) as (i & t & Hi & Hpos); [lia|].
      exists i, t. split; [done|]. pose proof (dying_range p t). lia.
    + intros (i & t & Hi & Hd).
      pose proof (total_elem_le (dying p) (threads s) i t
                    (fun x => proj1 (dying_range p x)) Hi).
      destruct (refcount cell =? 0) eqn:E; lia.
    + intros i j ti tj Hi Hj Hdi Hdj.
      destruct (decide (i = j)) as [|Hne]; [done|].
      pose proof (total_two_le (dying p) (threads s) i j ti tj
                    (fun x => proj1 (dying_range p x)) Hne Hi Hj).
      destruct (refcount cell =? 0); lia.
  - destruct Hp as (Hne & Hrefs & Hdy). split; [done|]. intros i t Hi. split.
    + by apply (total_zero_inv (refs p) (threads s) i t (refs_nonneg p)).
    + by apply (total_zero_inv (dying p) (threads s) i t
                  (fun x => proj1 (dying_range p x))).
Qed.

(** X13.  Under any interleaving, the word is the address of a live Snapshot
    with a count of at least one, plus [2^48] times the number of readers
    that counted themselves in under that address and not yet out. *)
Theorem word_counts_readers_in_flight (n : nat) (s0 s : system) :
  Z.of_nat n < 2 ^ 16 → boot n s0 → runs s0 s →
  let cur := current (shared s) in
  user_pointer cur ∧
  (∃ cell, heap (shared s) !! cur = Some cell ∧ 1 ≤ refcount cell) ∧
  addressAndCopyCounter (shared s) = cur + total (fly cur) (threads s) * 2 ^ 48 ∧
  0 ≤ total (fly cur) (threads s) ≤ Z.of_nat (length (threads s)) ∧
  Z.of_nat (length (threads s)) < 2 ^ 16.
Proof.
  intros Hn Hboot Hruns cur. pose proof (booted_invariant n s0 s Hn Hboot Hruns) as Hinv.
  destruct (invariant_current s Hinv) as [Hcur Hu]. unfold cur. rewrite Hcur in *.
  split; [done|]. split.
  { destruct (cur_live s Hinv) as (cell & Hc & Hrc & _). eauto. }
  split; [apply (inv_slot s Hinv)|].
  pose proof (fly_total_bound s (address (addressAndCopyCounter (shared s)))) as [Hf Hl].
  split; [lia|]. apply (inv_threads s Hinv).
Qed.

(** X15.  Under any interleaving, the drain counter is the number of readers
    in flight under a replaced address less what a writer has still to add;
    it stays within sixteen bits either way, so the [int] never wraps, and it
    is negative only while a writer stands between its exchange and its
    addition, which brings it back to zero or above. *)
Theorem drain_counter_bounded (n : nat) (s0 s : system) :
  Z.of_nat n < 2 ^ 16 → boot n s0 → runs s0 s →
  previousCopyCounter (shared s)
  = total in_flight (threads s) - total (fly (current (shared s))) (threads s)
    - total debt (threads s) ∧
  - 2 ^ 16 < previousCopyCounter (shared s) < 2 ^ 16 ∧
  (previousCopyCounter (shared s) < 0 →
   ∃ i t o oldValue, threads s !! i = Some t ∧ at_pc t = W_transfer o oldValue ∧
                     0 ≤ previousCopyCounter (shared s) + Z.shiftr oldValue 48).
Proof.
  intros Hn Hboot Hruns. pose proof (booted_invariant n s0 s Hn Hboot Hruns) as Hinv.
  destruct (invariant_current s Hinv) as [-> _].
  pose proof (inv_drain s Hinv) as Hdrain.
  split; [lia|]. split; [by apply drain_counter_range|].
  intros Hneg.
  pose proof (fly_total_bound s (address (addressAndCopyCounter (shared s)))) as [Hf Hl].
  destruct (total_pos_inv debt (threads s)) as (i & t & Hi & Hpos); [lia|].
  assert (critical t = 1) as Hcrit.
  { pose proof (critical_range t). destruct (decide (critical t = 0)) as [Hz|]; [|lia].
    rewrite (debt_critical t Hz) in Hpos. lia. }
  rewrite (total_of_the_writer debt (threads s) i t debt_critical
             (critical_le_one s Hinv) Hi Hcrit) in Hdrain.
  unfold debt in Hpos, Hdrain. destruct (at_pc t) eqn:Hpc; try lia.
  exists i, t, original, oldValue. split; [done|]. split; [done|]. lia.
Qed.

Lemma current_not_draft (s : system) :
  invariant s →
  total (drafting (address (addressAndCopyCounter (shared s)))) (threads s) = 0.
Proof.
  intros Hinv. set (cur := address (addressAndCopyCounter (shared s))).
  pose proof (total_nonneg (drafting cur) (threads s)
                (fun x => proj1 (drafting_range cur x))) as Hnn.
  destruct (decide (total (drafting cur) (threads s) = 0)) as [|Hnz]; [done|]. exfalso.
  destruct (total_pos_inv (drafting cur) (threads s)) as (j & tj & Hj & Hpos); [lia|].
  assert (drafting cur tj = 1) as Hd by (pose proof (drafting_range cur tj);
                                         pose proof (critical_range tj); lia).
  by destruct (draft_private s Hinv j tj cur Hj Hd) as (Hne & _).
Qed.

Lemma thread_step_published (a : action) (w w' : World) (pub pub' : list T)
    (t t' : thread) :
  thread_step a w pub t = Moved w' pub' t' →
  pub' = pub ∨
  ∃ c o d cell, at_pc t = W_exchange c o d ∧ heap w !! d = Some cell ∧
                pub' = instance cell :: pub.
Proof.
  intros Hstep. unfold thread_step in Hstep.
  destruct (at_pc t) eqn:Hpc, a; try discriminate Hstep.
  all: unfold with_cell, live in Hstep.
  all: repeat match type of Hstep with
       | context [match ?x with _ => _ end] => destruct x eqn:?; try discriminate Hstep
       end.
  all: injection Hstep as <- <- <-; eauto 10.
Qed.

Lemma own_step_tracked (P : T → Prop) (s : system) (i : nat) (t t' : thread)
    (a : action) (w' : World) (pub' : list T) :
  invariant s → tracked P s → permitted P a → threads s !! i = Some t →
  thread_step a (shared s) (published s) t = Moved w' pub' t' →
  writer_ok P w' t'.
Proof.
  intros Hinv [Hpub Hall] Hperm Hi Hstep.
  pose proof (Hall i t Hi) as Hok. unfold writer_ok in Hok.
  destruct (inv_each s Hinv i t Hi) as [_ Hpc_ok].
  unfold thread_step in Hstep.
  destruct (at_pc t) eqn:Hpc, a; try discriminate Hstep.
  all: unfold with_cell, live in Hstep.
  all: repeat match type of Hstep with
       | context [match ?x with _ => _ end] => destruct x eqn:?; try discriminate Hstep
       end.
  all: injection Hstep as <- <- <-.
  all: unfold writer_ok; cbn [at_pc]; rewrite ?Hpc; try done.
  all: repeat match goal with
       | H : (if decide (?z = 0) then None else _) = Some _ |- _ =>
           destruct (decide (z = 0)); [discriminate H|]
       end.
  all: cbn [put_cell set_heap heap]; rewrite ?lookup_insert_eq.
  - (* the verifier passed *)
    split; [done|]. eexists. split; [done|]. split; [|done].
    apply Hpub. apply (inv_published s Hinv original); [done|].
    rewrite Hpc_ok. by apply current_not_draft.
  - (* a new payload, to be modified *)
    destruct Hok as (Hkeeps & cell & Hc & HP & Hv). split; [done|].
    exists (instance cell). eexists. split; [done|]. split; [done|]. split; [done|].
    unfold built. simpl. by match goal with H : builds_from _ = _ |- _ => rewrite H end.
  - (* a new payload, published as it is *)
    destruct Hok as (Hkeeps & cell & Hc & HP & Hv). eexists. split; [done|]. simpl.
    apply (Hkeeps (instance cell) t0 t0); [done|done| |].
    + unfold built. by match goal with H : builds_from _ = _ |- _ => rewrite H end.
    + by destruct c.
  - (* a copy, to be modified *)
    destruct Hok as (Hkeeps & cell & Hc & HP & Hv). split; [done|].
    exists (instance cell). eexists. split; [done|]. split; [done|]. split; [done|].
    unfold built. simpl. match goal with H : builds_from _ = _ |- _ => rewrite H end.
    match goal with H : heap _ !! original = Some ?c |- _ =>
      rewrite Hc in H; injection H as <- end. done.
  - (* a copy is always modified *)
    by destruct c.
  - (* the modifier is done *)
    destruct Hok as (Hkeeps & old & cell & HP & Hv & Hc & Hb).
    eexists. split; [done|]. simpl.
    match goal with H : heap _ !! duplicate = Some ?c |- _ =>
      rewrite Hc in H; injection H as <- end.
    by apply (Hkeeps old (instance cell) t0).
Qed.

Lemma counted_not_dying (s : system) (p : Z) (cell : Internal) (i : nat) (t : thread) :
  invariant s → heap (shared s) !! p = Some cell → 1 ≤ refcount cell →
  threads s !! i = Some t → dying p t = 0.
Proof.
  intros Hinv Hc Hrc Hi.
  apply (total_zero_inv (dying p) (threads s) i t
           (fun x => proj1 (dying_range p x))); [|done].
  pose proof (inv_counts s Hinv p) as Hp. rewrite Hc in Hp. destruct Hp as [_ ->].
  destruct (refcount cell =? 0) eqn:E; [lia|done].
Qed.

Lemma others_tracked (P : T → Prop) (s : system) (i j : nat) (t t' tj : thread)
    (a : action) (w' : World) (pub' : list T) :
  invariant s → tracked P s → threads s !! i = Some t →
  thread_step a (shared s) (published s) t = Moved w' pub' t' →
  j ≠ i → threads s !! j = Some tj →
  writer_ok P w' tj.
Proof.
  intros Hinv [Hpub Hall] Hi Hstep Hne Hj.
  pose proof (Hall j tj Hj) as Hok.
  destruct (inv_each s Hinv j tj Hj) as [_ Hpc_ok].
  assert (critical tj = 1 → ∀ h, drafting h t = 0) as Hquiet.
  { intros Hcrit h.
    assert (critical t = 0) as Hz.
    { pose proof (critical_range t).
      destruct (decide (critical t = 0)) as [|Hnz]; [done|]. exfalso. apply Hne.
      apply (one_writer (threads s) j i tj t (critical_le_one s Hinv)); [done..|lia]. }
    pose proof (drafting_range h t). lia. }
  assert (∀ h cell, critical tj = 1 → heap (shared s) !! h = Some cell →
            1 ≤ refcount cell →
            ∃ cell', heap w' !! h = Some cell' ∧ instance cell' = instance cell) as Hkept.
  { intros h cell Hcrit Hc Hrc.
    apply (thread_step_heap a (shared s) w' (published s) pub' t t' h cell Hstep Hc).
    - by apply (counted_not_dying s h cell i t).
    - by apply Hquiet. }
  unfold writer_ok in *. destruct (at_pc tj) eqn:Hpc; try done.
  - (* W_create *)
    destruct Hok as (Hkeeps & cell & Hc & HP & Hv). split; [done|].
    destruct (cur_live s Hinv) as (cur & Hcur & Hrc & _).
    rewrite <- Hpc_ok, Hc in Hcur. injection Hcur as <-.
    destruct (Hkept original cell) as (cell' & Hc' & Heq);
      [by unfold critical; rewrite Hpc|done|done|].
    exists cell'. by rewrite Heq.
  - (* W_modify *)
    destruct Hok as (Hkeeps & old & cell & HP & Hv & Hc & Hb). split; [done|].
    destruct (live_of_refs s Hinv j tj duplicate Hj) as (c0 & Hc0 & Hrc & _).
    { unfold refs. rewrite Hpc, same_refl. pose proof (held_nonneg duplicate (held tj)). lia. }
    rewrite Hc in Hc0. injection Hc0 as <-.
    destruct (Hkept duplicate cell) as (cell' & Hc' & Heq);
      [by unfold critical; rewrite Hpc|done|done|].
    exists old, cell'. by rewrite Heq.
  - (* W_exchange *)
    destruct Hok as (cell & Hc & HP).
    destruct (live_of_refs s Hinv j tj replacement Hj) as (c0 & Hc0 & Hrc & _).
    { unfold refs. rewrite Hpc, same_refl. pose proof (held_nonneg replacement (held tj)). lia. }
    rewrite Hc in Hc0. injection Hc0 as <-.
    destruct (Hkept replacement cell) as (cell' & Hc' & Heq);
      [by unfold critical; rewrite Hpc|done|done|].
    exists cell'. by rewrite Heq.
Qed.

Lemma step_tracked (P : T → Prop) (s s' : system) (i : nat) (a : action) :
  invariant s → tracked P s → permitted P a →
  system_step i a s = Next s' → tracked P s'.
Proof.
  intros Hinv Htr Hperm Hstep. unfold system_step in Hstep.
  destruct (threads s !! i) as [t|] eqn:Hi; [|done].
  destruct (match a with
            | StartGet => negb (total holding (threads s) <? max_handles)
            | _ => false
            end); [done|].
  destruct (thread_step a (shared s) (published s) t) as [w' pub' t'| |] eqn:Hmove;
    [|done..].
  injection Hstep as <-. split; cbn [shared threads published].
  - intros x Hx.
    destruct (thread_step_published _ _ _ _ _ _ _ Hmove)
      as [->|(c & o & d & cell & Hpc & Hc & ->)]; [by apply (proj1 Htr)|].
    apply elem_of_cons in Hx as [->|Hx]; [|by apply (proj1 Htr)].
    pose proof (proj2 Htr i t Hi) as Hok. unfold writer_ok in Hok. rewrite Hpc in Hok.
    destruct Hok as (cell' & Hc' & HP). congruence.
  - intros j tj Hj. destruct (decide (j = i)) as [->|Hne].
    + rewrite list_lookup_insert_eq in Hj by (by eapply lookup_lt_Some).
      injection Hj as <-. by apply (own_step_tracked P s i t t' a w' pub').
    + rewrite list_lookup_insert_ne in Hj by done.
      by apply (others_tracked P s i j t t' tj a w' pub').
Qed.

Lemma runs_tracked (P : T → Prop) (s s' : system) :
  invariant s → tracked P s → runs_keeping P s s' → invariant s' ∧ tracked P s'.
Proof.
  intros Hinv Htr Hruns. induction Hruns as [|s i a s' s'' Hperm Hstep _ IH]; [done|].
  apply IH; [by apply (step_invariant s s' i a)|by apply (step_tracked P s s' i a)].
Qed.

(** X16.  If the first payload has the property [P] and every mutating call
    that is started keeps [P], then under any interleaving every payload read
    through a handle, and the current payload, has [P]: what the stress tests
    of the test program check of the values their readers see. *)
Theorem readers_see_only_kept_payloads (P : T → Prop) (n : nat) (s0 s : system) :
  Z.of_nat n < 2 ^ 16 → boot n s0 → (∀ t, t ∈ published s0 → P t) →
  runs_keeping P s0 s →
  (∀ i t h cell, threads s !! i = Some t → h ∈ held t →
                 heap (shared s) !! h = Some cell → P (instance cell)) ∧
  (∀ t, payload (shared s) = Some t → P t).
Proof.
  intros Hn Hboot Hfirst Hruns.
  pose proof (boot_invariant n s0 Hn Hboot) as Hinv0.
  assert (tracked P s0) as Htr0.
  { split; [done|]. intros i t Hi.
    destruct Hboot as (place & args & w & cell & _ & _ & _ & ->). simpl in Hi.
    apply lookup_replicate in Hi as [-> _]. done. }
  destruct (runs_tracked P s0 s Hinv0 Htr0 Hruns) as [Hinv [Hpub _]].
  split.
  - intros i t h cell Hi Hh Hc.
    destruct (invariant_safe s Hinv) as [_ Hheld].
    destruct (Hheld i t h Hi Hh) as (cell' & Hc' & Hin).
    rewrite Hc in Hc'. injection Hc' as <-. by apply Hpub.
  - intros t Hpay. unfold payload in Hpay.
    destruct (invariant_current s Hinv) as [Hcur _]. rewrite Hcur in Hpay.
    destruct (heap (shared s) !! address (addressAndCopyCounter (shared s)))
      as [cell|] eqn:Hc; [|done].
    injection Hpay as <-. apply Hpub.
    apply (inv_published s Hinv _ cell Hc). by apply current_not_draft.
Qed.

Lemma thread_step_word (a : action) (w w' : World) (pub pub' : list T)
    (t t' : thread) :
  thread_step a w pub t = Moved w' pub' t' →
  address (addressAndCopyCounter w') = address (addressAndCopyCounter w) ∨
  ∃ c o d, at_pc t = W_exchange c o d ∧ addressAndCopyCounter w' = d ∧
           at_pc t' = W_transfer o (addressAndCopyCounter w).
Proof.
  intros Hstep. unfold thread_step in Hstep.
  destruct (at_pc t) eqn:Hpc, a; try discriminate Hstep.
  all: unfold with_cell, live in Hstep.
  all: repeat match type of Hstep with
       | context [match ?x with _ => _ end] => destruct x eqn:?; try discriminate Hstep
       end.
  all: injection Hstep as <- <- <-.
  all: cbn [set_slot set_previous set_mutex put_cell free_cell set_heap
            addressAndCopyCounter at_pc].
  all: try (by left).
  all: try (left; match goal with H : (_ =? _) = true |- _ => apply Z.eqb_eq in H as -> end;
            by rewrite ?address_incr, ?address_decr).
  all: right; eauto 10.
Qed.

Lemma thread_step_retiring (a : action) (w w' : World) (pub pub' : list T)
    (t t' : thread) (o : Z) :
  thread_step a w pub t = Moved w' pub' t' → retiring t' = Some o →
  retiring t = Some o ∨ ∃ c d, at_pc t = W_exchange c o d.
Proof.
  intros Hstep. unfold thread_step in Hstep. unfold retiring.
  destruct (at_pc t) eqn:Hpc, a; try discriminate Hstep.
  all: unfold with_cell, live in Hstep.
  all: repeat match type of Hstep with
       | context [match ?x with _ => _ end] => destruct x eqn:?; try discriminate Hstep
       end.
  all: injection Hstep as <- <- <-; cbn [at_pc]; rewrite ?Hpc; try done.
  all: intros [= <-]; eauto.
Qed.

Lemma retiring_critical (t : thread) (o : Z) : retiring t = Some o → critical t = 1.
Proof. unfold retiring, critical. by destruct (at_pc t). Qed.

Lemma step_retired (s s' : system) (i : nat) (a : action) :
  invariant s → retired s → system_step i a s = Next s' → retired s'.
Proof.
  intros Hinv Hret Hstep.
  pose proof (step_invariant s s' i a Hinv Hstep) as Hinv'.
  unfold system_step in Hstep.
  destruct (threads s !! i) as [t|] eqn:Hi; [|done].
  destruct (match a with
            | StartGet => negb (total holding (threads s) <? max_handles)
            | _ => false
            end); [done|].
  destruct (thread_step a (shared s) (published s) t) as [w' pub' t'| |] eqn:Hmove;
    [|done..].
  injection Hstep as <-.
  destruct (invariant_current s Hinv) as [Hcur _].
  destruct (invariant_current _ Hinv') as [Hcur' _].
  cbn [shared] in Hcur'.
  intros j tj o Hj Hretiring. cbn [shared threads] in *. rewrite Hcur'.
  destruct (inv_each s Hinv i t Hi) as [_ Hpc_ok].
  destruct (decide (j = i)) as [->|Hne].
  - rewrite list_lookup_insert_eq in Hj by (by eapply lookup_lt_Some).
    injection Hj as <-.
    destruct (thread_step_retiring _ _ _ _ _ _ _ o Hmove Hretiring)
      as [Hold|(c & d & Hpc)].
    + destruct (thread_step_word _ _ _ _ _ _ _ Hmove)
        as [->|(c & o0 & d & Hpc & _)].
      * rewrite <- Hcur. by apply (Hret i t).
      * unfold retiring in Hold. by rewrite Hpc in Hold.
    + rewrite Hpc in Hpc_ok. destruct Hpc_ok as (Ho & Hd & _).
      destruct (live_of_refs s Hinv i t d Hi) as (cell & _ & _ & Hu).
      { unfold refs. rewrite Hpc, same_refl. pose proof (held_nonneg d (held t)). lia. }
      unfold thread_step in Hmove. rewrite Hpc in Hmove.
      destruct a; try discriminate Hmove.
      destruct (d =? 0) eqn:E; injection Hmove as <- <- <-; [done|].
      cbn [set_slot addressAndCopyCounter]. rewrite address_user by done. congruence.
  - rewrite list_lookup_insert_ne in Hj by done.
    destruct (thread_step_word _ _ _ _ _ _ _ Hmove)
      as [->|(c & o0 & d & Hpc & _)].
    + rewrite <- Hcur. by apply (Hret j tj).
    + exfalso. apply Hne.
      apply (one_writer (threads s) j i tj t (critical_le_one s Hinv)); [done..| |].
      * by apply (retiring_critical tj o).
      * unfold critical. by rewrite Hpc.
Qed.

Lemma runs_retired (s s' : system) :
  invariant s → retired s → runs s s' → retired s'.
Proof.
  intros Hinv Hret Hruns. induction Hruns as [|s i a s' s'' Hstep _ IH]; [done|].
  apply IH; [by apply (step_invariant s s' i a)|by apply (step_retired s s' i a)].
Qed.

(** X14.  Under any interleaving, when a writer is past its busy wait and
    about to give up the replaced Snapshot's reference, the drain counter is
    zero, the replaced Snapshot is not the current one, and every reader in
    flight has counted itself in under the current address: none can still
    be about to touch the replaced one without owning a reference. *)
Theorem old_snapshot_released_after_drain (n : nat) (s0 s : system) (i : nat)
    (t : thread) (o : Z) :
  Z.of_nat n < 2 ^ 16 → boot n s0 → runs s0 s →
  threads s !! i = Some t → at_pc t = W_release o ∨ at_pc t = W_delete o →
  o ≠ current (shared s) ∧
  previousCopyCounter (shared s) = 0 ∧
  ∀ j tj v, threads s !! j = Some tj → flying tj = Some v →
            getPointer v = current (shared s).
Proof.
  intros Hn Hboot Hruns Hi Hpc.
  pose proof (boot_invariant n s0 Hn Hboot) as Hinv0.
  pose proof (runs_invariant s0 s Hinv0 Hruns) as Hinv.
  assert (retired s0) as Hret0.
  { intros j tj o' Hj Ho'.
    destruct Hboot as (place & args & w & cell & _ & _ & _ & ->). simpl in Hj.
    apply lookup_replicate in Hj as [-> _]. done. }
  pose proof (runs_retired s0 s Hinv0 Hret0 Hruns) as Hret.
  destruct (invariant_current s Hinv) as [Hcur _].
  assert (retiring t = Some o) as Hretiring
    by (unfold retiring; destruct Hpc as [-> | ->]; done).
  assert (critical t = 1) as Hcrit by (by apply (retiring_critical t o)).
  assert (∀ a, total (superseded a) (threads s) = 0) as Hnone.
  { intros a.
    rewrite (total_of_the_writer (superseded a) (threads s) i t);
      [| |apply (critical_le_one s Hinv)|done..].
    - unfold superseded. destruct Hpc as [-> | ->]; done.
    - intros x Hx. pose proof (superseded_range a x). lia. }
  assert (∀ j tj v, threads s !! j = Some tj → flying tj = Some v →
            address v = address (addressAndCopyCounter (shared s))) as Hfly.
  { intros j tj v Hj Hv. destruct (inv_each s Hinv j tj Hj) as [Hok _].
    destruct (Hok v Hv) as [|Hsup]; [done|]. rewrite Hnone in Hsup. lia. }
  split; [by apply (Hret i t)|]. split.
  - pose proof (inv_drain s Hinv) as Hdrain.
    assert (total debt (threads s) = 0) as Hdebt.
    { rewrite (total_of_the_writer debt (threads s) i t debt_critical
                 (critical_le_one s Hinv) Hi Hcrit).
      unfold debt. destruct Hpc as [-> | ->]; done. }
    assert (total in_flight (threads s)
            = total (fly (address (addressAndCopyCounter (shared s)))) (threads s)) as Heq.
    { apply total_ext. intros j tj Hj. unfold in_flight, fly.
      destruct (flying tj) as [v|] eqn:Hv; [|done].
      by rewrite decide_True by (by apply (Hfly j tj)). }
    lia.
  - intros j tj v Hj Hv. rewrite Hcur, <- (Hfly j tj v Hj Hv).
    by destruct (flying_live s Hinv j tj v Hj Hv) as (_ & _ & _ & _ & ->).
Qed.

Lemma execute_keeping (P : T → Prop) (schedule : list (nat * action))
    (s s' : system) :
  Forall (λ ia, permitted P ia.2) schedule →
  execute schedule s = Some s' → runs_keeping P s s'.
Proof.
  intros Hall. revert s.
  induction Hall as [|[i a] rest Hperm _ IH]; intros s Hrun; simpl in Hrun.
  - injection Hrun as <-. constructor.
  - destruct (system_step i a s) as [s1| |] eqn:Hstep; try done.
    eapply keeping_step; [done|done|]. by apply IH.
Qed.

(** ** More of one thread and of many *)

(** X17.  Destroying the container in any state a client can reach returns;
    the current Snapshot is freed if no handle is bound to it and otherwise
    left counting exactly its handles, no other storage is touched, and every
    handle still reads its payload. *)
Theorem teardown_leaves_handles_bound (s : state) :
  reachable s →
  let p := current (world s) in
  ∃ cell w',
    heap (world s) !! p = Some cell ∧
    destroy (world s) = Ret tt w' ∧
    (∀ x, x ≠ p → heap w' !! x = heap (world s) !! x) ∧
    heap w' !! p
    = (if bound_to (handles s) p =? 0 then None
       else Some (mkInternal (bound_to (handles s) p) (instance cell))) ∧
    (∀ r h, handles s !! r = Some h → h ≠ 0 →
            ∃ c c', heap (world s) !! h = Some c ∧ heap w' !! h = Some c' ∧
                    instance c' = instance c).
Proof.
  intros Hreach p. pose proof (reachable_consistent s Hreach) as Hcons.
  pose proof Hcons as (Hs & _ & Hsize & Hlive & _).
  pose proof Hs as (Hu & [cell Hc] & _).
  assert (p = addressAndCopyCounter (world s)) as Hp by (by apply current_settled).
  rewrite <- Hp in Hc, Hu.
  assert (p ≠ 0) as Hpz by (unfold user_pointer in Hu; lia).
  set (k := bound_to (handles s) p).
  assert (refcount cell = k + 1) as Hrc.
  { destruct (Hlive p cell Hc) as [_ ->]. unfold owners. by rewrite decide_True. }
  assert (0 ≤ k < 2 ^ 62) as Hk.
  { pose proof (bound_to_range (handles s) p). unfold max_handles in Hsize. unfold k. lia. }
  set (w1 := put_cell p (mkInternal (k + 2) (instance cell)) (world s)).
  set (w2 := put_cell p (mkInternal (k + 1) (instance cell)) w1).
  set (w3 := set_heap (released p (mkInternal (k + 1) (instance cell)) (heap w2)) w2).
  assert (destroy (world s) = Ret tt w3) as Hdestroy.
  { unfold destroy, mbind, M_bind, bind.
    rewrite (safeInstance_settled _ cell) by (by rewrite <- ?Hp).
    rewrite <- Hp, Hrc. rewrite u64_small by lia.
    replace (k + 1 + 1) with (k + 2) by lia. fold w1.
    rewrite (release_counted w1 p (mkInternal (k + 2) (instance cell)));
      [|done|by simpl; rewrite lookup_insert_eq|simpl; lia].
    simpl. replace (k + 2 - 1) with (k + 1) by lia. fold w2.
    by rewrite (getRidOfPointer_live p w2 (mkInternal (k + 1) (instance cell)))
      by (done || (simpl; by rewrite lookup_insert_eq)). }
  assert (∀ x, x ≠ p → heap w3 !! x = heap (world s) !! x) as Hothers.
  { intros x Hx. unfold w3. simpl. rewrite lookup_released_ne by done.
    by rewrite !lookup_insert_ne by done. }
  assert (heap w3 !! p = (if k =? 0 then None else Some (mkInternal k (instance cell))))
    as Hleft.
  { unfold w3. simpl. unfold released. simpl.
    replace (k + 1 - 1) with k by lia. rewrite u64_small by lia.
    destruct (k =? 0); [by rewrite lookup_delete_eq|by rewrite lookup_insert_eq]. }
  exists cell, w3. split; [done|]. split; [done|]. split; [done|]. split; [done|].
  intros r h Hr Hh.
  destruct (handle_counted s r h Hcons Hr Hh) as (c & Hch & _).
  exists c. destruct (decide (h = p)) as [->|Hne].
  - rewrite Hc in Hch. injection Hch as <-.
    pose proof (bound_to_lookup _ r p Hr) as Hone. fold k in Hone.
    rewrite Hleft. assert ((k =? 0) = false) as -> by lia. by eexists.
  - exists c. by rewrite Hothers.
Qed.

Lemma reachable_step (s s' : state) (c : call) :
  reachable s → step s c s' → reachable s'.
Proof.
  intros (s0 & cs & Hinit & Hsteps) Hstep. exists s0, (cs ++ [c]).
  split; [done|]. by apply (steps_snoc s0 s).
Qed.

Lemma unbound_one_snapshot (s : state) :
  consistent s → (∀ r p, handles s !! r = Some p → p = 0) →
  ∃ cell, heap (world s) = {[ current (world s) := cell ]} ∧ refcount cell = 1.
Proof.
  intros Hcons Hnone. pose proof Hcons as (Hs & _ & _ & Hlive & Hdead).
  pose proof Hs as (Hu & [cell Hc] & _).
  rewrite current_settled by done. set (p := addressAndCopyCounter (world s)) in *.
  assert (∀ x, x ≠ 0 → bound_to (handles s) x = 0) as Hunbound.
  { intros x Hx. apply bound_to_unbound. intros r q Hr. by rewrite (Hnone r q Hr). }
  assert (p ≠ 0) as Hpz by (unfold user_pointer in Hu; lia).
  exists cell. split.
  - apply map_eq. intros x. destruct (decide (x = p)) as [->|Hne].
    + by rewrite lookup_singleton_eq.
    + rewrite lookup_singleton_ne by done.
      destruct (decide (x = 0)) as [->|Hx].
      * destruct (heap (world s) !! 0) as [c|] eqn:E; [|done].
        destruct (Hlive 0 c E) as [H0 _]. unfold user_pointer in H0. lia.
      * apply (Hdead x Hx). unfold owners. rewrite Hunbound by done.
        rewrite decide_False; [done|]. by rewrite current_settled.
  - destruct (Hlive p cell Hc) as [_ ->]. unfold owners.
    rewrite Hunbound by done. rewrite decide_True; [done|]. by rewrite current_settled.
Qed.

(** X19.  Under any interleaving a thread inside [get] can always take its
    next step, an idle thread can always start a [get] and can always destroy
    a handle it holds: none of them waits for the mutex, for a writer in its
    busy wait or for another reader. *)
Theorem readers_never_wait (n : nat) (s0 s : system) (i : nat) (t : thread) :
  Z.of_nat n < 2 ^ 16 → boot n s0 → runs s0 s →
  threads s !! i = Some t →
  (inside_get t → ∃ s', system_step i Proceed s = Next s') ∧
  (at_pc t = Idle → total holding (threads s) < max_handles →
   ∃ s', system_step i StartGet s = Next s' ∧
         threads s' !! i
         = Some (mkThread (R_cas (addressAndCopyCounter (shared s))) (held t))) ∧
  (at_pc t = Idle → ∀ k h, held t !! k = Some h →
   ∃ s', system_step i (Release k) s = Next s').
Proof.
  intros Hn Hboot Hruns Hi.
  assert (invariant s) as Hinv.
  { apply (runs_invariant s0 s); [|done]. by apply (boot_invariant n). }
  assert (i < length (threads s))%nat as Hlen by (by eapply lookup_lt_Some).
  split; [|split].
  - intros Hin. pose proof (step_never_crashes s i Proceed Hinv) as Hsafe.
    unfold system_step in *. rewrite Hi in *.
    destruct (thread_step Proceed (shared s) (published s) t)
      as [w' pub' t'| |] eqn:Hmove; [by eauto|exfalso|done].
    unfold inside_get in Hin. unfold thread_step, with_cell in Hmove.
    destruct (at_pc t); try done;
      repeat match type of Hmove with
             | context [match ?x with _ => _ end] => destruct x; try discriminate Hmove
             end.
  - intros Hpc Hroom. eexists. unfold system_step. rewrite Hi.
    assert ((total holding (threads s) <? max_handles) = true) as -> by lia.
    cbn [negb]. unfold thread_step. rewrite Hpc. split; [done|].
    cbn [threads]. by rewrite list_lookup_insert_eq.
  - intros Hpc k h Hk. pose proof (step_never_crashes s i (Release k) Hinv) as Hsafe.
    unfold system_step in *. rewrite Hi in *.
    destruct (thread_step (Release k) (shared s) (published s) t)
      as [w' pub' t'| |] eqn:Hmove; [by eauto|exfalso|done].
    unfold thread_step, with_cell in Hmove. rewrite Hpc, Hk in Hmove.
    repeat match type of Hmove with
           | context [match ?x with _ => _ end] => destruct x; try discriminate Hmove
           end.
Qed.

Lemma replace_creators (c1 c2 : M Z) (v : T → M bool) (w : World) :
  (∀ w1, c1 w1 = c2 w1) → replace (inr c1) v w = replace (inr c2) v w.
Proof.
  intros Hc. unfold replace, mbind, M_bind, bind.
  destruct (load w) as [slot w0| | |]; try done.
  destruct (deref (getPointer slot) w0) as [cell w1| | |]; try done.
  destruct (v (instance cell) w1) as [[|] w2| | |]; try done. simpl.
  by rewrite Hc.
Qed.

(** X20.  [emplace(args)] is [reset] with a modifier that does nothing and
    the default predicate, in every world; and while the mutex is free the
    non-blocking [tryReset] and [tryEdit] are [reset] and [edit]. *)
Theorem emplace_is_reset_unmodified (place : option Z) (args : Args) (w : World) :
  place ≠ Some 0 →
  emplace place args w = reset place (pure id) AlwaysPassingVerifier args w ∧
  (editMutex w = false →
   ∀ (m : T → M T) (v : T → M bool),
     tryReset place m v args w = reset place m v args w ∧
     tryEdit place m v w = edit place m v w).
Proof.
  intros Hplace. split.
  - unfold emplace, reset, lock_guard, replaceWithNew.
    destruct (editMutex w); [done|]. f_equal. apply replace_creators. intros w1.
    unfold mbind, M_bind, bind. destruct place as [d|]; [|done]. simpl.
    destruct (T_ctor args) as [e|t]; [done|]. simpl.
    assert (d ≠ 0) as Hd by congruence.
    change ((put d (mkInternal 1 t) ≫= λ _ : (), mret d) w1)
      with (Ret d (put_cell d (mkInternal 1 t) w1)).
    unfold modify_duplicate, unwinding, mbind, M_bind, bind.
    rewrite (deref_live d _ (mkInternal 1 t)); [|done|by simpl; rewrite lookup_insert_eq].
    unfold pure at 1. unfold mret at 1, M_ret at 1, ret at 1.
    rewrite (deref_live d _ (mkInternal 1 t)); [|done|by simpl; rewrite lookup_insert_eq].
    simpl. unfold put, update, mret, M_ret, ret. f_equal.
    symmetry. apply put_cell_twice.
  - intros Hm m v. unfold tryReset, reset, tryEdit, edit, lock_guard, try_to_lock.
    by rewrite Hm.
Qed.

End Properties.


(** * The scenarios of the test program *)

Lemma tested_settled (x : Z) : settled (tested x).
Proof.
  split; [|split]; [unfold user_pointer; simpl; lia| |done].
  simpl. rewrite lookup_singleton_eq. eauto.
Defined.

Lemma tested_initial (x : Z) : initial (tested_state x).
Proof.
  exists (Some 0x1000), x, (tested x). split; [|split; [|done]].
  - intros p [= <-]. split; [unfold user_pointer; lia|done].
  - reflexivity.
Defined.

Lemma tested_reachable (x : Z) :
  reachable (tested_state x).
Proof. exists (tested_state x), []. split; [apply tested_initial|constructor]. Defined.

(** [tested(3)]: [edit] guarded by [old.a == 4] is rejected, guarded by
    [old.a == 3] it publishes [a = 4]. *)
Lemma edit_reset_predicate_semantics_witness :
  settled (tested 3) ∧ editMutex (tested 3) = false ∧
  payload (tested 3) = Some (mkTestClass 3 0) ∧
  edit (Some 0x2000) (pure (set_a 4)) (pure (fun old => a old =? 4)) (tested 3)
    = Ret false (tested 3) ∧
  ∃ w', edit (Some 0x2000) (pure (set_a 4)) (pure (fun old => a old =? 3)) (tested 3)
          = Ret true w' ∧
        payload w' = Some (mkTestClass 4 0).
Proof.
  pose proof (edit_reset_predicate_semantics (tested 3) (mkTestClass 3 0)
                (Some 0x2000) (set_a 4) (fun old => a old =? 4) 0
                (tested_settled 3) eq_refl eq_refl) as [Hrej _].
  pose proof (edit_reset_predicate_semantics (tested 3) (mkTestClass 3 0)
                (Some 0x2000) (set_a 4) (fun old => a old =? 3) 0
                (tested_settled 3) eq_refl eq_refl) as [_ Hacc].
  split; [apply tested_settled|]. split; [reflexivity|]. split; [reflexivity|].
  split; [apply (Hrej eq_refl)|].
  assert (user_pointer 0x2000) as Hu by (unfold user_pointer; lia).
  destruct (Hacc eq_refl 0x2000 eq_refl Hu eq_refl) as [Hedit _].
  apply (Hedit (mkTestClass 3 0) eq_refl).
Defined.

(** [tested(5).emplace(6)] returns true and publishes [a = 6]. *)
Lemma mutation_result_tells_publication_witness :
  settled (tested 5) ∧
  valid_place (heap (tested 5)) (place_of (Emplace (T := TestClass) (Some 0x2000) 6)) ∧
  ∃ w', run (Emplace (T := TestClass) (Some 0x2000) 6) (tested 5) = Ret true w' ∧
        current w' = 0x2000 ∧ payload w' = Some (mkTestClass 6 0).
Proof.
  assert (valid_place (heap (tested 5)) (place_of (Emplace (T := TestClass) (Some 0x2000) 6))) as Hplace.
  { intros p [= <-]. split; [unfold user_pointer; lia|reflexivity]. }
  split; [apply tested_settled|]. split; [exact Hplace|].
  destruct (mutation_result_tells_publication (Emplace (T := TestClass) (Some 0x2000) 6) (tested 5)
              (tested_settled 5) Hplace) as (_ & _ & _ & Hemplace).
  apply (Hemplace (Some 0x2000) 6 0x2000 (mkTestClass 6 0) eq_refl eq_refl eq_refl eq_refl).
Defined.

(** [tested(3).edit] with a throwing modifier: the exception leaves the call
    and [a] is still 3. *)
Lemma failed_build_changes_nothing_witness :
  let c := Edit (Some 0x2000) (fun _ => inl (thrown 1)) (fun _ => inr true) in
  settled (tested 3) ∧ editMutex (tested 3) = false ∧
  valid_place (heap (tested 3)) (place_of c) ∧
  run c (tested 3) = Throw (thrown 1) (tested 3) ∧
  payload (tested 3) = Some (mkTestClass 3 0).
Proof.
  intros c.
  assert (valid_place (heap (tested 3)) (place_of c)) as Hplace.
  { intros p [= <-]. split; [unfold user_pointer; lia|reflexivity]. }
  split; [apply tested_settled|]. split; [reflexivity|]. split; [exact Hplace|].
  apply (failed_build_changes_nothing c (tested 3) (mkTestClass 3 0) (thrown 1)
           (tested_settled 3) eq_refl Hplace eq_refl eq_refl).
  right. right. split; [by eexists|]. by exists (mkTestClass 3 0).
Defined.

(** The handle [reference] of the test program, copied and moved. *)
Lemma handle_copy_and_move_witness :
  let cell := mkInternal 2 (mkTestClass 4 0) in
  let w := mkWorld {[ 0x1000 := cell ]} 0x1000 0 false in
  heap w !! 0x1000 = Some cell ∧ 1 ≤ refcount cell < 2 ^ 64 - 1 ∧
  (∃ w', Reference_copy 0x1000 w = Ret 0x1000 w' ∧
         heap w' !! 0x1000 = Some (mkInternal 3 (mkTestClass 4 0)) ∧
         Reference_destroy 0x1000 w' = Ret tt w) ∧
  Reference_move 0x1000 w = Ret (0x1000, 0) w ∧
  Reference_destroy 0 w = Ret tt w.
Proof.
  intros cell w.
  assert (heap w !! 0x1000 = Some cell) as Hc by reflexivity.
  assert (1 ≤ refcount cell < 2 ^ 64 - 1) as Hrc by (simpl; lia).
  split; [exact Hc|]. split; [exact Hrc|].
  destruct (handle_copy_and_move w 0x1000 cell ltac:(lia) Hc Hrc)
    as ((w' & Hcopy & Hcount & _ & Hdestroy & _) & Hmove & Hempty).
  split; [|by split]. exists w'. by repeat split.
Defined.

(** The reentrant calls of the test program: [tryEdit] from within the
    modifier of a [tryEdit]. *)
Lemma reentrant_try_call_fails_witness :
  let inner : M bool :=
    tryEdit (Some 0x3000) (pure (set_b 3)) AlwaysPassingVerifier in
  let k (failed : bool) : TestClass → M TestClass := pure (set_b 4) in
  keeps_mutex (AlwaysPassingVerifier (T := TestClass)) ∧
  tryEdit (Some 0x2000) (fun t => r ← inner; k r t) AlwaysPassingVerifier (tested 5)
  = tryEdit (Some 0x2000) (k false) AlwaysPassingVerifier (tested 5) ∧
  inner (set_mutex true (tested 5)) = Ret false (set_mutex true (tested 5)).
Proof.
  intros inner k.
  assert (keeps_mutex (AlwaysPassingVerifier (T := TestClass))) as Hkeep
    by (intros t w; reflexivity).
  destruct (reentrant_try_call_fails inner (Some 0x3000) (pure (set_b 3))
              AlwaysPassingVerifier 0 (or_introl eq_refl))
    as (Hfail & _ & Hmodifier).
  split; [exact Hkeep|]. split.
  - apply (Hmodifier (Some 0x2000) 0 k AlwaysPassingVerifier (tested 5) Hkeep).
  - apply Hfail. reflexivity.
Defined.

(** A freshly constructed container: its Snapshot counts one owner. *)
Lemma reference_counts_match_owners_witness :
  reachable (tested_state 3) ∧
  ∀ p cell, heap (world (tested_state 3)) !! p = Some cell →
            refcount cell = owners (tested_state 3) p.
Proof.
  split; [apply tested_reachable|].
  apply (reference_counts_match_owners (tested_state 3) (tested_reachable 3)).
Defined.

(** [tested(4)], the handle [reference = tested.get()], then
    [tested.tryReset(b = 4, always, 3)]: [reference->a] is still 4. *)
Lemma handle_keeps_its_payload_witness :
  ∃ s s' p,
    reachable (tested_state 4) ∧
    step (tested_state 4) (Get 0%nat) s ∧
    steps s [Mutate (TryReset (Some 0x2000) (fun t => inr (set_b 4 t))
                       (fun _ => inr true) 3)] s' ∧
    handles s' !! 0%nat = Some p ∧
    Reference_arrow p (world s') = Ret (mkTestClass 4 0) (world s') ∧
    payload (world s') = Some (mkTestClass 3 4).
Proof.
  eexists _, _, 0x1000.
  assert (step (tested_state 4) (Get 0%nat)
            (mkState (put_cell 0x1000 (mkInternal 2 (mkTestClass 4 0)) (tested 4))
                     (<[0%nat := 0x1000]> ∅))) as Hget.
  { apply (step_get (tested_state 4) 0%nat 0x1000); [reflexivity| |reflexivity].
    unfold room, max_handles. simpl. rewrite map_size_empty. lia. }
  assert (steps (mkState (put_cell 0x1000 (mkInternal 2 (mkTestClass 4 0)) (tested 4))
                         (<[0%nat := 0x1000]> ∅))
            [Mutate (TryReset (Some 0x2000) (fun t => inr (set_b 4 t))
                       (fun _ => inr true) 3)]
            (mkState (mkWorld (<[0x1000 := mkInternal 1 (mkTestClass 4 0)]>
                                 (<[0x2000 := mkInternal 1 (mkTestClass 3 4)]>
                                    {[ 0x1000 := mkInternal 2 (mkTestClass 4 0) ]}))
                              0x2000 0 false)
                     (<[0%nat := 0x1000]> ∅))) as Hsteps.
  { eapply steps_cons; [|apply steps_nil].
    refine (step_mutate
              (mkState (put_cell 0x1000 (mkInternal 2 (mkTestClass 4 0)) (tested 4))
                       (<[0%nat := 0x1000]> ∅)) _ true _ _ _).
    - intros p [= <-]. split; [unfold user_pointer; lia|reflexivity].
    - vm_compute. reflexivity. }
  destruct (handle_keeps_its_payload (tested_state 4) _ _ 0%nat _
              (tested_reachable 4) Hget Hsteps)
    as [(p & t & Hpay & Hr & Hread & Hr' & Hread') _].
  { repeat constructor. simpl. tauto. }
  split; [apply tested_reachable|]. split; [exact Hget|]. split; [exact Hsteps|].
  split; [reflexivity|]. split; [|reflexivity].
  simpl in Hr'. rewrite lookup_insert_eq in Hr'. injection Hr' as <-.
  injection Hpay as <-. exact Hread'.
Defined.

(** [tested(3)] leaves its scope with no handle alive. *)
Lemma teardown_drains_last_snapshot_witness :
  reachable (tested_state 3) ∧
  (∀ r p, handles (tested_state 3) !! r = Some p → p = 0) ∧
  ∃ w3, destroy (tested 3) = Ret tt w3 ∧ heap w3 = ∅.
Proof.
  assert (∀ (r : nat) (p : Z), handles (tested_state 3) !! r = Some p → p = 0) as Hnone.
  { intros r p Hr. simpl in Hr. by rewrite lookup_empty in Hr. }
  split; [apply tested_reachable|]. split; [exact Hnone|].
  destruct (teardown_drains_last_snapshot (tested_state 3) (tested_reachable 3) Hnone)
    as (cell & w1 & w2 & w3 & _ & _ & _ & _ & _ & _ & _ & Hempty & Hdestroy).
  exists w3. split; [exact Hdestroy|exact Hempty].
Defined.

Lemma overtaking_executes (rest : list (@thread TestClass Z)) :
  execute overtaking
    (mkSystem (mkWorld {[ 0x1000 := mkInternal 1 (mkTestClass 0 0) ]} 0x1000 0 false)
       (idle :: counted_in 0 :: rest) [mkTestClass 0 0])
  = Some (overtaken rest).
Proof. vm_compute. reflexivity. Qed.

Lemma crowd_holding (k m : nat) : total holding (crowd k m) = Z.of_nat k.
Proof.
  unfold crowd. rewrite total_cons, total_app, total_replicate.
  change (holding idle) with 0.
  assert (∀ start n, total holding (map counted_in (seq start n)) = Z.of_nat n) as ->.
  { intros start n. revert start. induction n as [|n IH]; intros start; [done|].
    cbn [seq map]. rewrite total_cons, IH. change (holding (counted_in start)) with 1. lia. }
  lia.
Qed.

(** One more reader counts itself in. *)
Lemma crowded_step (k m : nat) :
  Z.of_nat k < 2 ^ 16 → runs (crowded k (S m)) (crowded (S k) m).
Proof.
  intros Hk.
  assert (u64 (0x1000 + Z.of_nat k * 2 ^ 48) = 0x1000 + Z.of_nat k * 2 ^ 48) as Hword
    by (apply u64_small; lia).
  assert (length (map counted_in (seq 0 k)) = k) as Hlen
    by (by rewrite length_map, length_seq).
  assert (crowd k (S m) !! S k = Some idle) as Hidle.
  { unfold crowd. rewrite lookup_cons_ne_0, Nat.pred_succ by lia.
    rewrite lookup_app_r by lia. rewrite Hlen, Nat.sub_diag. done. }
  pose (asked := mkThread (R_cas (0x1000 + Z.of_nat k * 2 ^ 48)) []
                 : @thread TestClass Z).
  assert (<[S k := asked]> (crowd k (S m))
          = idle :: map counted_in (seq 0 k) ++ asked :: replicate m idle) as Hasked.
  { change (<[S k:=asked]> (crowd k (S m)))
      with (idle :: <[k:=asked]> (map counted_in (seq 0 k) ++ replicate (S m) idle)).
    f_equal. rewrite insert_app_r_alt by lia. rewrite Hlen, Nat.sub_diag. done. }
  assert ((idle :: map counted_in (seq 0 k) ++ asked :: replicate m idle) !! S k
          = Some asked) as Hlook.
  { rewrite lookup_cons_ne_0, Nat.pred_succ by lia.
    rewrite lookup_app_r by lia. rewrite Hlen, Nat.sub_diag. done. }
  assert (<[S k := counted_in k]>
            (idle :: map counted_in (seq 0 k) ++ asked :: replicate m idle)
          = crowd (S k) m) as Hcounted.
  { unfold crowd.
    change (<[S k:=?x]> (idle :: ?l)) with (idle :: <[k:=x]> l).
    f_equal. rewrite insert_app_r_alt by lia. rewrite Hlen, Nat.sub_diag.
    rewrite seq_S, map_app, <- app_assoc. reflexivity. }
  unfold asked in Hasked, Hlook, Hcounted.
  eapply runs_step with (i := S k) (a := StartGet).
  { unfold system_step, crowded. cbn [threads shared published].
    rewrite Hidle, crowd_holding.
    assert ((Z.of_nat k <? max_handles) = true) as -> by (unfold max_handles; lia).
    cbn [negb thread_step at_pc held idle addressAndCopyCounter].
    rewrite Hword, Hasked. reflexivity. }
  eapply runs_step with (i := S k) (a := Proceed); [|apply runs_refl].
  unfold system_step. cbn [threads shared published]. rewrite Hlook.
  cbn [thread_step at_pc held addressAndCopyCounter].
  rewrite Z.eqb_refl. unfold crowded. f_equal. f_equal.
  - unfold set_slot. cbn [heap previousCopyCounter editMutex]. f_equal.
    unfold u64, increment. f_equal. lia.
  - apply Hcounted.
Qed.

Lemma crowded_runs (k m : nat) :
  Z.of_nat k ≤ 2 ^ 16 → runs (crowded 0 (k + m)) (crowded k m).
Proof.
  revert m. induction k as [|k IH]; intros m Hk; [constructor|].
  apply (runs_trans _ (crowded k (S m))).
  - replace (S k + m)%nat with (k + S m)%nat by lia. apply IH. lia.
  - apply crowded_step. lia.
Qed.

Lemma crowded_boot (m : nat) : boot (S m) (crowded 0 m).
Proof.
  exists (Some 0x1000), 0, (tested 0), (mkInternal 1 (mkTestClass 0 0)).
  split; [|split; [reflexivity|split; [reflexivity|]]].
  - intros p [= <-]. split; [unfold user_pointer; lia|done].
  - reflexivity.
Qed.

(** Once [2^16] readers have counted themselves in, the packed word is the
    bare address again, and the writer overtakes them all. *)
Lemma crowded_overtaken (m : nat) :
  Z.of_nat (S m) = 2 ^ 16 →
  runs (crowded 0 (S m)) (overtaken (map counted_in (seq 1 m))).
Proof.
  intros Hm. apply (runs_trans _ (crowded (S m) 0)).
  - replace (S m) with (S m + 0)%nat at 1 by lia. apply crowded_runs. lia.
  - apply (execute_runs overtaking).
    rewrite <- (overtaking_executes (map counted_in (seq 1 m))).
    unfold crowded, crowd. rewrite Hm. cbn [seq map replicate].
    rewrite app_nil_r. reflexivity.
Qed.

Lemma readers_count : Z.of_nat (S readers) = 2 ^ 16.
Proof. unfold readers. rewrite !Nat2Z.inj_succ, Z2Nat.id by lia. reflexivity. Qed.

(** C3, with [2^16] readers and a writer.  With [2^16] readers in flight the
    count in the packed word wraps to zero, the writer does not wait for them
    and frees the old Snapshot, and a reader ends with a handle to storage
    that is by then the unpublished object of the next mutating call. *)
Lemma overflowing_readers_see_a_draft :
  ∃ (n : nat) (s0 s : @system TestClass Z),
    boot n s0 ∧ runs s0 s ∧ ¬ safe s.
Proof.
  exists (S (S readers)), (crowded 0 (S readers)),
    (overtaken (map counted_in (seq 1 readers))).
  split; [apply crowded_boot|]. split.
  - apply crowded_overtaken, readers_count.
  - intros [_ Hheld].
    destruct (Hheld 1%nat (mkThread Idle [0x1000]) 0x1000 eq_refl)
      as (cell & Hcell & Hpub); [apply list_elem_of_here|].
    vm_compute in Hcell. injection Hcell as <-. simpl in Hpub.
    apply elem_of_cons in Hpub as [Hpub|Hpub]; [discriminate Hpub|].
    apply elem_of_cons in Hpub as [Hpub|Hpub]; [discriminate Hpub|].
    by apply not_elem_of_nil in Hpub.
Qed.

(** Two threads, the reader overtaken by the writer: the reader's handle
    is bound to the old Snapshot, alive and published. *)
Lemma readers_see_published_snapshots_witness :
  Z.of_nat 2 < 2 ^ 16 ∧ boot 2 (crowded 0 1) ∧ runs (crowded 0 1) raced ∧
  safe raced ∧ frozen raced.
Proof.
  assert (Z.of_nat 2 < 2 ^ 16) as Hfew by lia.
  assert (runs (crowded 0 1) raced) as Hruns.
  { apply (execute_runs racing). vm_compute. reflexivity. }
  split; [exact Hfew|]. split; [apply crowded_boot|]. split; [exact Hruns|].
  apply (readers_see_published_snapshots 2 (crowded 0 1) raced Hfew
           (crowded_boot 1) Hruns).
Defined.

(** * Instances of the further properties *)

(** A pointer of the upper half under a count of three. *)
Lemma getPointer_round_trip_witness :
  canonical 0xffff800000001000 ∧
  getPointer (u64 (0xffff800000001000 + 3 * increment)) = 0xffff800000001000.
Proof.
  assert (canonical 0xffff800000001000) as Hp by (right; lia).
  split; [exact Hp|]. apply (getPointer_round_trip 0xffff800000001000 3 Hp).
Defined.

Lemma getPointer_is_canonical_witness :
  0 ≤ 0x0003800000001000 < 2 ^ 64 ∧
  getPointer 0x0003800000001000 = 0xffff800000001000 ∧
  canonical (getPointer 0x0003800000001000).
Proof.
  assert (0 ≤ 0x0003800000001000 < 2 ^ 64) as Hv by lia.
  split; [exact Hv|]. split; [reflexivity|].
  apply (getPointer_is_canonical 0x0003800000001000 0 Hv).
Defined.

Lemma get_restores_the_word_witness :
  let cell := mkInternal 1 (mkTestClass 3 0) in
  let w := mkWorld {[ 0x1000 := cell ]} (0x1000 + 5 * increment) 0 false in
  current w ≠ 0 ∧ heap w !! current w = Some cell ∧
  ∃ w', get w = Ret 0x1000 w' ∧
        addressAndCopyCounter w' = 0x1000 + 5 * increment ∧
        heap w' = {[ 0x1000 := mkInternal 2 (mkTestClass 3 0) ]}.
Proof.
  intros cell w.
  assert (0 ≤ addressAndCopyCounter w < 2 ^ 64) as Hv by (simpl; unfold increment; lia).
  assert (current w ≠ 0) as Hnz by (vm_compute; discriminate).
  assert (heap w !! current w = Some cell) as Hc by reflexivity.
  split; [exact Hnz|]. split; [exact Hc|].
  destruct (get_restores_the_word w cell Hv Hnz Hc) as (w' & Hget & Hword & _ & _ & Hheap).
  exists w'. split; [exact Hget|]. split; [exact Hword|].
  rewrite Hheap. vm_compute. reflexivity.
Defined.

Lemma upper_half_snapshot_blocks_publish_witness :
  let cell := mkInternal 1 (mkTestClass 3 0) in
  let w := mkWorld {[ 0xffff800000001000 := cell ]} 0xffff800000001000 0 false in
  2 ^ 64 - 2 ^ 47 ≤ addressAndCopyCounter w < 2 ^ 64 ∧
  heap w !! addressAndCopyCounter w = Some cell ∧
  current w = 0xffff800000001000 ∧
  run (Emplace (T := TestClass) (Some 0x2000) 6) w = Hang.
Proof.
  intros cell w.
  assert (2 ^ 64 - 2 ^ 47 ≤ addressAndCopyCounter w < 2 ^ 64) as Hv by (simpl; lia).
  assert (heap w !! addressAndCopyCounter w = Some cell) as Hc by reflexivity.
  split; [exact Hv|]. split; [exact Hc|].
  pose proof (upper_half_snapshot_blocks_publish
                (Emplace (T := TestClass) (Some 0x2000) 6) w cell 0x2000
                (mkTestClass 6 0) (mkTestClass 6 0) Hv Hc eq_refl eq_refl) as Hblocks.
  destruct (Hblocks eq_refl eq_refl ltac:(lia) eq_refl eq_refl eq_refl)
    as (Hcur & _ & Hhang).
  split; [exact Hcur|exact Hhang].
Defined.

Lemma construct_first_snapshot_witness :
  valid_place (∅ : gmap Z (@Internal TestClass)) (Some 0x1000) ∧
  construct (Some 0x1000) 3 ∅ = Ret tt (tested 3) ∧
  payload (tested 3) = Some (mkTestClass 3 0).
Proof.
  assert (valid_place (∅ : gmap Z (@Internal TestClass)) (Some 0x1000)) as Hplace.
  { intros p [= <-]. split; [unfold user_pointer; lia|done]. }
  split; [exact Hplace|]. split; [reflexivity|].
  pose proof (construct_first_snapshot (Some 0x1000) 3 ∅ Hplace) as Hc.
  change (construct (Some 0x1000) 3 ∅) with (Ret tt (tested 3)) in Hc.
  destruct Hc as (p & t & _ & Ht & _ & _ & _ & Hpay & _).
  injection Ht as <-. exact Hpay.
Defined.

Lemma member_access_reads_current_witness :
  reachable (tested_state 3) ∧ payload (world (tested_state 3)) = Some (mkTestClass 3 0) ∧
  member_access a (tested 3) = Ret 3 (tested 3).
Proof.
  split; [apply tested_reachable|]. split; [reflexivity|].
  apply (member_access_reads_current (tested_state 3) (mkTestClass 3 0) a
           (tested_reachable 3) eq_refl).
Defined.

Lemma modifier_reads_old_payload_witness :
  let k (x : Z) : TestClass → M TestClass := pure (set_b x) in
  reachable (tested_state 5) ∧
  valid_place (heap (world (tested_state 5))) (Some 0x2000) ∧
  reset (Some 0x2000) (fun t => x ← member_access a; k x t) (lift (fun _ => inr true))
    3 (tested 5)
  = reset (Some 0x2000) (k 5) (lift (fun _ => inr true)) 3 (tested 5).
Proof.
  intros k.
  assert (valid_place (heap (world (tested_state 5))) (Some 0x2000)) as Hplace.
  { intros p [= <-]. split; [unfold user_pointer; lia|reflexivity]. }
  split; [apply tested_reachable|]. split; [exact Hplace|].
  apply (modifier_reads_old_payload (tested_state 5) (mkTestClass 5 0) a k
           (fun _ => inr true) (Some 0x2000) 3 (tested_reachable 5) eq_refl Hplace).
Defined.

Lemma two_versions_reachable : reachable two_versions.
Proof.
  exists (tested_state 4),
    [Get 0%nat;
     Mutate (TryReset (Some 0x2000) (fun t => inr (set_b 4 t)) (fun _ => inr true) 3)].
  split; [apply tested_initial|].
  eapply steps_cons.
  { apply (step_get (tested_state 4) 0%nat 0x1000
             (put_cell 0x1000 (mkInternal 2 (mkTestClass 4 0)) (tested 4)));
      [reflexivity| |reflexivity].
    unfold room, max_handles. simpl. rewrite map_size_empty. lia. }
  eapply steps_cons; [|apply steps_nil].
  refine (step_mutate _ _ true _ _ _).
  - intros p [= <-]. split; [unfold user_pointer; lia|reflexivity].
  - vm_compute. reflexivity.
Defined.

Lemma room_two_versions : room two_versions.
Proof. unfold room, max_handles. vm_compute. reflexivity. Qed.

Lemma both_bound_reachable : reachable both_bound.
Proof.
  destruct two_versions_reachable as (s0 & cs & Hinit & Hsteps).
  exists s0, (cs ++ [Get 1%nat]). split; [done|].
  apply (steps_snoc _ two_versions); [done|].
  apply (step_get two_versions 1%nat 0x2000
           (mkWorld {[ 0x1000 := mkInternal 1 (mkTestClass 4 0);
                       0x2000 := mkInternal 2 (mkTestClass 3 4) ]}
              0x2000 0 false)); [reflexivity|apply room_two_versions|].
  vm_compute. reflexivity.
Defined.

Lemma calls_defined_but_for_two_witness :
  reachable two_versions ∧
  applicable two_versions (CopyAssign (T := TestClass) (Args := Z) 0%nat 0%nat) ∧
  hazard two_versions (CopyAssign (T := TestClass) (Args := Z) 0%nat 0%nat) ∧
  Reference_copy_assign 0x1000 0x1000 (world two_versions) = Undef ∧
  ¬ ∃ s', step two_versions (CopyAssign (T := TestClass) (Args := Z) 0%nat 0%nat) s'.
Proof.
  assert (applicable two_versions (CopyAssign (T := TestClass) (Args := Z) 0%nat 0%nat))
    as Happ by (split; exists 0x1000; reflexivity).
  assert (hazard two_versions (CopyAssign (T := TestClass) (Args := Z) 0%nat 0%nat))
    as Hhaz.
  { split; [reflexivity|]. exists 0x1000. split; [reflexivity|]. split; [lia|].
    vm_compute. reflexivity. }
  split; [apply two_versions_reachable|]. split; [exact Happ|]. split; [exact Hhaz|].
  destruct (calls_defined_but_for_two two_versions _ two_versions_reachable Happ)
    as [(_ & Hundef & Hnone)|[Hsafe _]]; [|destruct (Hsafe Hhaz)].
  split; [|exact Hnone].
  destruct Hundef as (p & q & Hp & Hq & Hundef).
  injection Hp as <-. injection Hq as <-. exact Hundef.
Defined.

Lemma copy_assignment_shares_witness :
  ∃ s' : @state TestClass,
    reachable both_bound ∧
    step (Args := Z) both_bound (CopyAssign 0%nat 1%nat) s' ∧
    handles s' = <[0%nat := 0x2000]> (handles both_bound) ∧
    heap (world s') !! 0x2000 = Some (mkInternal 3 (mkTestClass 3 4)).
Proof.
  set (w' := mkWorld {[ 0x2000 := mkInternal 3 (mkTestClass 3 4) ]} 0x2000 0 false
             : @World TestClass).
  exists (mkState w' (<[0%nat := 0x2000]> (handles both_bound))).
  assert (step (Args := Z) both_bound (CopyAssign 0%nat 1%nat)
            (mkState w' (<[0%nat := 0x2000]> (handles both_bound)))) as Hstep.
  { apply (step_copy_assign both_bound 0%nat 1%nat 0x1000 0x2000 0x2000 w');
      [reflexivity|reflexivity|]. vm_compute. reflexivity. }
  split; [apply both_bound_reachable|]. split; [exact Hstep|].
  destruct (copy_assignment_shares both_bound _ 0%nat 1%nat 0x1000 0x2000
              (mkInternal 2 (mkTestClass 3 4)) both_bound_reachable Hstep
              eq_refl eq_refl ltac:(lia) eq_refl) as (Hh & _ & Hc).
  split; [exact Hh|exact Hc].
Defined.

Lemma move_assignment_transfers_witness :
  ∃ s' : @state TestClass,
    reachable both_bound ∧
    step (Args := Z) both_bound (MoveAssign 0%nat 1%nat) s' ∧
    handles s' = <[1%nat := 0]> (<[0%nat := 0x2000]> (handles both_bound)) ∧
    heap (world s') !! 0x2000 = heap (world both_bound) !! 0x2000.
Proof.
  set (w' := mkWorld {[ 0x2000 := mkInternal 2 (mkTestClass 3 4) ]} 0x2000 0 false
             : @World TestClass).
  exists (mkState w' (<[1%nat := 0]> (<[0%nat := 0x2000]> (handles both_bound)))).
  assert (step (Args := Z) both_bound (MoveAssign 0%nat 1%nat)
            (mkState w' (<[1%nat := 0]> (<[0%nat := 0x2000]> (handles both_bound)))))
    as Hstep.
  { apply (step_move_assign both_bound 0%nat 1%nat 0x1000 0x2000 0x2000 0 w');
      [reflexivity|reflexivity|]. vm_compute. reflexivity. }
  split; [apply both_bound_reachable|]. split; [exact Hstep|].
  destruct (move_assignment_transfers both_bound _ 0%nat 1%nat 0x1000 0x2000
              both_bound_reachable Hstep eq_refl eq_refl) as (Hh & _ & _ & Hq & _).
  split; [exact Hh|]. apply Hq. lia.
Defined.

Lemma raced_runs : runs (crowded 0 1) raced.
Proof. apply (execute_runs racing). vm_compute. reflexivity. Qed.

Lemma draining_runs : runs (crowded 0 1) draining.
Proof. apply (execute_runs (take 14 racing)). vm_compute. reflexivity. Qed.

Lemma few_threads : Z.of_nat 2 < 2 ^ 16.
Proof. lia. Qed.

Lemma writers_exclude_each_other_witness :
  Z.of_nat 2 < 2 ^ 16 ∧ boot 2 (crowded 0 1) ∧ runs (crowded 0 1) draining ∧
  (editMutex (shared draining) = true ↔
   ∃ i t, threads draining !! i = Some t ∧ critical t = 1).
Proof.
  split; [exact few_threads|]. split; [apply crowded_boot|]. split; [exact draining_runs|].
  apply (writers_exclude_each_other 2 (crowded 0 1) draining few_threads
           (crowded_boot 1) draining_runs).
Defined.

Lemma counts_match_references_witness :
  Z.of_nat 2 < 2 ^ 16 ∧ boot 2 (crowded 0 1) ∧ runs (crowded 0 1) draining ∧
  2 = same 0x1000 (current (shared draining)) + total (refs 0x1000) (threads draining).
Proof.
  split; [exact few_threads|]. split; [apply crowded_boot|]. split; [exact draining_runs|].
  pose proof (counts_match_references 2 (crowded 0 1) draining 0x1000 few_threads
                (crowded_boot 1) draining_runs) as Hcount.
  change (heap (shared draining) !! 0x1000)
    with (Some (mkInternal 2 (mkTestClass 0 0))) in Hcount.
  exact (proj1 Hcount).
Defined.

Lemma word_counts_readers_in_flight_witness :
  Z.of_nat 2 < 2 ^ 16 ∧ boot 2 (crowded 0 1) ∧ runs (crowded 0 1) raced ∧
  addressAndCopyCounter (shared raced)
  = current (shared raced) + total (fly (current (shared raced))) (threads raced) * 2 ^ 48.
Proof.
  split; [exact few_threads|]. split; [apply crowded_boot|]. split; [exact raced_runs|].
  apply (word_counts_readers_in_flight 2 (crowded 0 1) raced few_threads
           (crowded_boot 1) raced_runs).
Defined.

Lemma old_snapshot_released_after_drain_witness :
  Z.of_nat 2 < 2 ^ 16 ∧ boot 2 (crowded 0 1) ∧ runs (crowded 0 1) draining ∧
  threads draining !! 0%nat = Some (mkThread (W_release 0x1000) []) ∧
  0x1000 ≠ current (shared draining) ∧ previousCopyCounter (shared draining) = 0.
Proof.
  split; [exact few_threads|]. split; [apply crowded_boot|]. split; [exact draining_runs|].
  split; [reflexivity|].
  destruct (old_snapshot_released_after_drain 2 (crowded 0 1) draining 0%nat
              (mkThread (W_release 0x1000) []) 0x1000 few_threads (crowded_boot 1)
              draining_runs eq_refl (or_introl eq_refl)) as (Hne & Hzero & _).
  split; [exact Hne|exact Hzero].
Defined.

Lemma drain_counter_bounded_witness :
  Z.of_nat 2 < 2 ^ 16 ∧ boot 2 (crowded 0 1) ∧ runs (crowded 0 1) draining ∧
  - 2 ^ 16 < previousCopyCounter (shared draining) < 2 ^ 16.
Proof.
  split; [exact few_threads|]. split; [apply crowded_boot|]. split; [exact draining_runs|].
  apply (drain_counter_bounded 2 (crowded 0 1) draining few_threads
           (crowded_boot 1) draining_runs).
Defined.

Lemma edit_keeps_range :
  keeps in_range
    (Edit (Args := Z) (Some 0x2000) (fun t => inr (mkTestClass (a t) 4)) (fun _ => inr true)).
Proof.
  intros old fresh changed Hold _ Hbuilt Hmodified.
  injection Hbuilt as <-. injection Hmodified as <-. exact Hold.
Qed.

Lemma racing_keeps_range : runs_keeping in_range (crowded 0 1) raced.
Proof.
  apply (execute_keeping in_range racing); [|vm_compute; reflexivity].
  unfold racing.
  repeat (apply Forall_cons; split; [exact I || exact edit_keeps_range|]).
  constructor.
Qed.

Lemma readers_see_only_kept_payloads_witness :
  Z.of_nat 2 < 2 ^ 16 ∧ boot 2 (crowded 0 1) ∧
  (∀ t, t ∈ published (crowded 0 1) → in_range t) ∧
  runs_keeping in_range (crowded 0 1) raced ∧
  ∀ t, payload (shared raced) = Some t → in_range t.
Proof.
  assert (∀ t, t ∈ published (crowded 0 1) → in_range t) as Hfirst.
  { intros t Ht. apply list_elem_of_singleton in Ht as ->. unfold in_range. simpl. lia. }
  split; [exact few_threads|]. split; [apply crowded_boot|]. split; [exact Hfirst|].
  split; [exact racing_keeps_range|].
  apply (readers_see_only_kept_payloads in_range 2 (crowded 0 1) raced few_threads
           (crowded_boot 1) Hfirst racing_keeps_range).
Defined.

(** * The counting loop of the test program *)

Lemma count_up_S (allocator : gmap Z (@Internal TestClass) → option Z)
    (maxValue : Z) (fuel : nat) (w : @World TestClass) :
  count_up allocator maxValue (S fuel) w
  = match run (Args := Z)
            (Edit (allocator (heap w)) (fun t => inr (increment_a t))
               (fun before => inr (a before <? maxValue))) w with
    | Ret true w' => count_up allocator maxValue fuel w'
    | Ret false w' => Some (Ret tt w')
    | Throw e w' => Some (Throw e w')
    | Hang => Some Hang
    | Undef => Some Undef
    end.
Proof. reflexivity. Qed.

Lemma count_up_reaches (allocator : gmap Z (@Internal TestClass) → option Z)
    (maxValue : Z) (n : nat) :
  generous allocator → maxValue < 2 ^ 31 →
  ∀ (x y : Z) (w : @World TestClass),
    reachable (Args := Z) (mkState w ∅) → payload w = Some (mkTestClass x y) →
    - 2 ^ 31 ≤ x → x + Z.of_nat n = maxValue →
    ∃ w', count_up allocator maxValue (S n) w = Some (Ret tt w') ∧
          reachable (Args := Z) (mkState w' ∅) ∧
          payload w' = Some (mkTestClass maxValue y).
Proof.
  intros Hgen Hmax. induction n as [|n IH]; intros x y w Hreach Hpay Hx Hn.
  - exists w. split; [|split; [done|]].
    2:{ rewrite Hpay. do 2 f_equal. lia. }
    pose proof (reachable_consistent _ Hreach) as Hcons.
    pose proof Hcons as (Hs & Hm & _). simpl in Hs, Hm.
    destruct (unbound_one_snapshot _ Hcons) as (only & Hheap & _);
      [by intros r q Hr; simpl in Hr; rewrite lookup_empty in Hr|].
    simpl in Hheap.
    destruct (Hgen (heap w)) as (p & Hp & Hu & Hfree);
      [by rewrite Hheap, map_size_singleton|].
    rewrite count_up_S.
    rewrite run_settled; [|done|done|by rewrite Hp; intros ? [= <-]].
    unfold effect. unfold payload in Hpay. rewrite current_settled in Hpay by done.
    destruct (heap w !! addressAndCopyCounter w) as [cell|]; [|done].
    injection Hpay as Hcell. simpl. rewrite Hcell. simpl.
    by assert ((x <? maxValue) = false) as -> by lia.
  - pose proof (reachable_consistent _ Hreach) as Hcons.
    pose proof Hcons as (Hs & Hm & _). simpl in Hs, Hm.
    destruct (unbound_one_snapshot _ Hcons) as (only & Hheap & _);
      [by intros r q Hr; simpl in Hr; rewrite lookup_empty in Hr|].
    simpl in Hheap.
    destruct (Hgen (heap w)) as (p & Hp & Hu & Hfree);
      [by rewrite Hheap, map_size_singleton|].
    set (c := Edit (Args := Z) (Some p) (fun t => inr (increment_a t))
                (fun before => inr (a before <? maxValue))).
    assert (valid_place (heap w) (place_of c)) as Hplace by (by intros ? [= <-]).
    assert (run c w = Ret true (after_publish p (mkTestClass (x + 1) y) w)) as Hrun.
    { rewrite run_settled by done.
      unfold effect. unfold payload in Hpay. rewrite current_settled in Hpay by done.
      destruct (heap w !! addressAndCopyCounter w) as [cell|]; [|done].
      injection Hpay as Hcell. simpl. rewrite Hcell. simpl.
      assert ((x <? maxValue) = true) as -> by lia.
      unfold increment_a. simpl. by rewrite i32_small by lia. }
    destruct (IH (x + 1) y (after_publish p (mkTestClass (x + 1) y) w))
      as (w' & Hloop & Hreach' & Hpay'); [| |lia|lia|].
    + apply (reachable_step (mkState w ∅) _ (Mutate c)); [done|].
      by apply (step_mutate (mkState w ∅) c true).
    + by apply after_publish_payload.
    + exists w'. split; [|done].
      rewrite count_up_S, Hp. fold c. by rewrite Hrun.
Qed.


(** X18.  The loop of the first stress test, run by its thread alone from a
    container holding [a = minValue] with no handle outstanding and with an
    allocator that has fresh storage: it ends within
    [maxValue - minValue + 1] rounds, with [a = maxValue], [b] as it was, and
    one Snapshot of count one allocated. *)
Theorem count_up_ends_at_the_bound
    (allocator : gmap Z (@Internal TestClass) → option Z)
    (minValue maxValue y : Z) (w : @World TestClass) :
  generous allocator → - 2 ^ 31 ≤ minValue ≤ maxValue → maxValue < 2 ^ 31 →
  reachable (Args := Z) (mkState w ∅) → payload w = Some (mkTestClass minValue y) →
  ∃ w' cell,
    count_up allocator maxValue (S (Z.to_nat (maxValue - minValue))) w
    = Some (Ret tt w') ∧
    payload w' = Some (mkTestClass maxValue y) ∧
    heap w' = {[ current w' := cell ]} ∧ refcount cell = 1.
Proof.
  intros Hgen Hmin Hmax Hreach Hpay.
  destruct (count_up_reaches allocator maxValue (Z.to_nat (maxValue - minValue))
              Hgen Hmax minValue y w Hreach Hpay) as (w' & Hloop & Hreach' & Hpay');
    [lia|lia|].
  destruct (unbound_one_snapshot _ (reachable_consistent _ Hreach'))
    as (cell & Hheap & Hrc);
    [by intros r q Hr; simpl in Hr; rewrite lookup_empty in Hr|].
  by exists w', cell.
Qed.

Lemma two_places_generous : generous two_places.
Proof.
  intros h Hsize. unfold two_places.
  destruct (h !! 0x1000) as [c|] eqn:E.
  - exists 0x2000. split; [done|]. split; [unfold user_pointer; lia|].
    destruct (h !! 0x2000) as [c'|] eqn:E'; [|done]. exfalso.
    rewrite <- (insert_delete_id h 0x1000 c E) in Hsize.
    rewrite map_size_insert_None in Hsize by apply lookup_delete_eq.
    assert (delete 0x1000 h !! 0x2000 = Some c') as Hd
      by (by rewrite lookup_delete_ne).
    assert (size (delete 0x1000 h) = 0%nat) as Hz by lia.
    apply map_size_empty_inv in Hz. by rewrite Hz in Hd.
  - exists 0x1000. split; [done|]. split; [unfold user_pointer; lia|done].
Qed.

Lemma count_up_ends_at_the_bound_witness :
  generous two_places ∧ reachable (Args := Z) (mkState (tested 0) ∅) ∧
  ∃ w', count_up two_places 3 4 (tested 0) = Some (Ret tt w') ∧
        payload w' = Some (mkTestClass 3 0).
Proof.
  split; [exact two_places_generous|]. split; [apply (tested_reachable 0)|].
  destruct (count_up_ends_at_the_bound two_places 0 3 0 (tested 0) two_places_generous
              ltac:(lia) ltac:(lia) (tested_reachable 0) eq_refl)
    as (w' & cell & Hloop & Hpay & _).
  exists w'. split; [exact Hloop|exact Hpay].
Defined.

Lemma readers_never_wait_witness :
  Z.of_nat 2 < 2 ^ 16 ∧ boot 2 (crowded 0 1) ∧ runs (crowded 0 1) draining ∧
  threads draining !! 1%nat = Some (mkThread Idle [0x1000]) ∧
  ∃ s', system_step 1 (Release 0) draining = Next s'.
Proof.
  split; [exact few_threads|]. split; [apply crowded_boot|]. split; [exact draining_runs|].
  split; [reflexivity|].
  destruct (readers_never_wait 2 (crowded 0 1) draining 1%nat (mkThread Idle [0x1000])
              few_threads (crowded_boot 1) draining_runs eq_refl) as (_ & _ & Hrelease).
  apply (Hrelease eq_refl 0%nat 0x1000 eq_refl).
Defined.

Lemma teardown_leaves_handles_bound_witness :
  reachable both_bound ∧
  ∃ w', destroy (world both_bound) = Ret tt w' ∧
        heap w' !! 0x1000 = heap (world both_bound) !! 0x1000 ∧
        heap w' !! 0x2000 = Some (mkInternal 1 (mkTestClass 3 4)).
Proof.
  split; [apply both_bound_reachable|].
  destruct (teardown_leaves_handles_bound both_bound both_bound_reachable)
    as (cell & w' & Hc & Hdestroy & Hothers & Hleft & _).
  exists w'. split; [exact Hdestroy|]. split.
  - apply Hothers. vm_compute. discriminate.
  - change (current (world both_bound)) with 0x2000 in Hc, Hleft.
    change (heap (world both_bound) !! 0x2000)
      with (Some (mkInternal 2 (mkTestClass 3 4))) in Hc.
    injection Hc as <-. rewrite Hleft. vm_compute. reflexivity.
Defined.

Lemma emplace_is_reset_unmodified_witness :
  Some 0x2000 ≠ Some 0 ∧
  emplace (Some 0x2000) 6 (tested 5)
  = reset (Some 0x2000) (pure id) AlwaysPassingVerifier 6 (tested 5) ∧
  ∃ w', emplace (Some 0x2000) 6 (tested 5) = Ret true w' ∧
        payload w' = Some (mkTestClass 6 0).
Proof.
  assert (Some 0x2000 ≠ Some 0) as Hplace by discriminate.
  split; [exact Hplace|]. split.
  - apply (emplace_is_reset_unmodified (Some 0x2000) 6 (tested 5) Hplace).
  - eexists. split; [vm_compute; reflexivity|reflexivity].
Defined.
